(** * Quantaris engine: a shallow embedding of the turn-resolution
    pipeline, the action validator and the canonical state hash, with the
    properties of the specification stated and proved over it.

    Numbers are JavaScript numbers that only ever hold integers here
    (coordinates, hit points, turn counters); they are modelled as [Z].
    Strings are modelled as [string]; a character's code unit is its
    byte value.  Mutable objects shared by reference (the entries of
    [state.quantars] during resolution) are modelled by their index in
    the list, so that a write through a reference is a list update at
    that index. *)

From Stdlib Require Import ZArith Lia String Ascii Sorted.
From Stdlib Require DecimalString DecimalPos DecimalZ.
From stdpp Require Import base decidable option numbers list strings gmap.

Local Open Scope Z_scope.
#[local] Set Warnings "-clear-no-such-hyp".

(* ====================================================================== *)
(** ** core/types *)
(* ====================================================================== *)

Module Player.
Inductive PlayerId : Set := A | B.
End Player.
Abbreviation PlayerId := Player.PlayerId.

#[global] Instance PlayerId_eq_dec : EqDecision PlayerId.
Proof. solve_decision. Defined.

(** Cardinal directions for movement. *)
Inductive Direction : Set := North | East | South | West.

(** The eight pulse directions: orthogonal (ranged) and diagonal (melee). *)
Inductive PulseDirection : Set :=
| PNorth | PEast | PSouth | PWest
| PNorthEast | PNorthWest | PSouthEast | PSouthWest.

#[global] Instance Direction_eq_dec : EqDecision Direction.
Proof. solve_decision. Defined.
#[global] Instance PulseDirection_eq_dec : EqDecision PulseDirection.
Proof. solve_decision. Defined.

Definition ALL_DIRECTIONS : list Direction := [North; East; South; West].
Definition ALL_PULSE_DIRECTIONS : list PulseDirection :=
  [PNorth; PEast; PSouth; PWest; PNorthEast; PNorthWest; PSouthEast; PSouthWest].
Definition DIAGONAL_DIRECTIONS : list PulseDirection :=
  [PNorthEast; PNorthWest; PSouthEast; PSouthWest].

Inductive GamePhase : Set := Playing | Ended.
#[global] Instance GamePhase_eq_dec : EqDecision GamePhase.
Proof. solve_decision. Defined.

Record Position : Set := mkPosition { pos_x : Z; pos_y : Z }.
#[global] Instance Position_eq_dec : EqDecision Position.
Proof. solve_decision. Defined.

Record Quantar : Set := mkQuantar {
  q_id : string;
  q_owner : PlayerId;
  q_position : Position;
  q_hp : Z
}.

Record Core : Set := mkCore {
  c_owner : PlayerId;
  c_position : Position;
  c_hp : Z
}.

(** The three action variants.  [direction] has the static type the
    source gives it, so an unknown action type or direction string is not
    a value of [Action]. *)
Inductive Action : Set :=
| MoveAction (quantarId : string) (direction : Direction)
| PulseAction (quantarId : string) (direction : PulseDirection)
| ShieldAction (quantarId : string).

Definition quantarId (a : Action) : string :=
  match a with
  | MoveAction i _ | PulseAction i _ | ShieldAction i => i
  end.

Record GameState : Set := mkGameState {
  turn : Z;
  phase : GamePhase;
  quantars : list Quantar;
  cores_A : Core;
  cores_B : Core;
  winner : option PlayerId
}.

Inductive EntityType : Set := EntityQuantar | EntityCore.

Inductive TurnEvent : Set :=
| EvMove (quantarId : string) (from to : Position)
| EvMoveBlocked (quantarId : string) (from : Position)
                (direction : Direction) (reason : string)
| EvPulseFired (quantarId : string) (from : Position)
               (direction : PulseDirection)
| EvPulseHit (targetId : string) (targetType : EntityType) (damage : Z)
| EvPulseMiss (quantarId : string)
| EvShieldActivated (quantarId : string)
| EvDamageApplied (targetId : string) (damage remainingHp : Z)
| EvEntityDestroyed (entityId : string) (entityType : EntityType)
| EvGameOver (winner : PlayerId)
| EvTerminalLoss (loser : PlayerId) (reason : string)
| EvDraw (reason : string).

#[global] Instance EntityType_eq_dec : EqDecision EntityType.
Proof. solve_decision. Defined.
#[global] Instance TurnEvent_eq_dec : EqDecision TurnEvent.
Proof. solve_decision. Defined.

Record TurnLog : Set := mkTurnLog {
  log_turn : Z;
  log_events : list TurnEvent
}.

Record TurnResult : Set := mkTurnResult {
  res_state : GameState;
  res_log : TurnLog
}.

Definition BOARD_SIZE : Z := 9.
Definition CORE_HP : Z := 5.
Definition QUANTAR_HP : Z := 2.
Definition PULSE_DAMAGE : Z := 1.
Definition SHIELD_REDUCTION : Z := 1.
Definition QUANTARS_PER_PLAYER : Z := 3.
Definition MAX_TURNS : Z := 50.

Definition playerName (p : PlayerId) : string :=
  match p with Player.A => "A" | Player.B => "B" end.

(* ====================================================================== *)
(** ** core/state *)
(* ====================================================================== *)

Definition createQuantar (owner : PlayerId) (index : Z) (position : Position)
  : Quantar :=
  {| q_id := playerName owner +:+ DecimalString.NilZero.string_of_int
                                    (Z.to_int (index + 1));
     q_owner := owner;
     q_position := position;
     q_hp := QUANTAR_HP |}.

Definition createCore (owner : PlayerId) (position : Position) : Core :=
  {| c_owner := owner; c_position := position; c_hp := CORE_HP |}.

Definition createInitialState : GameState :=
  let quantarsA :=
    imap (fun i pos => createQuantar Player.A (Z.of_nat i) pos)
         [mkPosition 3 6; mkPosition 4 6; mkPosition 5 6] in
  let quantarsB :=
    imap (fun i pos => createQuantar Player.B (Z.of_nat i) pos)
         [mkPosition 3 2; mkPosition 4 2; mkPosition 5 2] in
  {| turn := 1;
     phase := Playing;
     quantars := quantarsA ++ quantarsB;
     cores_A := createCore Player.A (mkPosition 4 8);
     cores_B := createCore Player.B (mkPosition 4 0);
     winner := None |}.

(** [Array.prototype.find]: the first element satisfying the predicate,
    together with its index (the identity of the object found). *)
Fixpoint findFrom {X : Type} (p : X -> bool) (i : nat) (l : list X)
  : option (nat * X) :=
  match l with
  | [] => None
  | v :: l' => if p v then Some (i, v) else findFrom p (S i) l'
  end.

Definition find {X : Type} (p : X -> bool) (l : list X) : option (nat * X) :=
  findFrom p 0 l.

Definition getQuantar (state : GameState) (id : string) : option Quantar :=
  snd <$> find (fun q => bool_decide (q_id q = id)) (quantars state).

Definition getPlayerQuantars (state : GameState) (playerId : PlayerId)
  : list Quantar :=
  List.filter (fun q => bool_decide (q_owner q = playerId)) (quantars state).

Definition getPlayerCore (state : GameState) (playerId : PlayerId) : Core :=
  match playerId with
  | Player.A => cores_A state
  | Player.B => cores_B state
  end.

Definition isInBounds (position : Position) : bool :=
  (pos_x position >=? 0) && (pos_x position <? 9) &&
  (pos_y position >=? 0) && (pos_y position <? 9).

Definition positionsEqual (a b : Position) : bool :=
  (pos_x a =? pos_x b) && (pos_y a =? pos_y b).

Definition getOpponent (playerId : PlayerId) : PlayerId :=
  match playerId with Player.A => Player.B | Player.B => Player.A end.

(** What [getEntityAt] returns: [{ type: "quantar", entity }],
    [{ type: "core", entity }] or [null] (here [None]). *)
Inductive BoardEntity : Set :=
| QuantarEntity (entity : Quantar)
| CoreEntity (entity : Core).

Definition getEntityAt (state : GameState) (position : Position)
  : option BoardEntity :=
  match find (fun q => positionsEqual (q_position q) position)
             (quantars state) with
  | Some (_, quantar) => Some (QuantarEntity quantar)
  | None =>
      if positionsEqual (c_position (cores_A state)) position then
        Some (CoreEntity (cores_A state))
      else if positionsEqual (c_position (cores_B state)) position then
        Some (CoreEntity (cores_B state))
      else None
  end.

(* ====================================================================== *)
(** ** actions/validate *)
(* ====================================================================== *)

Inductive ValidationErrorCode : Set :=
| INVALID_ACTION_TYPE
| INVALID_DIRECTION
| QUANTAR_NOT_FOUND
| QUANTAR_NOT_OWNED
| QUANTAR_DEAD
| MOVE_OUT_OF_BOUNDS
| DUPLICATE_QUANTAR_ACTION
| MISSING_QUANTAR_ACTION
| GAME_NOT_IN_ACTION_PHASE.

#[global] Instance ValidationErrorCode_eq_dec : EqDecision ValidationErrorCode.
Proof. solve_decision. Defined.

(** [{ valid: true }] or [{ valid: false, error, code }]. *)
Inductive ValidationResult : Set :=
| ValidationSuccess
| ValidationError (error : string) (code : ValidationErrorCode).

Definition valid (r : ValidationResult) : bool :=
  match r with ValidationSuccess => true | ValidationError _ _ => false end.

Definition isValidDirection (dir : Direction) : bool :=
  bool_decide (dir ∈ ALL_DIRECTIONS).

Definition isValidPulseDirection (dir : PulseDirection) : bool :=
  bool_decide (dir ∈ ALL_PULSE_DIRECTIONS).

Definition isDiagonalPulse (dir : PulseDirection) : bool :=
  bool_decide (dir ∈ DIAGONAL_DIRECTIONS).

Definition DIRECTION_DELTAS (dir : Direction) : Position :=
  match dir with
  | North => mkPosition 0 (-1)
  | East => mkPosition 1 0
  | South => mkPosition 0 1
  | West => mkPosition (-1) 0
  end.

Definition PULSE_DIRECTION_DELTAS (dir : PulseDirection) : Position :=
  match dir with
  | PNorth => mkPosition 0 (-1)
  | PEast => mkPosition 1 0
  | PSouth => mkPosition 0 1
  | PWest => mkPosition (-1) 0
  | PNorthEast => mkPosition 1 (-1)
  | PNorthWest => mkPosition (-1) (-1)
  | PSouthEast => mkPosition 1 1
  | PSouthWest => mkPosition (-1) 1
  end.

Definition applyDirection (pos : Position) (dir : Direction) : Position :=
  let d := DIRECTION_DELTAS dir in
  mkPosition (pos_x pos + pos_x d) (pos_y pos + pos_y d).

Definition applyPulseDirection (pos : Position) (dir : PulseDirection)
  : Position :=
  let d := PULSE_DIRECTION_DELTAS dir in
  mkPosition (pos_x pos + pos_x d) (pos_y pos + pos_y d).

Definition directionName (d : Direction) : string :=
  match d with North => "N" | East => "E" | South => "S" | West => "W" end.

Definition pulseDirectionName (d : PulseDirection) : string :=
  match d with
  | PNorth => "N" | PEast => "E" | PSouth => "S" | PWest => "W"
  | PNorthEast => "NE" | PNorthWest => "NW"
  | PSouthEast => "SE" | PSouthWest => "SW"
  end.

(** Template-literal rendering of an integer-valued number (plain decimal
    digits, with a leading minus sign below zero). *)
Definition numberToString (n : Z) : string :=
  DecimalString.NilZero.string_of_int (Z.to_int n).

(** [validateAction].  The first guard of the source (a missing or
    non-object action, no [type] field) and the [default] arm of its
    [switch] cannot be reached by a value of type [Action]; the two
    direction checks are kept, over the typed directions. *)
Definition validateAction (state : GameState) (action : Action)
  (playerId : PlayerId) : ValidationResult :=
  match getQuantar state (quantarId action) with
  | None =>
      ValidationError ("Quantar " +:+ quantarId action +:+ " not found")
                      QUANTAR_NOT_FOUND
  | Some quantar =>
      if negb (bool_decide (q_owner quantar = playerId)) then
        ValidationError ("Quantar " +:+ quantarId action +:+
                         " is not owned by player " +:+ playerName playerId)
                        QUANTAR_NOT_OWNED
      else if q_hp quantar <=? 0 then
        ValidationError ("Quantar " +:+ quantarId action +:+ " is dead")
                        QUANTAR_DEAD
      else
        match action with
        | MoveAction _ direction =>
            if negb (isValidDirection direction) then
              ValidationError ("Invalid direction: " +:+ directionName direction)
                              INVALID_DIRECTION
            else
              let targetPos := applyDirection (q_position quantar) direction in
              if negb (isInBounds targetPos) then
                ValidationError "Move would go out of bounds" MOVE_OUT_OF_BOUNDS
              else ValidationSuccess
        | PulseAction _ direction =>
            if negb (isValidPulseDirection direction) then
              ValidationError ("Invalid pulse direction: " +:+
                               pulseDirectionName direction)
                              INVALID_DIRECTION
            else ValidationSuccess
        | ShieldAction _ => ValidationSuccess
        end
  end.

(** The loop over the submitted actions: [seen] is the [Set] of quantar
    ids met so far.  [None] means the loop ran to its end. *)
Fixpoint validateEach (state : GameState) (playerId : PlayerId)
  (seen : gset string) (actions : list Action) : option ValidationResult * gset string :=
  match actions with
  | [] => (None, seen)
  | action :: rest =>
      if bool_decide (quantarId action ∈ seen) then
        (Some (ValidationError ("Duplicate action for Quantar " +:+
                                quantarId action)
                               DUPLICATE_QUANTAR_ACTION), seen)
      else
        let seen' := seen ∪ {[ quantarId action ]} in
        match validateAction state action playerId with
        | ValidationSuccess => validateEach state playerId seen' rest
        | err => (Some err, seen')
        end
  end.

(** The closing loop: every alive Quantar of the player needs an action. *)
Fixpoint checkMissing (seen : gset string) (aliveQuantars : list Quantar)
  : ValidationResult :=
  match aliveQuantars with
  | [] => ValidationSuccess
  | quantar :: rest =>
      if negb (bool_decide (q_id quantar ∈ seen)) then
        ValidationError ("Missing action for Quantar " +:+ q_id quantar)
                        MISSING_QUANTAR_ACTION
      else checkMissing seen rest
  end.

Definition validatePlayerActions (state : GameState) (actions : list Action)
  (playerId : PlayerId) : ValidationResult :=
  if negb (bool_decide (phase state = Playing)) then
    ValidationError "Game is not in playing phase" GAME_NOT_IN_ACTION_PHASE
  else
    let playerQuantars := getPlayerQuantars state playerId in
    let aliveQuantars := List.filter (fun q => q_hp q >? 0) playerQuantars in
    match validateEach state playerId ∅ actions with
    | (Some err, _) => err
    | (None, actionQuantarIds) => checkMissing actionQuantarIds aliveQuantars
    end.

(** *** [validateAction] on what it may be handed at run time

    The source guards against values that are not of type [Action] (its
    first test and the [default] arm of its [switch], and the two
    direction tests).  [JsValue] is a field as found at run time: a
    string, or any other value (or a missing field), with the text a
    template literal renders it as (a value whose rendering throws, such
    as a Symbol, is left out). *)
Inductive JsValue : Set :=
| JsString (s : string)
| JsOther (rendering : string).

#[global] Instance JsValue_eq_dec : EqDecision JsValue.
Proof. solve_decision. Defined.

Definition render (v : JsValue) : string :=
  match v with JsString s => s | JsOther rendering => rendering end.

(** [NotAnAction]: a value that fails [!action || typeof action !==
    "object" || !("type" in action)]; [RawObject]: an object with a
    [type], and its three fields. *)
Inductive RawAction : Set :=
| NotAnAction
| RawObject (type quantarId direction : JsValue).

(** [isValidDirection(dir)], giving the direction [dir] is then used as;
    likewise [isValidPulseDirection]. *)
Definition asDirection (dir : JsValue) : option Direction :=
  match dir with
  | JsString s =>
      List.find (fun d => String.eqb (directionName d) s) ALL_DIRECTIONS
  | JsOther _ => None
  end.

Definition asPulseDirection (dir : JsValue) : option PulseDirection :=
  match dir with
  | JsString s =>
      List.find (fun d => String.eqb (pulseDirectionName d) s)
                ALL_PULSE_DIRECTIONS
  | JsOther _ => None
  end.

(** [getQuantar(state, action.quantarId)]: no Quantar id is equal to a
    value that is not a string. *)
Definition getQuantarOf (state : GameState) (quantarId : JsValue)
  : option Quantar :=
  match quantarId with
  | JsString id => getQuantar state id
  | JsOther _ => None
  end.

Definition validateActionAtRuntime (state : GameState) (action : RawAction)
  (playerId : PlayerId) : ValidationResult :=
  match action with
  | NotAnAction => ValidationError "Invalid action format" INVALID_ACTION_TYPE
  | RawObject type quantarId direction =>
      match getQuantarOf state quantarId with
      | None =>
          ValidationError ("Quantar " +:+ render quantarId +:+ " not found")
                          QUANTAR_NOT_FOUND
      | Some quantar =>
          if negb (bool_decide (q_owner quantar = playerId)) then
            ValidationError ("Quantar " +:+ render quantarId +:+
                             " is not owned by player " +:+ playerName playerId)
                            QUANTAR_NOT_OWNED
          else if q_hp quantar <=? 0 then
            ValidationError ("Quantar " +:+ render quantarId +:+ " is dead")
                            QUANTAR_DEAD
          else if bool_decide (type = JsString "MOVE") then
            match asDirection direction with
            | None =>
                ValidationError ("Invalid direction: " +:+ render direction)
                                INVALID_DIRECTION
            | Some d =>
                let targetPos := applyDirection (q_position quantar) d in
                if negb (isInBounds targetPos) then
                  ValidationError "Move would go out of bounds"
                                  MOVE_OUT_OF_BOUNDS
                else ValidationSuccess
            end
          else if bool_decide (type = JsString "PULSE") then
            match asPulseDirection direction with
            | None =>
                ValidationError ("Invalid pulse direction: "
                                 +:+ render direction)
                                INVALID_DIRECTION
            | Some _ => ValidationSuccess
            end
          else if bool_decide (type = JsString "SHIELD") then ValidationSuccess
          else
            ValidationError ("Unknown action type: " +:+ render type)
                            INVALID_ACTION_TYPE
      end
  end.

(** A value of type [Action] as the object it is at run time. *)
Definition toRaw (action : Action) : RawAction :=
  match action with
  | MoveAction id d =>
      RawObject (JsString "MOVE") (JsString id) (JsString (directionName d))
  | PulseAction id d =>
      RawObject (JsString "PULSE") (JsString id)
                (JsString (pulseDirectionName d))
  | ShieldAction id =>
      RawObject (JsString "SHIELD") (JsString id) (JsOther "undefined")
  end.

(** The run-time action is an object whose [quantarId] names a Quantar
    of the state that [playerId] owns and that is alive: the three checks
    made before the action's type is looked at. *)
Definition passesQuantarChecks (state : GameState) (playerId : PlayerId)
  (action : RawAction) (type direction : JsValue) (quantar : Quantar) : Prop :=
  exists id,
    action = RawObject type (JsString id) direction /\
    getQuantar state id = Some quantar /\
    q_owner quantar = playerId /\ 0 < q_hp quantar.


(* ====================================================================== *)
(** ** resolution/pipeline: the mutable working copy *)
(* ====================================================================== *)

Record MutableQuantar : Set := mkMutableQuantar {
  mq_id : string;
  mq_owner : PlayerId;
  mq_position : Position;
  mq_hp : Z;
  mq_shielded : bool;
  mq_pendingDamage : Z
}.

Record MutableCore : Set := mkMutableCore {
  mc_owner : PlayerId;
  mc_position : Position;
  mc_hp : Z;
  mc_pendingDamage : Z
}.

Record ResolutionState : Set := mkResolutionState {
  rs_quantars : list MutableQuantar;
  rs_cores_A : MutableCore;
  rs_cores_B : MutableCore;
  rs_events : list TurnEvent
}.

Definition toMutableQuantar (q : Quantar) : MutableQuantar :=
  {| mq_id := q_id q; mq_owner := q_owner q; mq_position := q_position q;
     mq_hp := q_hp q; mq_shielded := false; mq_pendingDamage := 0 |}.

Definition toMutableCore (c : Core) : MutableCore :=
  {| mc_owner := c_owner c; mc_position := c_position c; mc_hp := c_hp c;
     mc_pendingDamage := 0 |}.

Definition toImmutableQuantar (q : MutableQuantar) : Quantar :=
  {| q_id := mq_id q; q_owner := mq_owner q; q_position := mq_position q;
     q_hp := mq_hp q |}.

Definition toImmutableCore (c : MutableCore) : Core :=
  {| c_owner := mc_owner c; c_position := mc_position c; c_hp := mc_hp c |}.

(** Field writes on the working copy. *)
Definition setPosition (p : Position) (q : MutableQuantar) : MutableQuantar :=
  {| mq_id := mq_id q; mq_owner := mq_owner q; mq_position := p;
     mq_hp := mq_hp q; mq_shielded := mq_shielded q;
     mq_pendingDamage := mq_pendingDamage q |}.

Definition setShielded (b : bool) (q : MutableQuantar) : MutableQuantar :=
  {| mq_id := mq_id q; mq_owner := mq_owner q; mq_position := mq_position q;
     mq_hp := mq_hp q; mq_shielded := b;
     mq_pendingDamage := mq_pendingDamage q |}.

Definition addPendingDamage (d : Z) (q : MutableQuantar) : MutableQuantar :=
  {| mq_id := mq_id q; mq_owner := mq_owner q; mq_position := mq_position q;
     mq_hp := mq_hp q; mq_shielded := mq_shielded q;
     mq_pendingDamage := mq_pendingDamage q + d |}.

Definition addCorePendingDamage (d : Z) (c : MutableCore) : MutableCore :=
  {| mc_owner := mc_owner c; mc_position := mc_position c; mc_hp := mc_hp c;
     mc_pendingDamage := mc_pendingDamage c + d |}.

Definition withQuantars (qs : list MutableQuantar) (s : ResolutionState)
  : ResolutionState :=
  {| rs_quantars := qs; rs_cores_A := rs_cores_A s;
     rs_cores_B := rs_cores_B s; rs_events := rs_events s |}.

Definition withCore (slot : PlayerId) (c : MutableCore) (s : ResolutionState)
  : ResolutionState :=
  match slot with
  | Player.A => {| rs_quantars := rs_quantars s; rs_cores_A := c;
                   rs_cores_B := rs_cores_B s; rs_events := rs_events s |}
  | Player.B => {| rs_quantars := rs_quantars s; rs_cores_A := rs_cores_A s;
                   rs_cores_B := c; rs_events := rs_events s |}
  end.

(** [state.events.push(e)]. *)
Definition push (e : TurnEvent) (s : ResolutionState) : ResolutionState :=
  {| rs_quantars := rs_quantars s; rs_cores_A := rs_cores_A s;
     rs_cores_B := rs_cores_B s; rs_events := rs_events s ++ [e] |}.

(** The result is a reference: the index of the object in
    [state.quantars], with the object as it is read at that moment. *)
Definition getQuantarById (state : ResolutionState) (id : string)
  : option (nat * MutableQuantar) :=
  find (fun q => bool_decide (mq_id q = id)) (rs_quantars state).

Inductive Entity : Set :=
| EntityIsQuantar (ref : nat) (entity : MutableQuantar)
| EntityIsCore (slot : PlayerId) (entity : MutableCore).

Definition getEntityAtPosition (state : ResolutionState) (position : Position)
  : option Entity :=
  match find (fun q => (mq_hp q >? 0) && positionsEqual (mq_position q) position)
             (rs_quantars state) with
  | Some (i, quantar) => Some (EntityIsQuantar i quantar)
  | None =>
      if positionsEqual (mc_position (rs_cores_A state)) position then
        Some (EntityIsCore Player.A (rs_cores_A state))
      else if positionsEqual (mc_position (rs_cores_B state)) position then
        Some (EntityIsCore Player.B (rs_cores_B state))
      else None
  end.

(* ====================================================================== *)
(** ** Phase 1: MOVE *)
(* ====================================================================== *)

(** An entry of [intendedMoves]: [im_quantar] is the reference to the
    Quantar object, [im_id] its (never written) id, [im_direction] the
    direction of [action]. *)
Record IntendedMove : Set := mkIntendedMove {
  im_quantar : nat;
  im_id : string;
  im_from : Position;
  im_to : Position;
  im_direction : Direction
}.

Definition asMove (a : Action) : option (string * Direction) :=
  match a with MoveAction i d => Some (i, d) | _ => None end.

Definition asShield (a : Action) : option string :=
  match a with ShieldAction i => Some i | _ => None end.

Definition asPulse (a : Action) : option (string * PulseDirection) :=
  match a with PulseAction i d => Some (i, d) | _ => None end.

(** One round of the first loop of [resolveMoves]. *)
Definition intendMove (state : ResolutionState)
  (acc : list IntendedMove * list TurnEvent) (action : string * Direction)
  : list IntendedMove * list TurnEvent :=
  let '(intendedMoves, events) := acc in
  match getQuantarById state action.1 with
  | None => acc
  | Some (ref, quantar) =>
      if mq_hp quantar <=? 0 then acc
      else
        let from := mq_position quantar in
        let to := applyDirection from action.2 in
        if negb (isInBounds to) then
          (intendedMoves,
           events ++ [EvMoveBlocked (mq_id quantar) from action.2 "out of bounds"])
        else
          (intendedMoves ++ [mkIntendedMove ref (mq_id quantar) from to action.2],
           events)
  end.

(** [list.filter(cb)] for a callback that either keeps the element or
    pushes one event and drops it. *)
Fixpoint filterEmit {X : Type} (reject : X -> option TurnEvent) (l : list X)
  (events : list TurnEvent) : list X * list TurnEvent :=
  match l with
  | [] => ([], events)
  | v :: l' =>
      match reject v with
      | Some e => filterEmit reject l' (events ++ [e])
      | None =>
          let '(kept, events') := filterEmit reject l' events in
          (v :: kept, events')
      end
  end.

Definition blockedEvent (move : IntendedMove) (reason : string) : TurnEvent :=
  EvMoveBlocked (im_id move) (im_from move) (im_direction move) reason.

Definition coreCollision (state : ResolutionState) (move : IntendedMove)
  : option TurnEvent :=
  if positionsEqual (im_to move) (mc_position (rs_cores_A state)) ||
     positionsEqual (im_to move) (mc_position (rs_cores_B state))
  then Some (blockedEvent move "blocked by Core")
  else None.

(** The key [`${x},${y}`] of [destinationCounts]. *)
Definition destKey (p : Position) : string :=
  numberToString (pos_x p) +:+ "," +:+ numberToString (pos_y p).

Definition countDestinations (validMoves : list IntendedMove) : gmap string Z :=
  foldl (fun counts move =>
           let key := destKey (im_to move) in
           <[ key := default 0 (counts !! key) + 1 ]> counts)
        ∅ validMoves.

(** [new Map(validMoves.map(m => [m.quantar.id, m]))]: a later entry
    replaces an earlier one with the same id. *)
Definition indexMoves (validMoves : list IntendedMove)
  : gmap string IntendedMove :=
  foldl (fun byId move => <[ im_id move := move ]> byId) ∅ validMoves.

(** The callback of the [finalMoves] filter. *)
Definition finalReject (state : ResolutionState)
  (destinationCounts : gmap string Z)
  (movesByQuantar : gmap string IntendedMove)
  (move : IntendedMove) : option TurnEvent :=
  if default 0 (destinationCounts !! destKey (im_to move)) >? 1 then
    Some (blockedEvent move "collision with another Quantar")
  else
    match find (fun q => (mq_hp q >? 0)
                          && negb (bool_decide (mq_id q = im_id move))
                          && positionsEqual (mq_position q) (im_to move))
               (rs_quantars state) with
    | Some (_, targetOccupant) =>
        match movesByQuantar !! mq_id targetOccupant with
        | None => Some (blockedEvent move "blocked by stationary Quantar")
        | Some occupantMove =>
            if positionsEqual (im_to occupantMove) (im_from move) then
              Some (blockedEvent move "swap collision")
            else None
        end
    | None => None
    end.

Definition applyMove (state : ResolutionState) (move : IntendedMove)
  : ResolutionState :=
  push (EvMove (im_id move) (im_from move) (im_to move))
       (withQuantars (alter (setPosition (im_to move)) (im_quantar move)
                            (rs_quantars state))
                     state).

Definition resolveMoves (state : ResolutionState) (actions : list Action)
  : ResolutionState :=
  let moveActions := omap asMove actions in
  let '(intendedMoves, events1) :=
    foldl (intendMove state) ([], rs_events state) moveActions in
  let '(validMoves, events2) :=
    filterEmit (coreCollision state) intendedMoves events1 in
  let destinationCounts := countDestinations validMoves in
  let movesByQuantar := indexMoves validMoves in
  let '(finalMoves, events3) :=
    filterEmit (finalReject state destinationCounts movesByQuantar)
               validMoves events2 in
  foldl applyMove
        {| rs_quantars := rs_quantars state; rs_cores_A := rs_cores_A state;
           rs_cores_B := rs_cores_B state; rs_events := events3 |}
        finalMoves.

(* ====================================================================== *)
(** ** Phase 2: SHIELD *)
(* ====================================================================== *)

Definition shieldStep (state : ResolutionState) (id : string)
  : ResolutionState :=
  match getQuantarById state id with
  | None => state
  | Some (ref, quantar) =>
      if mq_hp quantar <=? 0 then state
      else
        push (EvShieldActivated (mq_id quantar))
             (withQuantars (alter (setShielded true) ref (rs_quantars state))
                           state)
  end.

Definition resolveShields (state : ResolutionState) (actions : list Action)
  : ResolutionState :=
  foldl shieldStep state (omap asShield actions).

(* ====================================================================== *)
(** ** Phase 3: PULSE *)
(* ====================================================================== *)

(** The [while (true)] loop of an orthogonal pulse, with a bound on the
    number of rounds; [None] is a loop that has not finished within the
    bound, [Some hitTarget] a finished one. *)
Fixpoint traceBeamFuel (fuel : nat) (state : ResolutionState)
  (currentPos : Position) (direction : PulseDirection)
  : option (option Entity) :=
  match fuel with
  | O => None
  | S fuel' =>
      let currentPos := applyPulseDirection currentPos direction in
      if negb (isInBounds currentPos) then Some None
      else
        match getEntityAtPosition state currentPos with
        | Some entity => Some (Some entity)
        | None => traceBeamFuel fuel' state currentPos direction
        end
  end.

(** Ten rounds always finish the loop (lemma [traceBeamFuel_total]). *)
Definition traceBeam (state : ResolutionState) (currentPos : Position)
  (direction : PulseDirection) : option Entity :=
  default None (traceBeamFuel 10 state currentPos direction).

Definition findHitTarget (state : ResolutionState) (origin : Position)
  (direction : PulseDirection) : option Entity :=
  if isDiagonalPulse direction then
    let currentPos := applyPulseDirection origin direction in
    if isInBounds currentPos then getEntityAtPosition state currentPos
    else None
  else traceBeam state origin direction.

Definition applyHit (state : ResolutionState) (shooter : MutableQuantar)
  (hitTarget : option Entity) : ResolutionState :=
  match hitTarget with
  | Some (EntityIsQuantar ref entity) =>
      push (EvPulseHit (mq_id entity) EntityQuantar PULSE_DAMAGE)
           (withQuantars (alter (addPendingDamage PULSE_DAMAGE) ref
                                (rs_quantars state))
                         state)
  | Some (EntityIsCore slot entity) =>
      push (EvPulseHit ("core_" +:+ playerName (mc_owner entity)) EntityCore
                       PULSE_DAMAGE)
           (withCore slot (addCorePendingDamage PULSE_DAMAGE
                             (match slot with
                              | Player.A => rs_cores_A state
                              | Player.B => rs_cores_B state
                              end))
                     state)
  | None => push (EvPulseMiss (mq_id shooter)) state
  end.

Definition pulseStep (state : ResolutionState)
  (action : string * PulseDirection) : ResolutionState :=
  match getQuantarById state action.1 with
  | None => state
  | Some (_, quantar) =>
      if mq_hp quantar <=? 0 then state
      else
        let state1 :=
          push (EvPulseFired (mq_id quantar) (mq_position quantar) action.2)
               state in
        applyHit state1 quantar
                 (findHitTarget state1 (mq_position quantar) action.2)
  end.

Definition resolvePulses (state : ResolutionState) (actions : list Action)
  : ResolutionState :=
  foldl pulseStep state (omap asPulse actions).

(* ====================================================================== *)
(** ** Phase 4: apply damage *)
(* ====================================================================== *)

Definition actualDamageOf (quantar : MutableQuantar) : Z :=
  if mq_shielded quantar
  then Z.max 0 (mq_pendingDamage quantar - SHIELD_REDUCTION)
  else mq_pendingDamage quantar.

Definition damagedQuantar (quantar : MutableQuantar) : MutableQuantar :=
  {| mq_id := mq_id quantar; mq_owner := mq_owner quantar;
     mq_position := mq_position quantar;
     mq_hp := mq_hp quantar - actualDamageOf quantar;
     mq_shielded := mq_shielded quantar;
     mq_pendingDamage := 0 |}.

(** The loop over [state.quantars]: each object is updated in place and
    its event pushed before the next one is looked at. *)
Fixpoint damageQuantars (qs : list MutableQuantar) (events : list TurnEvent)
  : list MutableQuantar * list TurnEvent :=
  match qs with
  | [] => ([], events)
  | quantar :: rest =>
      if mq_pendingDamage quantar >? 0 then
        let quantar' := damagedQuantar quantar in
        let '(rest', events') :=
          damageQuantars rest
            (events ++ [EvDamageApplied (mq_id quantar)
                                        (actualDamageOf quantar)
                                        (mq_hp quantar')]) in
        (quantar' :: rest', events')
      else
        let '(rest', events') := damageQuantars rest events in
        (quantar :: rest', events')
  end.

Definition damageCore (core : MutableCore) (events : list TurnEvent)
  : MutableCore * list TurnEvent :=
  if mc_pendingDamage core >? 0 then
    let hp' := mc_hp core - mc_pendingDamage core in
    ({| mc_owner := mc_owner core; mc_position := mc_position core;
        mc_hp := hp'; mc_pendingDamage := 0 |},
     events ++ [EvDamageApplied ("core_" +:+ playerName (mc_owner core))
                                (mc_pendingDamage core) hp'])
  else (core, events).

Definition applyDamage (state : ResolutionState) : ResolutionState :=
  let '(qs, events1) := damageQuantars (rs_quantars state) (rs_events state) in
  let '(coreA, events2) := damageCore (rs_cores_A state) events1 in
  let '(coreB, events3) := damageCore (rs_cores_B state) events2 in
  {| rs_quantars := qs; rs_cores_A := coreA; rs_cores_B := coreB;
     rs_events := events3 |}.

(* ====================================================================== *)
(** ** Phase 5: remove dead entities *)
(* ====================================================================== *)

Definition destroyedQuantarEvents (qs : list MutableQuantar) : list TurnEvent :=
  omap (fun quantar =>
          if mq_hp quantar <=? 0
          then Some (EvEntityDestroyed (mq_id quantar) EntityQuantar)
          else None) qs.

Definition destroyedCoreEvents (core : MutableCore) : list TurnEvent :=
  if mc_hp core <=? 0
  then [EvEntityDestroyed ("core_" +:+ playerName (mc_owner core)) EntityCore]
  else [].

Definition removeDeadEntities (state : ResolutionState) : ResolutionState :=
  {| rs_quantars := List.filter (fun q => mq_hp q >? 0) (rs_quantars state);
     rs_cores_A := rs_cores_A state;
     rs_cores_B := rs_cores_B state;
     rs_events := rs_events state
                  ++ destroyedQuantarEvents (rs_quantars state)
                  ++ destroyedCoreEvents (rs_cores_A state)
                  ++ destroyedCoreEvents (rs_cores_B state) |}.

(* ====================================================================== *)
(** ** Phase 6: win condition *)
(* ====================================================================== *)

Record WinConditionResult : Set := mkWinConditionResult {
  wc_winner : option PlayerId;
  wc_terminalLoss : option PlayerId;
  wc_isDraw : bool
}.

Definition checkWinCondition (state : ResolutionState) : WinConditionResult :=
  let coreADead := mc_hp (rs_cores_A state) <=? 0 in
  let coreBDead := mc_hp (rs_cores_B state) <=? 0 in
  if coreADead && coreBDead then mkWinConditionResult None None true
  else if coreADead then mkWinConditionResult (Some Player.B) None false
  else if coreBDead then mkWinConditionResult (Some Player.A) None false
  else
    let quantarsA :=
      List.filter (fun q => bool_decide (mq_owner q = Player.A) && (mq_hp q >? 0))
                  (rs_quantars state) in
    let quantarsB :=
      List.filter (fun q => bool_decide (mq_owner q = Player.B) && (mq_hp q >? 0))
                  (rs_quantars state) in
    if (Nat.eqb (length quantarsA) 0) && (Nat.eqb (length quantarsB) 0) then
      mkWinConditionResult None None true
    else if Nat.eqb (length quantarsA) 0 then
      mkWinConditionResult (Some Player.B) (Some Player.A) false
    else if Nat.eqb (length quantarsB) 0 then
      mkWinConditionResult (Some Player.A) (Some Player.B) false
    else mkWinConditionResult None None false.

(* ====================================================================== *)
(** ** Main resolution function *)
(* ====================================================================== *)

(** The mutable state built at the start of [resolveTurn]. *)
Definition workingCopy (state : GameState) : ResolutionState :=
  {| rs_quantars := toMutableQuantar <$> quantars state;
     rs_cores_A := toMutableCore (cores_A state);
     rs_cores_B := toMutableCore (cores_B state);
     rs_events := [] |}.

(** The working copy after phase 1, and after phases 1 to 3. *)
Definition afterMoves (state : GameState) (actionsA actionsB : list Action)
  : ResolutionState :=
  resolveMoves (workingCopy state) (actionsA ++ actionsB).

Definition afterPulses (state : GameState) (actionsA actionsB : list Action)
  : ResolutionState :=
  let allActions := actionsA ++ actionsB in
  resolvePulses (resolveShields (afterMoves state actionsA actionsB) allActions)
                allActions.

(** Phases 1 to 5 on a fresh working copy of the input state. *)
Definition runPhases (state : GameState) (actionsA actionsB : list Action)
  : ResolutionState :=
  removeDeadEntities (applyDamage (afterPulses state actionsA actionsB)).

(** The events pushed after phase 5. *)
Definition closingEvents (turn : Z) (wc : WinConditionResult) : list TurnEvent :=
  let nextTurn := turn + 1 in
  let isMaxTurnsReached :=
    negb (bool_decide (is_Some (wc_winner wc))) && negb (wc_isDraw wc)
    && (nextTurn >=? MAX_TURNS) in
  (match wc_terminalLoss wc with
   | Some loser => [EvTerminalLoss loser "no_quantars"]
   | None => []
   end)
  ++ (match wc_winner wc with
      | Some w => [EvGameOver w]
      | None => []
      end)
  ++ (if isMaxTurnsReached || wc_isDraw wc
      then [EvDraw (if wc_isDraw wc then "mutual_destruction" else "max_turns")]
      else []).

Definition resolveTurn (state : GameState) (actionsA actionsB : list Action)
  : TurnResult :=
  let resolutionState := runPhases state actionsA actionsB in
  let wc := checkWinCondition resolutionState in
  let nextTurn := turn state + 1 in
  let isMaxTurnsReached :=
    negb (bool_decide (is_Some (wc_winner wc))) && negb (wc_isDraw wc)
    && (nextTurn >=? MAX_TURNS) in
  let gameEnded :=
    bool_decide (is_Some (wc_winner wc)) || wc_isDraw wc || isMaxTurnsReached in
  let newState :=
    {| turn := nextTurn;
       phase := if gameEnded then Ended else Playing;
       quantars := toImmutableQuantar <$> rs_quantars resolutionState;
       cores_A := toImmutableCore (rs_cores_A resolutionState);
       cores_B := toImmutableCore (rs_cores_B resolutionState);
       winner := wc_winner wc |} in
  {| res_state := newState;
     res_log := {| log_turn := turn state;
                   log_events := rs_events resolutionState
                                 ++ closingEvents (turn state) wc |} |}.

(* ====================================================================== *)
(** ** hash/canonical *)
(* ====================================================================== *)

Definition serializeQuantar (q : Quantar) : string :=
  "Q:" +:+ q_id q +:+ ":" +:+ playerName (q_owner q) +:+ ":" +:+
  numberToString (pos_x (q_position q)) +:+ "," +:+
  numberToString (pos_y (q_position q)) +:+ ":" +:+ numberToString (q_hp q).

Definition serializeCore (c : Core) : string :=
  "C:" +:+ playerName (c_owner c) +:+ ":" +:+
  numberToString (pos_x (c_position c)) +:+ "," +:+
  numberToString (pos_y (c_position c)) +:+ ":" +:+ numberToString (c_hp c).

Definition serializeAction (a : Action) : string :=
  match a with
  | MoveAction i d => "M:" +:+ i +:+ ":" +:+ directionName d
  | PulseAction i d => "P:" +:+ i +:+ ":" +:+ pulseDirectionName d
  | ShieldAction i => "S:" +:+ i
  end.

Definition phaseName (p : GamePhase) : string :=
  match p with Playing => "playing" | Ended => "ended" end.

(** [Array.prototype.sort(compare)]: a stable sort, here by insertion. *)
Fixpoint insertSorted {X : Type} (compare : X -> X -> Z) (v : X)
  (sorted : list X) : list X :=
  match sorted with
  | [] => [v]
  | w :: rest =>
      if compare v w <? 0 then v :: w :: rest
      else w :: insertSorted compare v rest
  end.

Definition sort {X : Type} (compare : X -> X -> Z) (l : list X) : list X :=
  foldl (fun sorted v => insertSorted compare v sorted) [] l.

Section Canonical.

(** [String.prototype.localeCompare] depends on the host's collation;
    it is a parameter of the canonical form. *)
Variable localeCompare : string -> string -> Z.

Definition canonicalizeState (state : GameState) : string :=
  let parts :=
    ["T:" +:+ numberToString (turn state);
     "P:" +:+ phaseName (phase state);
     "W:" +:+ from_option playerName "null" (winner state);
     serializeCore (cores_A state);
     serializeCore (cores_B state)] in
  let sortedQuantars :=
    sort (fun a b => localeCompare (q_id a) (q_id b)) (quantars state) in
  String.concat "|" (parts ++ (serializeQuantar <$> sortedQuantars)).

Definition canonicalizeActions (actions : list Action) : string :=
  let sorted :=
    sort (fun a b => localeCompare (quantarId a) (quantarId b)) actions in
  String.concat "|" (serializeAction <$> sorted).

End Canonical.

(** 32-bit integer conversions of the bitwise operators. *)
Definition toInt32 (z : Z) : Z := (z + 2 ^ 31) mod 2 ^ 32 - 2 ^ 31.
Definition toUint32 (z : Z) : Z := z mod 2 ^ 32.

(** [a << n] *)
Definition shiftLeft (a n : Z) : Z :=
  toInt32 (Z.shiftl (toInt32 a) (toUint32 n mod 32)).

(** [a ^ b] *)
Definition bitXor (a b : Z) : Z := toInt32 (Z.lxor (toInt32 a) (toInt32 b)).

(** [a >>> n] *)
Definition unsignedShiftRight (a n : Z) : Z :=
  Z.shiftr (toUint32 a) (toUint32 n mod 32).

Definition charCode (c : ascii) : Z := Z.of_N (N_of_ascii c).

Fixpoint djb2Loop (hash : Z) (str : string) : Z :=
  match str with
  | EmptyString => hash
  | String c rest => djb2Loop (bitXor (shiftLeft hash 5 + hash) (charCode c)) rest
  end.

Definition djb2Hash (str : string) : Z :=
  unsignedShiftRight (djb2Loop 5381 str) 0.

Definition hexDigit (d : Z) : ascii :=
  match String.get (Z.to_nat d) "0123456789abcdef" with
  | Some c => c
  | None => "0"%char
  end.

(** Digits of a non-negative integer in base 16, most significant first;
    [fuel] bounds the number of digits produced. *)
Fixpoint hexDigits (fuel : nat) (n : Z) : string :=
  match fuel with
  | O => EmptyString
  | S fuel' =>
      if n <? 16 then String (hexDigit n) EmptyString
      else hexDigits fuel' (n / 16) +:+ String (hexDigit (n mod 16)) EmptyString
  end.

(** [n.toString(16)] for a non-negative integer [n]; a number below
    [2^k] has at most [k] hexadecimal digits. *)
Definition toString16 (n : Z) : string :=
  hexDigits (S (Z.to_nat (Z.log2 n))) n.

Fixpoint repeatChar (n : nat) (c : ascii) : string :=
  match n with
  | O => EmptyString
  | S n' => String c (repeatChar n' c)
  end.

(** [str.padStart(targetLength, c)] for a one-character filler. *)
Definition padStart (str : string) (targetLength : nat) (c : ascii) : string :=
  repeatChar (targetLength - String.length str) c +:+ str.

Definition hashToHex (str : string) : string :=
  padStart (toString16 (djb2Hash str)) 8 "0".

Definition hashState (localeCompare : string -> string -> Z)
  (state : GameState) : string :=
  hashToHex (canonicalizeState localeCompare state).

Definition hashActions (localeCompare : string -> string -> Z)
  (actions : list Action) : string :=
  hashToHex (canonicalizeActions localeCompare actions).

Definition statesEqual (localeCompare : string -> string -> Z)
  (a b : GameState) : bool :=
  bool_decide (canonicalizeState localeCompare a
               = canonicalizeState localeCompare b).

Definition hashTurn (localeCompare : string -> string -> Z)
  (state : GameState) (actionsA actionsB : list Action) : string :=
  let stateCanon := canonicalizeState localeCompare state in
  let actionsACanon := canonicalizeActions localeCompare actionsA in
  let actionsBCanon := canonicalizeActions localeCompare actionsB in
  hashToHex (stateCanon +:+ "||" +:+ actionsACanon +:+ "||" +:+ actionsBCanon).

Record ReplayTurn : Set := mkReplayTurn {
  rt_turn : Z;
  rt_stateHash : string;
  rt_actionsA : list Action;
  rt_actionsB : list Action;
  rt_log : TurnLog
}.

Definition createReplayTurn (localeCompare : string -> string -> Z)
  (state : GameState) (actionsA actionsB : list Action) (log : TurnLog)
  : ReplayTurn :=
  {| rt_turn := turn state;
     rt_stateHash := hashState localeCompare state;
     rt_actionsA := actionsA;
     rt_actionsB := actionsB;
     rt_log := log |}.

(** Reading a hexadecimal string back; [None] on any other character. *)
Definition hexValueOfChar (c : ascii) : option Z :=
  let n := charCode c in
  if (48 <=? n) && (n <=? 57) then Some (n - 48)
  else if (97 <=? n) && (n <=? 102) then Some (n - 87)
  else None.

Fixpoint parseHexFrom (acc : Z) (s : string) : option Z :=
  match s with
  | EmptyString => Some acc
  | String c rest =>
      match hexValueOfChar c with
      | Some d => parseHexFrom (16 * acc + d) rest
      | None => None
      end
  end.

Definition parseHex (s : string) : option Z := parseHexFrom 0 s.

(** A plain code-unit comparison, to run the canonical form on examples. *)
Fixpoint compareCodeUnits (a b : string) : Z :=
  match a, b with
  | EmptyString, EmptyString => 0
  | EmptyString, String _ _ => -1
  | String _ _, EmptyString => 1
  | String c a', String d b' =>
      if charCode c <? charCode d then -1
      else if charCode d <? charCode c then 1
      else compareCodeUnits a' b'
  end.


(* ====================================================================== *)
(** ** Vocabulary of the specification *)
(* ====================================================================== *)

(** Events that end a game; phases 1 to 5 never push one. *)
Definition isClosingEvent (e : TurnEvent) : bool :=
  match e with
  | EvGameOver _ | EvTerminalLoss _ _ | EvDraw _ => true
  | _ => false
  end.

Definition isDrawEvent (e : TurnEvent) : bool :=
  match e with EvDraw _ => true | _ => false end.

Definition isTerminalLossEvent (e : TurnEvent) : bool :=
  match e with EvTerminalLoss _ _ => true | _ => false end.

(** The surviving Quantars of a player in a game state. *)
Definition survivors (state : GameState) (playerId : PlayerId) : list Quantar :=
  getPlayerQuantars state playerId.

(** A state as the engine creates and maintains it: a game in progress,
    live Quantars with distinct ids on distinct in-bounds cells away from
    the Cores, standing Cores in their own slots. *)
Definition wellFormed (state : GameState) : bool :=
  bool_decide (phase state = Playing)
  && (1 <=? turn state)
  && bool_decide (winner state = None)
  && forallb (fun q => (0 <? q_hp q) && (q_hp q <=? QUANTAR_HP)
                       && isInBounds (q_position q)
                       && negb (positionsEqual (q_position q)
                                               (c_position (cores_A state)))
                       && negb (positionsEqual (q_position q)
                                               (c_position (cores_B state))))
             (quantars state)
  && bool_decide (NoDup (q_id <$> quantars state))
  && bool_decide (NoDup (q_position <$> quantars state))
  && bool_decide (c_owner (cores_A state) = Player.A)
  && bool_decide (c_owner (cores_B state) = Player.B)
  && (0 <? c_hp (cores_A state)) && (c_hp (cores_A state) <=? CORE_HP)
  && (0 <? c_hp (cores_B state)) && (c_hp (cores_B state) <=? CORE_HP)
  && isInBounds (c_position (cores_A state))
  && isInBounds (c_position (cores_B state))
  && negb (positionsEqual (c_position (cores_A state))
                          (c_position (cores_B state))).

(** A game played from a state: each turn both submissions are validated
    as the callers of the engine do, then resolved. *)
Fixpoint playTurns (state : GameState)
  (turns : list (list Action * list Action)) : option GameState :=
  match turns with
  | [] => Some state
  | (actionsA, actionsB) :: rest =>
      if valid (validatePlayerActions state actionsA Player.A)
         && valid (validatePlayerActions state actionsB Player.B)
      then playTurns (res_state (resolveTurn state actionsA actionsB)) rest
      else None
  end.

Definition allShieldA : list Action :=
  [ShieldAction "A1"; ShieldAction "A2"; ShieldAction "A3"].
Definition allShieldB : list Action :=
  [ShieldAction "B1"; ShieldAction "B2"; ShieldAction "B3"].

Definition atTurn (n : Z) (state : GameState) : GameState :=
  {| turn := n; phase := phase state; quantars := quantars state;
     cores_A := cores_A state; cores_B := cores_B state;
     winner := winner state |}.

(** No closing event among [events]. *)
Definition quiet (events : list TurnEvent) : Prop :=
  Forall (fun e => isClosingEvent e = false) events.

(** The Core in a player's slot of the working copy, and the Quantars
    [checkWinCondition] counts for a player. *)
Definition rsCore (rs : ResolutionState) (p : PlayerId) : MutableCore :=
  match p with Player.A => rs_cores_A rs | Player.B => rs_cores_B rs end.

Definition rsSurvivors (rs : ResolutionState) (p : PlayerId)
  : list MutableQuantar :=
  List.filter (fun q => bool_decide (mq_owner q = p) && (mq_hp q >? 0))
              (rs_quantars rs).

(** What a resolution state shows of its Quantars and Cores once the
    transient fields ([shielded], [pendingDamage]) are left out. *)
Definition quantarView (s : ResolutionState) : list Quantar :=
  toImmutableQuantar <$> rs_quantars s.

Definition coreView (s : ResolutionState) (p : PlayerId) : Core :=
  toImmutableCore (rsCore s p).

(** The claim of C2 on a returned state: no Quantar and no Core with a
    negative hp, and no Quantar with hp <= 0 in [state.quantars]. *)
Definition hpBounds (state : GameState) : Prop :=
  Forall (fun q => 0 <= q_hp q) (quantars state) /\
  0 <= c_hp (cores_A state) /\ 0 <= c_hp (cores_B state) /\
  Forall (fun q => 0 < q_hp q) (quantars state).

(** A game from the initial layout: A1 walks up to the cell diagonally
    next to Core B while A2 fires up the centre column, which B has left. *)
Definition coreRush : list (list Action * list Action) :=
  [ ([MoveAction "A1" North; ShieldAction "A2"; ShieldAction "A3"],
     [MoveAction "B1" West; ShieldAction "B2"; MoveAction "B3" East]);
    ([MoveAction "A1" North; ShieldAction "A2"; ShieldAction "A3"],
     [ShieldAction "B1"; MoveAction "B2" East; ShieldAction "B3"]);
    ([MoveAction "A1" North; PulseAction "A2" PNorth; ShieldAction "A3"],
     allShieldB);
    ([MoveAction "A1" North; PulseAction "A2" PNorth; ShieldAction "A3"],
     allShieldB);
    ([MoveAction "A1" North; PulseAction "A2" PNorth; ShieldAction "A3"],
     allShieldB);
    ([ShieldAction "A1"; PulseAction "A2" PNorth; ShieldAction "A3"],
     allShieldB) ].

(** The state that game reaches: turn 7, Core B down to 1 hp. *)
Definition coreRushState : GameState :=
  {| turn := 7;
     phase := Playing;
     quantars :=
       [mkQuantar "A1" Player.A (mkPosition 3 1) 2;
        mkQuantar "A2" Player.A (mkPosition 4 6) 2;
        mkQuantar "A3" Player.A (mkPosition 5 6) 2;
        mkQuantar "B1" Player.B (mkPosition 2 2) 2;
        mkQuantar "B2" Player.B (mkPosition 5 2) 2;
        mkQuantar "B3" Player.B (mkPosition 6 2) 2];
     cores_A := mkCore Player.A (mkPosition 4 8) 5;
     cores_B := mkCore Player.B (mkPosition 4 0) 1;
     winner := None |}.

Definition coreRushFinish : list Action :=
  [PulseAction "A1" PNorthEast; PulseAction "A2" PNorth; ShieldAction "A3"].


(** One step of a beam, as (columns, rows): north is towards row 0, east
    towards the higher columns. *)
Definition beamStep (direction : PulseDirection) : Z * Z :=
  match direction with
  | PNorth => (0, -1)
  | PEast => (1, 0)
  | PSouth => (0, 1)
  | PWest => (-1, 0)
  | PNorthEast => (1, -1)
  | PNorthWest => (-1, -1)
  | PSouthEast => (1, 1)
  | PSouthWest => (-1, 1)
  end.

(** The [k]-th cell of a beam fired from [origin]. *)
Definition beamCell (origin : Position) (direction : PulseDirection) (k : Z)
  : Position :=
  mkPosition (pos_x origin + k * (beamStep direction).1)
             (pos_y origin + k * (beamStep direction).2).




(** The same, read off [findHitTarget] in terms of the helpers it calls. *)
Definition beamTrace (state : ResolutionState) (origin : Position)
  (direction : PulseDirection) (hit : option Entity) : Prop :=
  if isDiagonalPulse direction then
    hit = if isInBounds (beamCell origin direction 1)
          then getEntityAtPosition state (beamCell origin direction 1)
          else None
  else
    exists k : nat,
      (1 <= k)%nat /\
      (forall j : nat, (1 <= j < k)%nat ->
         isInBounds (beamCell origin direction (Z.of_nat j)) = true /\
         getEntityAtPosition state (beamCell origin direction (Z.of_nat j))
         = None) /\
      ((isInBounds (beamCell origin direction (Z.of_nat k)) = false /\
        hit = None) \/
       (isInBounds (beamCell origin direction (Z.of_nat k)) = true /\
        is_Some hit /\
        getEntityAtPosition state (beamCell origin direction (Z.of_nat k))
        = hit)).


(** Distance, in beam steps, from a cell to the last in-bounds cell in
    front of it. *)
Definition cellsAhead (pos : Position) (direction : PulseDirection) : Z :=
  match direction with
  | PNorth | PNorthEast | PNorthWest => pos_y pos
  | PSouth | PSouthEast | PSouthWest => 8 - pos_y pos
  | PEast => 8 - pos_x pos
  | PWest => pos_x pos
  end.

Definition errorCode (r : ValidationResult) : option ValidationErrorCode :=
  match r with
  | ValidationSuccess => None
  | ValidationError _ code => Some code
  end.

(** The alive Quantars of a player, as [validatePlayerActions] lists them. *)
Definition aliveQuantarsOf (state : GameState) (playerId : PlayerId)
  : list Quantar :=
  List.filter (fun q => q_hp q >? 0) (getPlayerQuantars state playerId).

(** A string of hexadecimal digits only ([0-9a-f]). *)
Fixpoint allHex (s : string) : bool :=
  match s with
  | EmptyString => true
  | String c rest => bool_decide (is_Some (hexValueOfChar c)) && allHex rest
  end.

(** Live Quantars stand on pairwise-distinct cells, none on a Core. *)
Definition distinctCells (state : GameState) : Prop :=
  NoDup (q_position <$> List.filter (fun q => q_hp q >? 0) (quantars state)) /\
  Forall (fun q => q_position q <> c_position (cores_A state) /\
                   q_position q <> c_position (cores_B state))
         (quantars state).

(** A1 steps east into A2's cell while A2 steps north out of it. *)
Definition followActions : list Action :=
  [MoveAction "A1" East; MoveAction "A2" North; ShieldAction "A3"].

(** The initial layout after A1 has stepped north (turn 2). *)
Definition flankOpening : list Action * list Action :=
  ([MoveAction "A1" North; ShieldAction "A2"; ShieldAction "A3"], allShieldB).

Definition flankState : GameState :=
  {| turn := 2;
     phase := Playing;
     quantars :=
       [mkQuantar "A1" Player.A (mkPosition 3 5) 2;
        mkQuantar "A2" Player.A (mkPosition 4 6) 2;
        mkQuantar "A3" Player.A (mkPosition 5 6) 2;
        mkQuantar "B1" Player.B (mkPosition 3 2) 2;
        mkQuantar "B2" Player.B (mkPosition 4 2) 2;
        mkQuantar "B3" Player.B (mkPosition 5 2) 2];
     cores_A := mkCore Player.A (mkPosition 4 8) 5;
     cores_B := mkCore Player.B (mkPosition 4 0) 5;
     winner := None |}.

(** A1 and A2 both head for (4,5); A3 steps west into A2's cell. *)
Definition flankActions : list Action :=
  [MoveAction "A1" East; MoveAction "A2" North; MoveAction "A3" West].

(** The lists [resolveMoves] builds on its way: the intended moves that
    are in bounds, those of them that hit no Core ([validMoves]), and
    those of them that pass the last filter ([finalMoves]). *)
Definition intendedMovesOf (state : ResolutionState) (actions : list Action)
  : list IntendedMove :=
  (foldl (intendMove state) ([], rs_events state) (omap asMove actions)).1.

Definition validMovesOf (state : ResolutionState) (actions : list Action)
  : list IntendedMove :=
  (filterEmit (coreCollision state) (intendedMovesOf state actions) []).1.

Definition finalMovesOf (state : ResolutionState) (actions : list Action)
  : list IntendedMove :=
  let validMoves := validMovesOf state actions in
  (filterEmit (finalReject state (countDestinations validMoves)
                           (indexMoves validMoves))
              validMoves []).1.

(** The occupant the last filter looks at: the first live Quantar, other
    than the mover, standing on the destination. *)
Definition occupantOf (state : ResolutionState) (move : IntendedMove)
  : option MutableQuantar :=
  snd <$> find (fun q => (mq_hp q >? 0)
                         && negb (bool_decide (mq_id q = im_id move))
                         && positionsEqual (mq_position q) (im_to move))
               (rs_quantars state).

(** A move is uncontested when it is the only valid move into its
    destination. *)
Definition uncontested (validMoves : list IntendedMove) (move : IntendedMove)
  : Prop :=
  length (List.filter (fun m => bool_decide (im_to m = im_to move)) validMoves)
  = 1%nat.

(** [occupant] is the one live Quantar, other than the mover, standing
    on the destination of [move]. *)
Definition loneOccupant (state : ResolutionState) (move : IntendedMove)
  (occupant : MutableQuantar) : Prop :=
  occupant ∈ rs_quantars state /\
  0 < mq_hp occupant /\ mq_id occupant <> im_id move /\
  mq_position occupant = im_to move /\
  forall q, q ∈ rs_quantars state ->
            0 < mq_hp q -> mq_id q <> im_id move ->
            mq_position q = im_to move -> q = occupant.

(** The first turn of the test suite's win-condition scenario: A pulses
    north three times, B moves B1 west and B2 and B3 east, B2 onto the
    cell B3 stands on. *)
Definition columnPulses : list Action :=
  [PulseAction "A1" PNorth; PulseAction "A2" PNorth; PulseAction "A3" PNorth].

Definition columnMoves : list Action :=
  [MoveAction "B1" West; MoveAction "B2" East; MoveAction "B3" East].

(** The claim of C3 on one run of phase 1: a valid, uncontested move onto
    the cell of a live occupant is dropped with "blocked by stationary
    Quantar" when the occupant has no intended move, and also when its
    intended move goes to a third cell. *)
Definition stationaryClaim (state : ResolutionState) (actions : list Action)
  : Prop :=
  forall move occupant,
    move ∈ validMovesOf state actions ->
    uncontested (validMovesOf state actions) move ->
    occupantOf state move = Some occupant ->
    (Forall (fun m => im_id m <> mq_id occupant) (validMovesOf state actions) \/
     exists m, m ∈ validMovesOf state actions /\ im_id m = mq_id occupant /\
               im_to m <> im_from move /\ im_to m <> im_to move) ->
    (move ∉ finalMovesOf state actions) /\
    (blockedEvent move "blocked by stationary Quantar"
     ∈ rs_events (resolveMoves state actions)).

Fixpoint hasComma (s : string) : bool :=
  match s with
  | EmptyString => false
  | String c rest => bool_decide (c = ","%char) || hasComma rest
  end.

(** The intended move a Move action gives rise to, if any: the Quantar
    exists, is alive, and the destination is on the board. *)
Definition intendOf (state : ResolutionState) (action : string * Direction)
  : option IntendedMove :=
  match getQuantarById state action.1 with
  | None => None
  | Some (ref, quantar) =>
      if mq_hp quantar <=? 0 then None
      else
        let to := applyDirection (mq_position quantar) action.2 in
        if isInBounds to
        then Some (mkIntendedMove ref (mq_id quantar) (mq_position quantar)
                                  to action.2)
        else None
  end.

(** The initial layout with A1 stepping east onto A2, which shields. *)
Definition bumpActions : list Action :=
  [MoveAction "A1" East; ShieldAction "A2"; ShieldAction "A3"].

(** The Quantar at index [ref] of the post-move state is named, alive, by
    one of the Shield actions [shieldIds]. *)
Definition shieldedBy (moved : ResolutionState) (shieldIds : list string)
  (ref : nat) : Prop :=
  exists id quantar,
    id ∈ shieldIds /\ getQuantarById moved id = Some (ref, quantar) /\
    0 < mq_hp quantar.

(** One Quantar each, next to the opposing Core, on the centre column. *)
Definition duel (coreHp : Z) : GameState :=
  {| turn := 10;
     phase := Playing;
     quantars := [mkQuantar "A1" Player.A (mkPosition 4 1) 1;
                  mkQuantar "B1" Player.B (mkPosition 4 7) 1];
     cores_A := mkCore Player.A (mkPosition 4 8) coreHp;
     cores_B := mkCore Player.B (mkPosition 4 0) coreHp;
     winner := None |}.

(** The phase of [resolveTurn] that pushes an event of a given kind. *)
Definition eventPhase (e : TurnEvent) : nat :=
  match e with
  | EvMove _ _ _ | EvMoveBlocked _ _ _ _ => 1
  | EvShieldActivated _ => 2
  | EvPulseFired _ _ _ | EvPulseHit _ _ _ | EvPulseMiss _ => 3
  | EvDamageApplied _ _ _ => 4
  | EvEntityDestroyed _ _ => 5
  | EvGameOver _ | EvTerminalLoss _ _ | EvDraw _ => 6
  end%nat.

(** [events] is [base] followed by events of phase [k] only. *)
Definition extendsBy (k : nat) (base events : list TurnEvent) : Prop :=
  exists new, events = base ++ new /\ Forall (fun e => eventPhase e = k) new.

(** The event the first loop of [resolveMoves] pushes for a Move action
    whose destination is off the board. *)
Definition outOfBoundsEvent (state : ResolutionState)
  (action : string * Direction) : option TurnEvent :=
  match getQuantarById state action.1 with
  | None => None
  | Some (_, quantar) =>
      if mq_hp quantar <=? 0 then None
      else if isInBounds (applyDirection (mq_position quantar) action.2)
      then None
      else Some (EvMoveBlocked (mq_id quantar) (mq_position quantar) action.2
                               "out of bounds")
  end.

Definition isOutOfBoundsBlock (e : TurnEvent) : bool :=
  match e with
  | EvMoveBlocked _ _ _ reason => bool_decide (reason = "out of bounds")
  | _ => false
  end.

(** What a turn can make of a Quantar of the input state, given the two
    Core cells: same id and owner, hp not higher, and either the same cell
    or one step away on a cell of the board that is not a Core's. *)
Definition turnStep (coreA coreB : Position) (before after : Quantar) : Prop :=
  q_id after = q_id before /\
  q_owner after = q_owner before /\
  q_hp after <= q_hp before /\
  (q_position after = q_position before \/
   exists d, q_position after = applyDirection (q_position before) d /\
             isInBounds (q_position after) = true /\
             q_position after <> coreA /\ q_position after <> coreB).

(** What the canonical form needs of [localeCompare] on the ids it
    sorts: there, "comes before" ([compare a b < 0]) is asymmetric,
    decides every pair of distinct ids, and is transitive. *)
Definition strictOrderOn (compare : string -> string -> Z)
  (keys : list string) : Prop :=
  Forall (fun a =>
    Forall (fun b =>
      (compare a b < 0 -> ~ compare b a < 0) /\
      (a <> b -> compare a b < 0 \/ compare b a < 0) /\
      Forall (fun c => compare a b < 0 -> compare b c < 0 -> compare a c < 0)
             keys) keys) keys.

(** The comparison callback of the two [sort] calls of the canonical
    form, [(a, b) => key(a).localeCompare(key(b))], and the order it
    sorts by. *)
Definition compareBy {X : Type} (key : X -> string)
  (compare : string -> string -> Z) (a b : X) : Z :=
  compare (key a) (key b).

Definition comesBefore {X : Type} (key : X -> string)
  (compare : string -> string -> Z) (a b : X) : Prop :=
  compare (key a) (key b) < 0.

(** [state] with another array of Quantars. *)
Definition withRoster (roster : list Quantar) (state : GameState) : GameState :=
  {| turn := turn state; phase := phase state; quantars := roster;
     cores_A := cores_A state; cores_B := cores_B state;
     winner := winner state |}.

(** An action [resolveTurn] acts on: it names a Quantar of the state
    with hp above 0. *)
Definition namesLiveQuantar (state : GameState) (action : Action) : bool :=
  match getQuantar state (quantarId action) with
  | Some quantar => negb (q_hp quantar <=? 0)
  | None => false
  end.

(** The same test during resolution, on the working copy. *)
Definition liveIn (state : ResolutionState) (id : string) : bool :=
  match getQuantarById state id with
  | Some (_, quantar) => negb (mq_hp quantar <=? 0)
  | None => false
  end.

(** The id and hp of every Quantar of the working copy, in order. *)
Definition vitals (state : ResolutionState) : list (string * Z) :=
  (fun q => (mq_id q, mq_hp q)) <$> rs_quantars state.

(** What [getEntityAtPosition] found, without the reference. *)
Definition entityView (e : Entity) : BoardEntity :=
  match e with
  | EntityIsQuantar _ quantar => QuantarEntity (toImmutableQuantar quantar)
  | EntityIsCore _ core => CoreEntity (toImmutableCore core)
  end.

(** The event an action leaves in the log when it is carried out: Move
    or MoveBlocked for a Move, ShieldActivated for a Shield, PulseFired
    for a Pulse, with the action's Quantar id (and direction). *)
Definition answers (action : Action) (e : TurnEvent) : bool :=
  match action, e with
  | MoveAction id _, EvMove id' _ _ => bool_decide (id' = id)
  | MoveAction id d, EvMoveBlocked id' _ d' _ =>
      bool_decide (id' = id) && bool_decide (d' = d)
  | ShieldAction id, EvShieldActivated id' => bool_decide (id' = id)
  | PulseAction id d, EvPulseFired id' _ d' =>
      bool_decide (id' = id) && bool_decide (d' = d)
  | _, _ => false
  end.

Definition isActionEvent (e : TurnEvent) : bool :=
  match e with
  | EvMove _ _ _ | EvMoveBlocked _ _ _ _ | EvShieldActivated _
  | EvPulseFired _ _ _ => true
  | _ => false
  end.

(** Sum of a quantity over a list. *)
Definition sumOf {X : Type} (f : X -> Z) (l : list X) : Z :=
  foldr (fun v total => f v + total) 0 l.

(** The damage a DamageApplied event reports, and the damage a PulseHit
    event announces. *)
Definition damageOf (e : TurnEvent) : Z :=
  match e with EvDamageApplied _ damage _ => damage | _ => 0 end.

Definition hitOf (e : TurnEvent) : Z :=
  match e with EvPulseHit _ _ damage => damage | _ => 0 end.

(** The damage waiting to be applied in the working copy. *)
Definition totalPending (state : ResolutionState) : Z :=
  sumOf mq_pendingDamage (rs_quantars state)
  + mc_pendingDamage (rs_cores_A state)
  + mc_pendingDamage (rs_cores_B state).

(** What every state of a game satisfies (lemma
    [resolveTurn_boardInvariant]): distinct Quantar ids; every Quantar
    alive with at most the initial hp, on the board and off the Cores'
    cells; each Core owned by the player of its slot, with at most the
    initial hp. *)
Definition boardInvariant (state : GameState) : Prop :=
  NoDup (q_id <$> quantars state) /\
  Forall (fun q => 0 < q_hp q <= QUANTAR_HP /\
                   isInBounds (q_position q) = true /\
                   q_position q <> c_position (cores_A state) /\
                   q_position q <> c_position (cores_B state))
         (quantars state) /\
  c_owner (cores_A state) = Player.A /\
  c_owner (cores_B state) = Player.B /\
  c_hp (cores_A state) <= CORE_HP /\
  c_hp (cores_B state) <= CORE_HP.

(* ====================================================================== *)
(** ** Basic facts about the helpers *)
(* ====================================================================== *)

Lemma foldl_preserves {S X : Type} (P : S -> Prop) (f : S -> X -> S) l :
  (forall s v, P s -> P (f s v)) -> forall s, P s -> P (foldl f s l).
Proof.
  intros Hstep. induction l as [|v l IH]; simpl; intros s Hs; auto.
Qed.

Lemma findFrom_Some {X : Type} (p : X -> bool) l : forall i j v,
  findFrom p i l = Some (j, v) ->
  (i <= j)%nat /\ l !! (j - i)%nat = Some v /\ p v = true /\
  forall k w, (k < j - i)%nat -> l !! k = Some w -> p w = false.
Proof.
  induction l as [|w l IH]; simpl; intros i j v H; [discriminate|].
  destruct (p w) eqn:Hw.
  - injection H as <- <-. rewrite Nat.sub_diag. repeat split; auto.
    intros k w' Hk. lia.
  - apply IH in H as (Hle & Hl & Hp & Hbefore).
    split; [lia|]. replace (j - i)%nat with (S (j - S i)) by lia.
    repeat split; auto.
    intros [|k] w' Hk Hlk; simpl in Hlk.
    + congruence.
    + apply (Hbefore k); [lia | exact Hlk].
Qed.

Lemma find_Some {X : Type} (p : X -> bool) l j v :
  find p l = Some (j, v) ->
  l !! j = Some v /\ p v = true /\
  forall k w, (k < j)%nat -> l !! k = Some w -> p w = false.
Proof.
  intros H. apply findFrom_Some in H. rewrite Nat.sub_0_r in H. tauto.
Qed.

Lemma findFrom_None {X : Type} (p : X -> bool) l : forall i,
  findFrom p i l = None <-> Forall (fun v => p v = false) l.
Proof.
  induction l as [|w l IH]; simpl; intros i.
  - split; auto.
  - destruct (p w) eqn:Hw.
    + split; [discriminate|]. intros H. inversion H; congruence.
    + rewrite IH. split; [intros; constructor; auto|].
      intros H. inversion H; auto.
Qed.

Lemma find_None {X : Type} (p : X -> bool) l :
  find p l = None <-> Forall (fun v => p v = false) l.
Proof. apply findFrom_None. Qed.

Lemma filterEmit_spec {X : Type} (reject : X -> option TurnEvent) l :
  forall events,
  filterEmit reject l events =
  (List.filter (fun v => bool_decide (reject v = None)) l,
   events ++ omap reject l).
Proof.
  induction l as [|v l IH]; simpl; intros events.
  - by rewrite app_nil_r.
  - destruct (reject v) as [e|] eqn:Hv.
    + rewrite IH. rewrite bool_decide_eq_false_2 by discriminate.
      by rewrite <- app_assoc.
    + rewrite IH. by rewrite bool_decide_eq_true_2.
Qed.

(* ---------------------------------------------------------------------- *)
(** *** Phases 1 to 5 push no closing event *)

Lemma quiet_app l1 l2 : quiet l1 -> quiet l2 -> quiet (l1 ++ l2).
Proof. unfold quiet. rewrite Forall_app. auto. Qed.

Lemma quiet_snoc l e : quiet l -> isClosingEvent e = false -> quiet (l ++ [e]).
Proof. intros. apply quiet_app; auto. by constructor. Qed.

Lemma quiet_omap {X : Type} (f : X -> option TurnEvent) l :
  (forall v e, f v = Some e -> isClosingEvent e = false) -> quiet (omap f l).
Proof.
  intros Hf. induction l as [|v l IH]; simpl; [constructor|].
  destruct (f v) eqn:Hv; auto. constructor; eauto.
Qed.

Lemma resolveMoves_quiet state actions :
  quiet (rs_events state) -> quiet (rs_events (resolveMoves state actions)).
Proof.
  intros Hq. unfold resolveMoves.
  destruct (foldl _ _ _) as [intendedMoves events1] eqn:H1.
  assert (quiet events1) as Hq1.
  { change events1 with (snd (intendedMoves, events1)). rewrite <- H1.
    apply (foldl_preserves (fun acc => quiet (snd acc))); [|exact Hq].
    intros [im ev] [id d] Hev. unfold intendMove. simpl in *.
    destruct (getQuantarById _ _) as [[ref q]|]; simpl; auto.
    destruct (mq_hp q <=? 0); simpl; auto.
    destruct (negb _); simpl; auto. by apply quiet_snoc. }
  rewrite !filterEmit_spec.
  apply (foldl_preserves (fun s => quiet (rs_events s))).
  - intros s v Hs. simpl. by apply quiet_snoc.
  - simpl. repeat apply quiet_app; auto.
    + apply quiet_omap. intros v e. unfold coreCollision.
      destruct (_ || _); [|discriminate]. by intros [= <-].
    + apply quiet_omap. intros v e. unfold finalReject.
      repeat (case_match; try discriminate); by intros [= <-].
Qed.

Lemma resolveShields_quiet state actions :
  quiet (rs_events state) -> quiet (rs_events (resolveShields state actions)).
Proof.
  apply (foldl_preserves (fun s => quiet (rs_events s))).
  intros s id Hs. unfold shieldStep.
  repeat case_match; simpl; auto. by apply quiet_snoc.
Qed.

Lemma resolvePulses_quiet state actions :
  quiet (rs_events state) -> quiet (rs_events (resolvePulses state actions)).
Proof.
  apply (foldl_preserves (fun s => quiet (rs_events s))).
  intros s id Hs. unfold pulseStep, applyHit.
  repeat case_match; simpl; auto; repeat apply quiet_snoc; auto.
Qed.

Lemma damageQuantars_quiet qs : forall events,
  quiet events -> quiet (damageQuantars qs events).2.
Proof.
  induction qs as [|q qs IH]; simpl; intros events Hq; auto.
  destruct (mq_pendingDamage q >? 0).
  - specialize (IH (events ++ [EvDamageApplied (mq_id q) (actualDamageOf q)
                                 (mq_hp q - actualDamageOf q)])).
    destruct (damageQuantars qs _); simpl in *. apply IH. by apply quiet_snoc.
  - specialize (IH events). destruct (damageQuantars qs _); simpl in *. auto.
Qed.

Lemma damageCore_quiet core events :
  quiet events -> quiet (damageCore core events).2.
Proof.
  intros Hq. unfold damageCore. case_match; simpl; auto. by apply quiet_snoc.
Qed.

Lemma applyDamage_quiet state :
  quiet (rs_events state) -> quiet (rs_events (applyDamage state)).
Proof.
  intros Hq. unfold applyDamage.
  pose proof (damageQuantars_quiet (rs_quantars state) _ Hq) as H1.
  destruct (damageQuantars _ _) as [qs ev1]; simpl in H1.
  pose proof (damageCore_quiet (rs_cores_A state) _ H1) as H2.
  destruct (damageCore (rs_cores_A state) _) as [cA ev2]; simpl in H2.
  pose proof (damageCore_quiet (rs_cores_B state) _ H2) as H3.
  destruct (damageCore (rs_cores_B state) _) as [cB ev3]; simpl in H3.
  exact H3.
Qed.

Lemma removeDeadEntities_quiet state :
  quiet (rs_events state) -> quiet (rs_events (removeDeadEntities state)).
Proof.
  intros Hq. simpl. repeat apply quiet_app; auto.
  - apply quiet_omap. intros v e. case_match; [|discriminate]. by intros [= <-].
  - unfold destroyedCoreEvents. case_match; repeat constructor.
  - unfold destroyedCoreEvents. case_match; repeat constructor.
Qed.

Lemma runPhases_quiet state actionsA actionsB :
  quiet (rs_events (runPhases state actionsA actionsB)).
Proof.
  unfold runPhases, afterPulses, afterMoves.
  apply removeDeadEntities_quiet, applyDamage_quiet, resolvePulses_quiet,
    resolveShields_quiet, resolveMoves_quiet.
  constructor.
Qed.

Lemma quiet_filter_draw events :
  quiet events -> List.filter isDrawEvent events = [].
Proof.
  induction 1 as [|e l He _ IH]; simpl; auto.
  destruct e; simpl in *; auto; discriminate.
Qed.

Lemma quiet_filter_terminalLoss events :
  quiet events -> List.filter isTerminalLossEvent events = [].
Proof.
  induction 1 as [|e l He _ IH]; simpl; auto.
  destruct e; simpl in *; auto; discriminate.
Qed.

Lemma runPhases_alive state actionsA actionsB :
  Forall (fun q => 0 < mq_hp q) (rs_quantars (runPhases state actionsA actionsB)).
Proof.
  unfold runPhases. simpl. rewrite Forall_forall. intros q Hq.
  apply list_elem_of_In, filter_In in Hq as [_ Hq]. lia.
Qed.

(* ---------------------------------------------------------------------- *)
(** *** The six outcomes of [checkWinCondition] *)

Lemma length_zero_nil {X : Type} (l : list X) :
  Nat.eqb (length l) 0 = true <-> l = [].
Proof. destruct l; simpl; split; intros; auto; discriminate. Qed.

Lemma checkWinCondition_both_cores rs :
  mc_hp (rs_cores_A rs) <= 0 -> mc_hp (rs_cores_B rs) <= 0 ->
  checkWinCondition rs = mkWinConditionResult None None true.
Proof.
  intros HA HB. unfold checkWinCondition.
  apply Z.leb_le in HA, HB. by rewrite HA, HB.
Qed.

Lemma checkWinCondition_one_core rs p :
  mc_hp (rsCore rs p) <= 0 -> 0 < mc_hp (rsCore rs (getOpponent p)) ->
  checkWinCondition rs = mkWinConditionResult (Some (getOpponent p)) None false.
Proof.
  intros Hd Ha. unfold checkWinCondition.
  apply Z.leb_le in Hd. apply Z.leb_gt in Ha.
  destruct p; simpl in *; by rewrite Hd, Ha.
Qed.

Lemma checkWinCondition_cores_stand rs :
  0 < mc_hp (rs_cores_A rs) -> 0 < mc_hp (rs_cores_B rs) ->
  checkWinCondition rs =
  if Nat.eqb (length (rsSurvivors rs Player.A)) 0
     && Nat.eqb (length (rsSurvivors rs Player.B)) 0
  then mkWinConditionResult None None true
  else if Nat.eqb (length (rsSurvivors rs Player.A)) 0
  then mkWinConditionResult (Some Player.B) (Some Player.A) false
  else if Nat.eqb (length (rsSurvivors rs Player.B)) 0
  then mkWinConditionResult (Some Player.A) (Some Player.B) false
  else mkWinConditionResult None None false.
Proof.
  intros HA HB. unfold checkWinCondition.
  apply Z.leb_gt in HA, HB. by rewrite HA, HB.
Qed.

Lemma checkWinCondition_no_quantars rs :
  0 < mc_hp (rs_cores_A rs) -> 0 < mc_hp (rs_cores_B rs) ->
  rsSurvivors rs Player.A = [] -> rsSurvivors rs Player.B = [] ->
  checkWinCondition rs = mkWinConditionResult None None true.
Proof.
  intros HA HB SA SB. rewrite checkWinCondition_cores_stand by assumption.
  by rewrite SA, SB.
Qed.

Lemma checkWinCondition_terminal_loss rs p :
  0 < mc_hp (rs_cores_A rs) -> 0 < mc_hp (rs_cores_B rs) ->
  rsSurvivors rs p = [] -> rsSurvivors rs (getOpponent p) <> [] ->
  checkWinCondition rs =
  mkWinConditionResult (Some (getOpponent p)) (Some p) false.
Proof.
  intros HA HB Sp So. rewrite checkWinCondition_cores_stand by assumption.
  rewrite <- length_zero_nil in So. apply not_true_is_false in So.
  destruct p; simpl in *; rewrite Sp, So; simpl; reflexivity.
Qed.

Lemma checkWinCondition_undecided rs :
  0 < mc_hp (rs_cores_A rs) -> 0 < mc_hp (rs_cores_B rs) ->
  rsSurvivors rs Player.A <> [] -> rsSurvivors rs Player.B <> [] ->
  checkWinCondition rs = mkWinConditionResult None None false.
Proof.
  intros HA HB SA SB. rewrite checkWinCondition_cores_stand by assumption.
  rewrite <- length_zero_nil in SA, SB. apply not_true_is_false in SA, SB.
  by rewrite SA, SB.
Qed.

(** In a resolved state the survivors the engine counts are the Quantars
    of that player listed in [state.quantars]. *)
Lemma survivors_resolveTurn state actionsA actionsB p :
  survivors (res_state (resolveTurn state actionsA actionsB)) p
  = toImmutableQuantar <$> rsSurvivors (runPhases state actionsA actionsB) p.
Proof.
  unfold survivors, getPlayerQuantars, rsSurvivors.
  pose proof (runPhases_alive state actionsA actionsB) as Halive.
  change (quantars (res_state (resolveTurn state actionsA actionsB)))
    with (toImmutableQuantar <$> rs_quantars (runPhases state actionsA actionsB)).
  generalize dependent (rs_quantars (runPhases state actionsA actionsB)).
  intros l Halive.
  induction Halive as [|q l Hq _ IH]; [reflexivity|].
  rewrite fmap_cons. cbn [List.filter toImmutableQuantar q_owner].
  assert ((mq_hp q >? 0) = true) as -> by (apply Z.gtb_lt; exact Hq).
  rewrite andb_true_r.
  destruct (bool_decide (mq_owner q = p)); rewrite IH; reflexivity.
Qed.

Lemma survivors_nil state actionsA actionsB p :
  survivors (res_state (resolveTurn state actionsA actionsB)) p = [] <->
  rsSurvivors (runPhases state actionsA actionsB) p = [].
Proof.
  rewrite survivors_resolveTurn.
  destruct (rsSurvivors _ p); simpl; split; auto; discriminate.
Qed.

Lemma getPlayerCore_resolveTurn state actionsA actionsB p :
  c_hp (getPlayerCore (res_state (resolveTurn state actionsA actionsB)) p)
  = mc_hp (rsCore (runPhases state actionsA actionsB) p).
Proof. by destruct p. Qed.

(** [resolveTurn] in terms of the outcome of [checkWinCondition]. *)
Lemma resolveTurn_outcome state actionsA actionsB wc :
  checkWinCondition (runPhases state actionsA actionsB) = wc ->
  let r := resolveTurn state actionsA actionsB in
  winner (res_state r) = wc_winner wc /\
  log_events (res_log r)
  = rs_events (runPhases state actionsA actionsB)
    ++ closingEvents (turn state) wc /\
  phase (res_state r)
  = if bool_decide (is_Some (wc_winner wc)) || wc_isDraw wc
       || (negb (bool_decide (is_Some (wc_winner wc))) && negb (wc_isDraw wc)
           && (turn state + 1 >=? MAX_TURNS))
    then Ended else Playing.
Proof. intros <-. simpl. auto. Qed.

(* ====================================================================== *)
(** ** Turn counter (C9) *)
(* ====================================================================== *)

(** C9. For every input, [resolveTurn] returns a state whose [turn] is the
    input [turn] plus one, whatever the outcome (a winner, a draw or
    neither), and a log whose [turn] is the input [turn]. *)
Theorem resolveTurn_turn_monotone state actionsA actionsB :
  turn (res_state (resolveTurn state actionsA actionsB)) = turn state + 1 /\
  log_turn (res_log (resolveTurn state actionsA actionsB)) = turn state.
Proof. split; reflexivity. Qed.

(* ====================================================================== *)
(** ** Win and draw detection (C1) *)
(* ====================================================================== *)

(** C1. Win/draw detection after resolution follows a strict precedence.
    With [final] the returned state, [events] the returned log and
    [phases] the events of phases 1 to 5:
    - both Cores at hp <= 0: a draw, [winner = null], and no TerminalLoss
      event in the log;
    - exactly one Core at hp <= 0 (the one in player [p]'s slot): the
      opponent of [p] wins and GameOver(winner) is pushed, whatever the
      number of surviving Quantars of either side;
    - both Cores standing and no surviving Quantar on either side: a draw;
    - both Cores standing and exactly one player [p] without a surviving
      Quantar: the opponent wins, TerminalLoss(p, "no_quantars") is pushed
      and then GameOver(winner);
    - otherwise there is no winner this turn (and no GameOver or
      TerminalLoss event). *)
Theorem win_draw_precedence state actionsA actionsB :
  let r := resolveTurn state actionsA actionsB in
  let final := res_state r in
  let events := log_events (res_log r) in
  let phases := rs_events (runPhases state actionsA actionsB) in
  let coreHp p := c_hp (getPlayerCore final p) in
  (coreHp Player.A <= 0 /\ coreHp Player.B <= 0 ->
     winner final = None /\ phase final = Ended /\
     events = phases ++ [EvDraw "mutual_destruction"] /\
     List.filter isTerminalLossEvent events = [])
  /\ (forall p, coreHp p <= 0 /\ 0 < coreHp (getOpponent p) ->
        winner final = Some (getOpponent p) /\ phase final = Ended /\
        events = phases ++ [EvGameOver (getOpponent p)])
  /\ (0 < coreHp Player.A /\ 0 < coreHp Player.B ->
      survivors final Player.A = [] /\ survivors final Player.B = [] ->
        winner final = None /\ phase final = Ended /\
        events = phases ++ [EvDraw "mutual_destruction"])
  /\ (forall p, 0 < coreHp Player.A /\ 0 < coreHp Player.B ->
      survivors final p = [] /\ survivors final (getOpponent p) <> [] ->
        winner final = Some (getOpponent p) /\ phase final = Ended /\
        events = phases ++ [EvTerminalLoss p "no_quantars";
                            EvGameOver (getOpponent p)])
  /\ (0 < coreHp Player.A /\ 0 < coreHp Player.B ->
      survivors final Player.A <> [] /\ survivors final Player.B <> [] ->
        winner final = None /\
        List.filter (fun e => match e with
                              | EvGameOver _ | EvTerminalLoss _ _ => true
                              | _ => false
                              end) events = []).
Proof.
  intros r final events phases coreHp.
  assert (forall p, coreHp p = mc_hp (rsCore (runPhases state actionsA actionsB) p))
    as HcoreHp by (intros p; apply getPlayerCore_resolveTurn).
  pose proof (runPhases_quiet state actionsA actionsB) as Hquiet.
  fold phases in Hquiet.
  assert (forall wc, checkWinCondition (runPhases state actionsA actionsB) = wc ->
            winner final = wc_winner wc /\
            events = phases ++ closingEvents (turn state) wc /\
            phase final
            = if bool_decide (is_Some (wc_winner wc)) || wc_isDraw wc
                 || (negb (bool_decide (is_Some (wc_winner wc)))
                     && negb (wc_isDraw wc) && (turn state + 1 >=? MAX_TURNS))
              then Ended else Playing) as Hout
    by (intros wc Hwc; exact (resolveTurn_outcome _ _ _ _ Hwc)).
  assert (forall p, survivors final p = [] <->
                    rsSurvivors (runPhases state actionsA actionsB) p = [])
    as Hsurv by (intros p; apply survivors_nil).
  clearbody final events phases coreHp. clear r.
  split; [|split; [|split; [|split]]].
  - intros [HA HB]. rewrite HcoreHp in HA, HB.
    pose proof (checkWinCondition_both_cores _ HA HB) as Hwc.
    destruct (Hout _ Hwc) as (-> & -> & ->). repeat split.
    rewrite List.filter_app, quiet_filter_terminalLoss by exact Hquiet.
    reflexivity.
  - intros p [Hd Ha]. rewrite HcoreHp in Hd, Ha.
    pose proof (checkWinCondition_one_core _ _ Hd Ha) as Hwc.
    destruct (Hout _ Hwc) as (-> & -> & ->). repeat split.
  - intros [HA HB] [SA SB]. rewrite HcoreHp in HA, HB.
    apply Hsurv in SA, SB.
    pose proof (checkWinCondition_no_quantars _ HA HB SA SB) as Hwc.
    destruct (Hout _ Hwc) as (-> & -> & ->). repeat split.
  - intros p [HA HB] [Sp So]. rewrite HcoreHp in HA, HB.
    apply Hsurv in Sp. rewrite Hsurv in So.
    pose proof (checkWinCondition_terminal_loss _ _ HA HB Sp So) as Hwc.
    destruct (Hout _ Hwc) as (-> & -> & ->). repeat split.
  - intros [HA HB] [SA SB]. rewrite HcoreHp in HA, HB.
    rewrite Hsurv in SA, SB.
    pose proof (checkWinCondition_undecided _ HA HB SA SB) as Hwc.
    destruct (Hout _ Hwc) as (-> & -> & _). split; [reflexivity|].
    rewrite List.filter_app.
    assert (forall l, quiet l -> List.filter (fun e => match e with
                              | EvGameOver _ | EvTerminalLoss _ _ => true
                              | _ => false
                              end) l = []) as Hnone.
    { induction 1 as [|e l He _ IH]; simpl; auto.
      destruct e; simpl in *; auto; discriminate. }
    rewrite Hnone by exact Hquiet. unfold closingEvents. simpl.
    by destruct (_ >=? _).
Qed.

(* ====================================================================== *)
(** ** Draw by turn limit (C7) *)
(* ====================================================================== *)

(** C7. If resolution yields no winner and no mutual-destruction draw, the
    game ends in a draw with reason "max_turns" exactly when
    [state.turn + 1 >= MAX_TURNS] (= 50): then the phase is Ended, the
    winner null and the log carries Draw("max_turns"); below the limit
    the phase stays Playing and the log carries no Draw event.  Resolving
    the initial layout from turn 49 with all-shield actions yields turn
    50, Ended, no winner and the Draw("max_turns") event; from turn 48 it
    yields turn 49, Playing and no Draw event. *)
Theorem max_turns_draw :
  MAX_TURNS = 50 /\
  (forall state actionsA actionsB,
     let wc := checkWinCondition (runPhases state actionsA actionsB) in
     let r := resolveTurn state actionsA actionsB in
     wc_winner wc = None -> wc_isDraw wc = false ->
     turn (res_state r) = turn state + 1 /\
     winner (res_state r) = None /\
     (turn state + 1 >= MAX_TURNS ->
        phase (res_state r) = Ended /\
        List.filter isDrawEvent (log_events (res_log r)) = [EvDraw "max_turns"]) /\
     (turn state + 1 < MAX_TURNS ->
        phase (res_state r) = Playing /\
        List.filter isDrawEvent (log_events (res_log r)) = [])) /\
  (let r := resolveTurn (atTurn 49 createInitialState) allShieldA allShieldB in
   turn (res_state r) = 50 /\ phase (res_state r) = Ended /\
   winner (res_state r) = None /\
   List.filter isDrawEvent (log_events (res_log r)) = [EvDraw "max_turns"]) /\
  (let r := resolveTurn (atTurn 48 createInitialState) allShieldA allShieldB in
   turn (res_state r) = 49 /\ phase (res_state r) = Playing /\
   winner (res_state r) = None /\
   List.filter isDrawEvent (log_events (res_log r)) = []).
Proof.
  split; [reflexivity|]. split; [|split; vm_compute; repeat split; reflexivity].
  intros state actionsA actionsB wc r Hw Hd.
  destruct (resolveTurn_outcome state actionsA actionsB wc eq_refl)
    as (Hwin & Hev & Hph).
  fold r in Hwin, Hev, Hph.
  pose proof (runPhases_quiet state actionsA actionsB) as Hquiet.
  rewrite Hwin, Hev, Hph, Hw, Hd, List.filter_app.
  rewrite (quiet_filter_draw _ Hquiet).
  unfold closingEvents. rewrite Hw, Hd. simpl.
  split; [reflexivity|]. split; [reflexivity|].
  destruct (wc_terminalLoss wc); simpl; split.
  - intros Hge. apply Z.geb_ge in Hge. rewrite Hge. split; reflexivity.
  - intros Hlt. destruct (turn state + 1 >=? MAX_TURNS) eqn:E.
    + apply Z.geb_ge in E. lia.
    + split; reflexivity.
  - intros Hge. apply Z.geb_ge in Hge. rewrite Hge. split; reflexivity.
  - intros Hlt. destruct (turn state + 1 >=? MAX_TURNS) eqn:E.
    + apply Z.geb_ge in E. lia.
    + split; reflexivity.
Qed.

Lemma max_turns_draw_witness :
  (wc_winner (checkWinCondition
                (runPhases (atTurn 49 createInitialState) allShieldA allShieldB))
   = None /\
   wc_isDraw (checkWinCondition
                (runPhases (atTurn 49 createInitialState) allShieldA allShieldB))
   = false /\
   turn (atTurn 49 createInitialState) + 1 >= MAX_TURNS) /\
  phase (res_state (resolveTurn (atTurn 49 createInitialState)
                                allShieldA allShieldB)) = Ended.
Proof.
  split.
  - vm_compute. repeat split; congruence.
  - refine (proj1 (proj1 (proj2 (proj2
             (proj1 (proj2 max_turns_draw) (atTurn 49 createInitialState)
                    allShieldA allShieldB _ _))) _)).
    + vm_compute. reflexivity.
    + vm_compute. reflexivity.
    + vm_compute. congruence.
Defined.

(* ====================================================================== *)
(** ** What each phase leaves untouched *)
(* ====================================================================== *)

Lemma view_alter (f : MutableQuantar -> MutableQuantar) (i : nat)
  (l : list MutableQuantar) :
  (forall q, toImmutableQuantar (f q) = toImmutableQuantar q) ->
  toImmutableQuantar <$> alter f i l = toImmutableQuantar <$> l.
Proof.
  intros Hf. revert i. induction l as [|q l IH]; intros [|i]; simpl; auto.
  - by rewrite Hf.
  - f_equal. apply IH.
Qed.

Lemma resolveMoves_cores state actions p :
  rsCore (resolveMoves state actions) p = rsCore state p.
Proof.
  unfold resolveMoves.
  destruct (foldl _ _ _) as [intendedMoves events1].
  destruct (filterEmit _ intendedMoves _) as [validMoves events2].
  destruct (filterEmit _ validMoves _) as [finalMoves events3].
  apply (foldl_preserves (fun s => rsCore s p = rsCore state p)).
  - intros s move Hs. rewrite <- Hs. by destruct p.
  - by destruct p.
Qed.

Lemma shieldStep_view state id :
  quantarView (shieldStep state id) = quantarView state /\
  forall p, rsCore (shieldStep state id) p = rsCore state p.
Proof.
  unfold shieldStep, quantarView.
  destruct (getQuantarById state id) as [[ref q]|]; [|by split].
  destruct (mq_hp q <=? 0); [by split|]. simpl. split.
  - by apply view_alter.
  - by intros [].
Qed.

Lemma resolveShields_view state actions :
  quantarView (resolveShields state actions) = quantarView state /\
  forall p, rsCore (resolveShields state actions) p = rsCore state p.
Proof.
  unfold resolveShields.
  apply (foldl_preserves
           (fun s => quantarView s = quantarView state /\
                     forall p, rsCore s p = rsCore state p)); [|by split].
  intros s id [Hq Hc]. destruct (shieldStep_view s id) as [Hq' Hc'].
  split; [congruence|]. intros p. by rewrite Hc', Hc.
Qed.

Lemma applyHit_view state shooter hit :
  quantarView (applyHit state shooter hit) = quantarView state /\
  forall p, coreView (applyHit state shooter hit) p = coreView state p /\
            mc_pendingDamage (rsCore state p)
            <= mc_pendingDamage (rsCore (applyHit state shooter hit) p).
Proof.
  unfold applyHit, quantarView, coreView.
  destruct hit as [[ref e|slot e]|]; simpl.
  - split; [by apply view_alter|]. intros []; simpl; split; auto; lia.
  - split; [by destruct slot|].
    destruct slot; intros []; simpl; split; auto; unfold PULSE_DAMAGE; lia.
  - split; [done|]. intros []; simpl; split; auto; lia.
Qed.

Lemma pulseStep_view state action :
  quantarView (pulseStep state action) = quantarView state /\
  forall p, coreView (pulseStep state action) p = coreView state p /\
            mc_pendingDamage (rsCore state p)
            <= mc_pendingDamage (rsCore (pulseStep state action) p).
Proof.
  unfold pulseStep.
  destruct (getQuantarById state action.1) as [[ref q]|];
    [|split; [done|intros p; split; [done|lia]]].
  destruct (mq_hp q <=? 0); [split; [done|intros p; split; [done|lia]]|].
  match goal with |- context [applyHit ?s ?q ?h] =>
    destruct (applyHit_view s q h) as [Hq Hc] end.
  split; [exact Hq|]. intros p. destruct (Hc p) as [Hv Hle].
  split; [rewrite Hv; by destruct p|]. by destruct p.
Qed.

Lemma pulseSteps_view state actions :
  quantarView (foldl pulseStep state actions) = quantarView state /\
  forall p, coreView (foldl pulseStep state actions) p = coreView state p /\
            mc_pendingDamage (rsCore state p)
            <= mc_pendingDamage (rsCore (foldl pulseStep state actions) p).
Proof.
  apply (foldl_preserves
           (fun s => quantarView s = quantarView state /\
                     forall p, coreView s p = coreView state p /\
                               mc_pendingDamage (rsCore state p)
                               <= mc_pendingDamage (rsCore s p))).
  - intros s a [Hq Hc]. destruct (pulseStep_view s a) as [Hq' Hc'].
    split; [congruence|]. intros p.
    destruct (Hc p) as [Hv Hle], (Hc' p) as [Hv' Hle'].
    split; [congruence|lia].
  - split; [done|]. intros p. split; [done|lia].
Qed.

(** The hp a Core is returned with: its input hp less the pulse damage it
    collected in phase 3, with no floor. *)
Lemma damageCore_hp core events :
  0 <= mc_pendingDamage core ->
  mc_hp (damageCore core events).1 = mc_hp core - mc_pendingDamage core.
Proof.
  intros Hpd. unfold damageCore.
  destruct (mc_pendingDamage core >? 0) eqn:E; simpl; [reflexivity|].
  assert (mc_pendingDamage core = 0) as ->; [|lia].
  destruct (Z.gtb_spec (mc_pendingDamage core) 0); [discriminate|lia].
Qed.

Lemma applyDamage_core state p :
  rsCore (applyDamage state) p
  = (damageCore (rsCore state p)
       (match p with
        | Player.A => (damageQuantars (rs_quantars state) (rs_events state)).2
        | Player.B =>
            (damageCore (rs_cores_A state)
               (damageQuantars (rs_quantars state) (rs_events state)).2).2
        end)).1.
Proof.
  unfold applyDamage.
  destruct (damageQuantars _ _) as [qs ev1]. simpl.
  destruct (damageCore (rs_cores_A state) ev1) as [cA ev2] eqn:EA. simpl.
  destruct (damageCore (rs_cores_B state) ev2) as [cB ev3] eqn:EB.
  destruct p; simpl; by rewrite ?EA, ?EB.
Qed.

Lemma afterPulses_core state actionsA actionsB p :
  coreView (afterPulses state actionsA actionsB) p = getPlayerCore state p /\
  0 <= mc_pendingDamage (rsCore (afterPulses state actionsA actionsB) p).
Proof.
  unfold afterPulses, afterMoves, resolvePulses.
  match goal with |- context [foldl pulseStep ?s ?l] =>
    destruct (pulseSteps_view s l) as [_ Hc] end.
  destruct (Hc p) as [Hv Hle]. rewrite Hv. unfold coreView in *.
  destruct (resolveShields_view
              (resolveMoves (workingCopy state) (actionsA ++ actionsB))
              (actionsA ++ actionsB)) as [_ Hs].
  rewrite Hs, resolveMoves_cores in *.
  split; [by destruct p, state as [? ? ? [] []]|].
  etrans; [|exact Hle]. by destruct p.
Qed.

(* ====================================================================== *)
(** ** Hit points of a resolved state (C2) *)
(* ====================================================================== *)

(** C2, as amended.  For every state returned by [resolveTurn] (from any
    input state), no Quantar with hp <= 0 appears in [state.quantars], so
    no Quantar is persisted with a negative hp; a Core is persisted with
    its input hp less the pulse damage it collected this turn, without a
    floor at 0. *)
Theorem resolved_hp state actionsA actionsB :
  let final := res_state (resolveTurn state actionsA actionsB) in
  Forall (fun q => 0 < q_hp q) (quantars final) /\
  forall p,
    c_hp (getPlayerCore final p)
    = c_hp (getPlayerCore state p)
      - mc_pendingDamage (rsCore (afterPulses state actionsA actionsB) p).
Proof.
  split.
  - simpl. apply Forall_fmap.
    eapply Forall_impl; [apply runPhases_alive|]. auto.
  - intros p. rewrite getPlayerCore_resolveTurn. unfold runPhases.
    destruct (afterPulses_core state actionsA actionsB p) as [Hv Hpd].
    replace (rsCore (removeDeadEntities
                       (applyDamage (afterPulses state actionsA actionsB))) p)
      with (rsCore (applyDamage (afterPulses state actionsA actionsB)) p)
      by (by destruct p).
    rewrite applyDamage_core, damageCore_hp by exact Hpd.
    rewrite <- Hv. reflexivity.
Qed.

(** C2, as stated, fails: in a game played from the initial layout with
    validated submissions, Core B stands at 1 hp on turn 7; two pulses
    reach it in the same turn and the returned state keeps it at -1. *)
Lemma hp_bounds_counterexample :
  playTurns createInitialState coreRush = Some coreRushState /\
  wellFormed coreRushState = true /\
  valid (validatePlayerActions coreRushState coreRushFinish Player.A) = true /\
  valid (validatePlayerActions coreRushState allShieldB Player.B) = true /\
  c_hp (cores_B (res_state (resolveTurn coreRushState coreRushFinish allShieldB)))
  = -1 /\
  ~ hpBounds (res_state (resolveTurn coreRushState coreRushFinish allShieldB)).
Proof.
  repeat split; try (vm_compute; reflexivity).
  intros (_ & _ & HB & _). vm_compute in HB. by apply HB.
Qed.

(* ====================================================================== *)
(** ** Phase 2: who is shielded *)
(* ====================================================================== *)

Lemma findFrom_index (l l' : list MutableQuantar) id : forall i,
  mq_id <$> l = mq_id <$> l' ->
  fst <$> findFrom (fun q => bool_decide (mq_id q = id)) i l
  = fst <$> findFrom (fun q => bool_decide (mq_id q = id)) i l'.
Proof.
  revert l'. induction l as [|q l IH]; intros [|q' l'] i H; simpl in *;
    try discriminate; [reflexivity|].
  injection H as Hid H. rewrite Hid.
  destruct (bool_decide (mq_id q' = id)); [reflexivity|]. by apply IH.
Qed.

(** Looking a Quantar up by id gives the same reference in two states
    that show the same Quantars, and the objects found agree on what is
    shown. *)
Lemma getQuantarById_view s s' id ref q :
  quantarView s = quantarView s' ->
  getQuantarById s id = Some (ref, q) ->
  exists q', getQuantarById s' id = Some (ref, q') /\
             toImmutableQuantar q' = toImmutableQuantar q.
Proof.
  unfold quantarView, getQuantarById, find. intros Hview Hfind.
  assert (mq_id <$> rs_quantars s = mq_id <$> rs_quantars s') as Hids.
  { apply (f_equal (fmap q_id)) in Hview.
    by rewrite <- !list_fmap_compose in Hview. }
  pose proof (findFrom_index _ _ id 0%nat Hids) as Hindex.
  rewrite Hfind in Hindex. simpl in Hindex.
  destruct (findFrom _ 0 (rs_quantars s')) as [[ref' q']|] eqn:Hfind';
    [|discriminate].
  injection Hindex as <-. exists q'. split; [reflexivity|].
  apply findFrom_Some in Hfind as (_ & Hl & _).
  apply findFrom_Some in Hfind' as (_ & Hl' & _).
  rewrite Nat.sub_0_r in Hl, Hl'.
  apply (f_equal (fun v => v !! ref)) in Hview.
  rewrite !list_lookup_fmap, Hl, Hl' in Hview. simpl in Hview. congruence.
Qed.

Lemma getQuantarById_view_None s s' id :
  quantarView s = quantarView s' ->
  getQuantarById s id = None -> getQuantarById s' id = None.
Proof.
  intros Hview Hnone.
  destruct (getQuantarById s' id) as [[ref q']|] eqn:Hfind; [|reflexivity].
  destruct (getQuantarById_view s' s id ref q' (eq_sym Hview) Hfind)
    as (q & Hq & _). congruence.
Qed.

Lemma resolveMoves_unshielded state actions :
  Forall (fun q => mq_shielded q = false) (rs_quantars state) ->
  Forall (fun q => mq_shielded q = false)
         (rs_quantars (resolveMoves state actions)).
Proof.
  intros Hstate. unfold resolveMoves.
  destruct (foldl _ _ _) as [intendedMoves events1].
  destruct (filterEmit _ intendedMoves _) as [validMoves events2].
  destruct (filterEmit _ validMoves _) as [finalMoves events3].
  apply (foldl_preserves
           (fun s => Forall (fun q => mq_shielded q = false) (rs_quantars s)));
    [|exact Hstate].
  intros s move Hs. simpl. rewrite Forall_lookup in Hs |- *.
  intros i q Hq.
  destruct (decide (i = im_quantar move)) as [->|Hne].
  - rewrite list_lookup_alter_eq in Hq.
    destruct (rs_quantars s !! im_quantar move) as [q0|] eqn:Hq0;
      [|discriminate].
    injection Hq as <-. simpl. by eapply Hs.
  - rewrite list_lookup_alter_ne in Hq by congruence. by eapply Hs.
Qed.

Lemma shieldedBy_snoc_other moved shieldIds id ref :
  (forall quantar, getQuantarById moved id = Some (ref, quantar) ->
                   mq_hp quantar <= 0) ->
  shieldedBy moved (shieldIds ++ [id]) ref <-> shieldedBy moved shieldIds ref.
Proof.
  intros Hother. unfold shieldedBy. split.
  - intros (id' & q & Hin & Hfind & Hhp).
    apply elem_of_app in Hin as [Hin|Hin]; [eauto|].
    apply list_elem_of_singleton in Hin as ->.
    specialize (Hother q Hfind). lia.
  - intros (id' & q & Hin & Hfind & Hhp).
    exists id', q. split; [apply elem_of_app; auto|auto].
Qed.

(** After phase 2 a Quantar is shielded exactly when a Shield action
    names it and it is alive. *)
Lemma resolveShields_shielded moved shieldIds :
  Forall (fun q => mq_shielded q = false) (rs_quantars moved) ->
  let s := foldl shieldStep moved shieldIds in
  quantarView s = quantarView moved /\
  forall (i : nat) q, rs_quantars s !! i = Some q ->
    (mq_shielded q = true <-> shieldedBy moved shieldIds i).
Proof.
  intros Hmoved. induction shieldIds as [|id shieldIds IH] using rev_ind.
  - simpl. split; [reflexivity|]. intros i q Hq.
    rewrite Forall_lookup in Hmoved. rewrite (Hmoved i q Hq).
    split; [discriminate|]. intros (id & q0 & Hin & _). by inversion Hin.
  - rewrite foldl_snoc. destruct IH as [Hview IH].
    set (s := foldl shieldStep moved shieldIds) in *.
    split; [by rewrite (proj1 (shieldStep_view s id))|].
    intros i q Hq. unfold shieldStep in Hq.
    destruct (getQuantarById s id) as [[ref q1]|] eqn:Hfind.
    + destruct (getQuantarById_view s moved id ref q1 Hview Hfind)
        as (q0 & Hfind0 & Hsame).
      assert (mq_hp q0 = mq_hp q1) as Hhp
        by (by apply (f_equal q_hp) in Hsame).
      destruct (Z.leb_spec (mq_hp q1) 0) as [Hdead|Halive].
      * rewrite (IH i q Hq). symmetry. apply shieldedBy_snoc_other.
        intros q0' Hq0'. rewrite Hfind0 in Hq0'. injection Hq0' as _ <-. lia.
      * simpl in Hq. destruct (decide (i = ref)) as [->|Hne].
        -- rewrite list_lookup_alter_eq in Hq.
           destruct (rs_quantars s !! ref) as [q2|]; [|discriminate].
           injection Hq as <-. simpl. split; [intros _|reflexivity].
           exists id, q0. split; [apply elem_of_app; right; constructor|].
           split; [exact Hfind0|lia].
        -- rewrite list_lookup_alter_ne in Hq by congruence.
           rewrite (IH i q Hq). symmetry. apply shieldedBy_snoc_other.
           intros q0' Hq0'. rewrite Hfind0 in Hq0'. congruence.
    + rewrite (IH i q Hq). symmetry. apply shieldedBy_snoc_other.
      intros q0' Hq0'.
      rewrite (getQuantarById_view_None s moved id Hview Hfind) in Hq0'.
      discriminate.
Qed.

Lemma pulseSteps_shielded actions : forall state,
  mq_shielded <$> rs_quantars (foldl pulseStep state actions)
  = mq_shielded <$> rs_quantars state.
Proof.
  induction actions as [|a actions IH]; intros state; simpl; [reflexivity|].
  rewrite IH. unfold pulseStep.
  destruct (getQuantarById state a.1) as [[ref q]|]; [|reflexivity].
  destruct (mq_hp q <=? 0); [reflexivity|].
  unfold applyHit. destruct (findHitTarget _ _ _) as [[i e|slot e]|]; simpl;
    try reflexivity; [|by destruct slot].
  generalize (rs_quantars state). intros l. revert i.
  induction l as [|v l IHl]; intros [|i]; simpl; auto. f_equal. apply IHl.
Qed.

(** In the state phase 4 starts from, a Quantar is shielded exactly when
    one of the turn's Shield actions names it and it is alive after
    phase 1. *)
Lemma afterPulses_shielded state actionsA actionsB (i : nat) q :
  rs_quantars (afterPulses state actionsA actionsB) !! i = Some q ->
  (mq_shielded q = true <->
   shieldedBy (afterMoves state actionsA actionsB)
              (omap asShield (actionsA ++ actionsB)) i).
Proof.
  intros Hq. unfold afterPulses, resolvePulses in Hq.
  set (moved := afterMoves state actionsA actionsB) in *.
  assert (Forall (fun q => mq_shielded q = false) (rs_quantars moved)) as Hun.
  { apply resolveMoves_unshielded. simpl. apply Forall_fmap.
    by apply Forall_true. }
  destruct (resolveShields_shielded moved
              (omap asShield (actionsA ++ actionsB)) Hun) as [_ Hsh].
  pose proof (pulseSteps_shielded (omap asPulse (actionsA ++ actionsB))
                (resolveShields moved (actionsA ++ actionsB))) as Hflags.
  apply (f_equal (fun l => l !! i)) in Hflags.
  rewrite !list_lookup_fmap, Hq in Hflags. simpl in Hflags.
  destruct (rs_quantars (resolveShields moved (actionsA ++ actionsB)) !! i)
    as [q1|] eqn:Hq1; [|discriminate].
  injection Hflags as Hflag. rewrite Hflag. by apply Hsh.
Qed.

(* ====================================================================== *)
(** ** Phase 4: damage (C6) *)
(* ====================================================================== *)

Lemma damageQuantars_spec qs : forall events,
  damageQuantars qs events =
  ((fun q => if mq_pendingDamage q >? 0 then damagedQuantar q else q) <$> qs,
   events ++ omap (fun q => if mq_pendingDamage q >? 0
                            then Some (EvDamageApplied (mq_id q)
                                         (actualDamageOf q)
                                         (mq_hp q - actualDamageOf q))
                            else None) qs).
Proof.
  induction qs as [|q qs IH]; simpl; intros events.
  - by rewrite app_nil_r.
  - destruct (mq_pendingDamage q >? 0); rewrite IH; simpl.
    + by rewrite <- app_assoc.
    + reflexivity.
Qed.

Lemma applyDamage_quantars state :
  rs_quantars (applyDamage state)
  = (fun q => if mq_pendingDamage q >? 0 then damagedQuantar q else q)
      <$> rs_quantars state.
Proof.
  unfold applyDamage. rewrite damageQuantars_spec.
  destruct (damageCore (rs_cores_A state) _) as [cA ev2].
  destruct (damageCore (rs_cores_B state) _) as [cB ev3]. reflexivity.
Qed.

Lemma applyDamage_events state :
  exists coreEvents,
    rs_events (applyDamage state)
    = rs_events state
      ++ omap (fun q => if mq_pendingDamage q >? 0
                        then Some (EvDamageApplied (mq_id q)
                                     (actualDamageOf q)
                                     (mq_hp q - actualDamageOf q))
                        else None) (rs_quantars state)
      ++ coreEvents.
Proof.
  unfold applyDamage. rewrite damageQuantars_spec.
  set (ev1 := rs_events state ++ _).
  unfold damageCore.
  destruct (mc_pendingDamage (rs_cores_A state) >? 0),
           (mc_pendingDamage (rs_cores_B state) >? 0); simpl;
    unfold ev1; rewrite <- ?app_assoc;
    first [ by eexists | exists []; by rewrite !app_nil_r ].
Qed.

(** C6. In phase 4 every Quantar with pending damage > 0 has its hp
    reduced by exactly [max(0, pendingDamage - SHIELD_REDUCTION)] if it
    shielded this turn and by [pendingDamage] otherwise, a DamageApplied
    event (target, damage, remaining hp) is pushed for it and its pending
    damage is reset to 0; a Quantar without pending damage is left as it
    is.  A Quantar counts as shielded when one of the turn's Shield
    actions names it and it is alive after phase 1.  In particular a Quantar at 2 hp that shields and is hit by
    exactly one pulse (1 damage) ends the turn still at 2 hp; so does B2
    of the initial layout when it shields and A2 fires north at it. *)
Theorem damage_phase :
  (forall state (i : nat) q,
     rs_quantars state !! i = Some q ->
     0 < mq_pendingDamage q ->
     let dealt := if mq_shielded q
                  then Z.max 0 (mq_pendingDamage q - SHIELD_REDUCTION)
                  else mq_pendingDamage q in
     exists q',
       rs_quantars (applyDamage state) !! i = Some q' /\
       mq_hp q' = mq_hp q - dealt /\
       mq_pendingDamage q' = 0 /\
       (mq_id q', mq_owner q', mq_position q', mq_shielded q')
       = (mq_id q, mq_owner q, mq_position q, mq_shielded q) /\
       EvDamageApplied (mq_id q) dealt (mq_hp q')
       ∈ rs_events (applyDamage state))
  /\ (forall state (i : nat) q,
        rs_quantars state !! i = Some q ->
        mq_pendingDamage q <= 0 ->
        rs_quantars (applyDamage state) !! i = Some q)
  /\ (forall state actionsA actionsB (i : nat) q,
        rs_quantars (afterPulses state actionsA actionsB) !! i = Some q ->
        (mq_shielded q = true <->
         shieldedBy (afterMoves state actionsA actionsB)
                    (omap asShield (actionsA ++ actionsB)) i))
  /\ SHIELD_REDUCTION = 1 /\ PULSE_DAMAGE = 1
  /\ (forall state actionsA actionsB (i : nat) q,
        rs_quantars (afterPulses state actionsA actionsB) !! i = Some q ->
        mq_hp q = 2 -> mq_shielded q = true ->
        mq_pendingDamage q = PULSE_DAMAGE ->
        mkQuantar (mq_id q) (mq_owner q) (mq_position q) 2
        ∈ quantars (res_state (resolveTurn state actionsA actionsB)))
  /\ (let r := resolveTurn createInitialState
                 [ShieldAction "A1"; PulseAction "A2" PNorth; ShieldAction "A3"]
                 allShieldB in
      getQuantar (res_state r) "B2"
      = Some (mkQuantar "B2" Player.B (mkPosition 4 2) 2) /\
      List.filter (fun e => match e with
                            | EvPulseHit _ _ _ | EvDamageApplied _ _ _ => true
                            | _ => false
                            end) (log_events (res_log r))
      = [EvPulseHit "B2" EntityQuantar 1; EvDamageApplied "B2" 0 2]).
Proof.
  split; [|split; [|split; [apply afterPulses_shielded
                           |split; [reflexivity|split; [reflexivity|split]]]]].
  - intros state i q Hq Hpd dealt.
    assert ((mq_pendingDamage q >? 0) = true) as Hgt by (by apply Z.gtb_lt).
    exists (damagedQuantar q). split.
    { rewrite applyDamage_quantars, list_lookup_fmap, Hq. simpl.
      by rewrite Hgt. }
    repeat split.
    destruct (applyDamage_events state) as [coreEvents ->].
    apply elem_of_app. right. apply elem_of_app. left.
    apply list_elem_of_omap. exists q. split.
    + apply list_elem_of_lookup. eauto.
    + by rewrite Hgt.
  - intros state i q Hq Hpd.
    rewrite applyDamage_quantars, list_lookup_fmap, Hq. simpl.
    destruct (Z.gtb_spec (mq_pendingDamage q) 0); [lia|reflexivity].
  - intros state actionsA actionsB i q Hq Hhp Hsh Hpd.
    simpl. unfold runPhases. simpl.
    apply list_elem_of_fmap. exists (damagedQuantar q). split.
    + unfold damagedQuantar, actualDamageOf, toImmutableQuantar. simpl.
      rewrite Hsh, Hpd, Hhp. reflexivity.
    + apply list_elem_of_In, filter_In. split.
      * apply list_elem_of_In. rewrite applyDamage_quantars.
        apply list_elem_of_fmap. exists q. split.
        -- rewrite Hpd. reflexivity.
        -- apply list_elem_of_lookup. eauto.
      * unfold damagedQuantar, actualDamageOf. simpl.
        rewrite Hsh, Hpd, Hhp. reflexivity.
  - vm_compute. split; reflexivity.
Qed.

Lemma damage_phase_witness :
  (rs_quantars (afterPulses createInitialState
                  [ShieldAction "A1"; PulseAction "A2" PNorth; ShieldAction "A3"]
                  allShieldB) !! 4%nat
   = Some (mkMutableQuantar "B2" Player.B (mkPosition 4 2) 2 true 1)) /\
  mkQuantar "B2" Player.B (mkPosition 4 2) 2
  ∈ quantars (res_state
                (resolveTurn createInitialState
                   [ShieldAction "A1"; PulseAction "A2" PNorth; ShieldAction "A3"]
                   allShieldB)).
Proof.
  split.
  - vm_compute. reflexivity.
  - apply (proj1 (proj2 (proj2 (proj2 (proj2 (proj2 damage_phase)))))
             createInitialState
             [ShieldAction "A1"; PulseAction "A2" PNorth; ShieldAction "A3"]
             allShieldB 4%nat
             (mkMutableQuantar "B2" Player.B (mkPosition 4 2) 2 true 1)).
    + vm_compute. reflexivity.
    + reflexivity.
    + reflexivity.
    + reflexivity.
Defined.

(* ====================================================================== *)
(** ** Phase 3: pulses (C5) *)
(* ====================================================================== *)

Lemma positionsEqual_eq a b : positionsEqual a b = true <-> a = b.
Proof.
  unfold positionsEqual. rewrite andb_true_iff, !Z.eqb_eq.
  destruct a, b; simpl. split; [intros [-> ->]; reflexivity|].
  intros [= -> ->]. auto.
Qed.

Lemma positionsEqual_neq a b : positionsEqual a b = false <-> a <> b.
Proof.
  rewrite <- positionsEqual_eq. destruct (positionsEqual a b); split;
    intros; congruence.
Qed.

Lemma beamCell_step origin direction (k : Z) :
  beamCell (applyPulseDirection origin direction) direction k
  = beamCell origin direction (k + 1).
Proof.
  unfold beamCell, applyPulseDirection. destruct direction; simpl; f_equal; lia.
Qed.

Lemma beamCell_one origin direction :
  beamCell origin direction 1 = applyPulseDirection origin direction.
Proof.
  unfold beamCell, applyPulseDirection. destruct direction; simpl; f_equal; lia.
Qed.


(** The loop stops after a step that leaves the board or meets an
    occupant, having gone through empty in-bounds cells only. *)
Lemma traceBeamFuel_spec state direction fuel : forall origin hit,
  traceBeamFuel fuel state origin direction = Some hit ->
  exists k : nat,
    (1 <= k)%nat /\
    (forall j : nat, (1 <= j < k)%nat ->
       isInBounds (beamCell origin direction (Z.of_nat j)) = true /\
       getEntityAtPosition state (beamCell origin direction (Z.of_nat j))
       = None) /\
    ((isInBounds (beamCell origin direction (Z.of_nat k)) = false /\
      hit = None) \/
     (isInBounds (beamCell origin direction (Z.of_nat k)) = true /\
      is_Some hit /\
      getEntityAtPosition state (beamCell origin direction (Z.of_nat k))
      = hit)).
Proof.
  induction fuel as [|fuel IH]; intros origin hit H; simpl in H; [discriminate|].
  rewrite <- beamCell_one in H.
  destruct (isInBounds (beamCell origin direction 1)) eqn:Hin; simpl in H.
  - destruct (getEntityAtPosition state (beamCell origin direction 1))
      as [e|] eqn:He.
    + injection H as <-. exists 1%nat. split; [lia|]. split; [intros; lia|].
      right. change (Z.of_nat 1) with 1. rewrite Hin, He. eauto.
    + rewrite beamCell_one in H. apply IH in H as (k & Hk & Hbefore & Hat).
      exists (S k). split; [lia|]. split.
      * intros j Hj. destruct (decide (j = 1%nat)) as [->|Hne].
        { change (Z.of_nat 1) with 1. by rewrite Hin, He. }
        specialize (Hbefore (j - 1)%nat ltac:(lia)).
        rewrite beamCell_step in Hbefore.
        by replace (Z.of_nat (j - 1) + 1) with (Z.of_nat j) in Hbefore by lia.
      * rewrite beamCell_step in Hat.
        by replace (Z.of_nat k + 1) with (Z.of_nat (S k)) in Hat by lia.
  - injection H as <-. exists 1%nat. split; [lia|]. split; [intros; lia|].
    left. change (Z.of_nat 1) with 1. by rewrite Hin.
Qed.

Lemma cellsAhead_step pos direction :
  cellsAhead (applyPulseDirection pos direction) direction
  = cellsAhead pos direction - 1.
Proof. destruct direction; simpl; lia. Qed.

Lemma cellsAhead_inBounds pos direction :
  isInBounds pos = true -> 0 <= cellsAhead pos direction <= 8.
Proof.
  unfold isInBounds. rewrite !andb_true_iff.
  intros [[[H1 H2] H3] H4].
  apply Z.geb_le in H1, H3. apply Z.ltb_lt in H2, H4.
  destruct direction; simpl; lia.
Qed.

(** The loop of an orthogonal pulse always ends: each round moves one
    cell towards an edge of the 9 x 9 board. *)
Lemma traceBeamFuel_terminates state direction fuel : forall pos,
  (0 < fuel)%nat ->
  (cellsAhead pos direction <= 9 -> cellsAhead pos direction < Z.of_nat fuel) ->
  is_Some (traceBeamFuel fuel state pos direction).
Proof.
  induction fuel as [|fuel IH]; intros pos Hpos Hfuel; [lia|]. simpl.
  destruct (isInBounds (applyPulseDirection pos direction)) eqn:Hin; simpl;
    [|eauto].
  destruct (getEntityAtPosition state _); [eauto|].
  pose proof (cellsAhead_inBounds _ direction Hin) as Hahead.
  rewrite cellsAhead_step in Hahead.
  apply IH; rewrite ?cellsAhead_step; lia.
Qed.

Lemma traceBeamFuel_total state pos direction :
  is_Some (traceBeamFuel 10 state pos direction).
Proof. apply traceBeamFuel_terminates; lia. Qed.

Lemma traceBeamFuel_more state direction fuel : forall pos hit (extra : nat),
  traceBeamFuel fuel state pos direction = Some hit ->
  traceBeamFuel (fuel + extra) state pos direction = Some hit.
Proof.
  induction fuel as [|fuel IH]; intros pos hit extra H; simpl in *;
    [discriminate|].
  destruct (negb _); [exact H|].
  destruct (getEntityAtPosition state _); [exact H|]. by apply IH.
Qed.

Lemma findHitTarget_spec state origin direction :
  beamTrace state origin direction (findHitTarget state origin direction).
Proof.
  unfold beamTrace, findHitTarget.
  destruct (isDiagonalPulse direction).
  - by rewrite beamCell_one.
  - unfold traceBeam.
    destruct (traceBeamFuel_total state origin direction) as [hit Hhit].
    rewrite Hhit. simpl. by eapply traceBeamFuel_spec.
Qed.


Lemma getEntityAtPosition_ref state pos :
  match getEntityAtPosition state pos with
  | Some (EntityIsQuantar ref target) => rs_quantars state !! ref = Some target
  | Some (EntityIsCore slot target) => rsCore state slot = target
  | None => True
  end.
Proof.
  unfold getEntityAtPosition.
  destruct (find _ _) as [[i q]|] eqn:Hfind.
  - by apply find_Some in Hfind as (Hl & _).
  - repeat case_match; simplify_eq; done.
Qed.

Lemma beamTrace_ref state origin direction hit :
  beamTrace state origin direction hit ->
  match hit with
  | Some (EntityIsQuantar ref target) => rs_quantars state !! ref = Some target
  | Some (EntityIsCore slot target) => rsCore state slot = target
  | None => True
  end.
Proof.
  unfold beamTrace. destruct (isDiagonalPulse direction).
  - intros ->. destruct (isInBounds _); [|done].
    apply getEntityAtPosition_ref.
  - intros (k & _ & _ & [[_ ->]|(_ & _ & <-)]); [done|].
    apply getEntityAtPosition_ref.
Qed.












(* ====================================================================== *)
(** ** Validation of a submission (C8) *)
(* ====================================================================== *)


Lemma validateEach_passes state playerId actions : forall seen,
  Forall (fun a => validateAction state a playerId = ValidationSuccess) actions ->
  NoDup (quantarId <$> actions) ->
  (forall a, a ∈ actions -> quantarId a ∉ seen) ->
  validateEach state playerId seen actions
  = (None, seen ∪ list_to_set (quantarId <$> actions)).
Proof.
  induction actions as [|a actions IH]; intros seen Hvalid Hnodup Hfresh; simpl.
  - f_equal. set_solver.
  - inversion Hvalid as [|? ? Ha Hrest]; subst.
    rewrite fmap_cons in Hnodup. apply NoDup_cons in Hnodup as [Hnotin Hnodup].
    rewrite bool_decide_eq_false_2 by (apply Hfresh; set_solver).
    rewrite Ha, IH; auto.
    + f_equal. set_solver.
    + intros b Hb. specialize (Hfresh b ltac:(set_solver)).
      assert (quantarId b <> quantarId a).
      { intros Heq. apply Hnotin. rewrite <- Heq.
        by apply list_elem_of_fmap_2. }
      set_solver.
Qed.

Lemma validateEach_passed state playerId actions : forall seen seen',
  validateEach state playerId seen actions = (None, seen') ->
  Forall (fun a => validateAction state a playerId = ValidationSuccess) actions /\
  NoDup (quantarId <$> actions) /\
  (forall a, a ∈ actions -> quantarId a ∉ seen).
Proof.
  induction actions as [|a actions IH]; intros seen seen' H; simpl in H.
  - repeat split; [constructor | constructor | set_solver].
  - destruct (bool_decide (quantarId a ∈ seen)) eqn:Hdup; [discriminate|].
    apply bool_decide_eq_false in Hdup.
    destruct (validateAction state a playerId) eqn:Ha; [|discriminate].
    apply IH in H as (Hvalid & Hnodup & Hfresh).
    split; [by constructor|]. split.
    + rewrite fmap_cons. apply NoDup_cons. split; [|exact Hnodup].
      intros Hin. apply list_elem_of_fmap in Hin as (b & Heq & Hb).
      apply (Hfresh b Hb). rewrite <- Heq. set_solver.
    + intros b Hb. apply elem_of_cons in Hb as [->|Hb]; [exact Hdup|].
      specialize (Hfresh b Hb). set_solver.
Qed.

Lemma validateEach_error state playerId actions : forall seen seen' err,
  validateEach state playerId seen actions = (Some err, seen') ->
  err <> ValidationSuccess.
Proof.
  induction actions as [|a actions IH]; intros seen seen' err H; simpl in H;
    [discriminate|].
  destruct (bool_decide (quantarId a ∈ seen)); [by injection H as <- _|].
  destruct (validateAction state a playerId) eqn:Ha; [by eapply IH|].
  by injection H as <- _.
Qed.

Lemma checkMissing_spec seen alive :
  (checkMissing seen alive = ValidationSuccess <->
   Forall (fun q => q_id q ∈ seen) alive) /\
  (checkMissing seen alive <> ValidationSuccess ->
   errorCode (checkMissing seen alive) = Some MISSING_QUANTAR_ACTION).
Proof.
  induction alive as [|q alive [IH1 IH2]]; simpl.
  - split; [split; [constructor|reflexivity]|congruence].
  - destruct (bool_decide (q_id q ∈ seen)) eqn:Hq; simpl.
    + apply bool_decide_eq_true in Hq. split; [|exact IH2].
      rewrite IH1. split; [by constructor|]. by inversion 1.
    + apply bool_decide_eq_false in Hq. split; [|reflexivity].
      split; [discriminate|]. by inversion 1.
Qed.

Lemma validatePlayerActions_playing state actions playerId :
  phase state = Playing ->
  validatePlayerActions state actions playerId
  = match validateEach state playerId ∅ actions with
    | (Some err, _) => err
    | (None, actionQuantarIds) =>
        checkMissing actionQuantarIds (aliveQuantarsOf state playerId)
    end.
Proof.
  intros Hphase. unfold validatePlayerActions.
  by rewrite bool_decide_eq_true_2.
Qed.


(* ====================================================================== *)
(** ** The state hash (C10) *)
(* ====================================================================== *)

Lemma length_append (a b : string) :
  String.length (a +:+ b) = (String.length a + String.length b)%nat.
Proof. induction a as [|c a IH]; simpl; [reflexivity|]. by rewrite IH. Qed.

Lemma allHex_append (a b : string) :
  allHex (a +:+ b) = allHex a && allHex b.
Proof.
  induction a as [|c a IH]; simpl; [reflexivity|].
  by rewrite IH, andb_assoc.
Qed.

Lemma parseHexFrom_append (a b : string) : forall acc,
  parseHexFrom acc (a +:+ b)
  = match parseHexFrom acc a with
    | Some acc' => parseHexFrom acc' b
    | None => None
    end.
Proof.
  induction a as [|c a IH]; intros acc; simpl; [reflexivity|].
  destruct (hexValueOfChar c); [apply IH|reflexivity].
Qed.

Lemma hexDigit_value d :
  0 <= d < 16 -> hexValueOfChar (hexDigit d) = Some d.
Proof.
  intros Hd.
  assert (d = 0 \/ d = 1 \/ d = 2 \/ d = 3 \/ d = 4 \/ d = 5 \/ d = 6 \/
          d = 7 \/ d = 8 \/ d = 9 \/ d = 10 \/ d = 11 \/ d = 12 \/ d = 13 \/
          d = 14 \/ d = 15) as Hcases by lia.
  repeat (destruct Hcases as [->|Hcases]; [reflexivity|]).
  by subst d.
Qed.

Lemma hexDigits_length fuel : forall n (k : nat),
  (1 <= k)%nat -> 0 <= n < 16 ^ Z.of_nat k ->
  (String.length (hexDigits fuel n) <= k)%nat.
Proof.
  induction fuel as [|fuel IH]; intros n k Hk Hn; simpl; [lia|].
  destruct (Z.ltb_spec n 16) as [Hlt|Hge]; simpl; [lia|].
  rewrite length_append. simpl.
  destruct k as [|[|k]]; [lia| simpl in Hn; lia |].
  specialize (IH (n / 16) (S k) ltac:(lia)).
  assert (0 <= n / 16 < 16 ^ Z.of_nat (S k)) as Hdiv.
  { split; [apply Z.div_pos; lia|].
    apply Z.div_lt_upper_bound; [lia|].
    replace (16 * 16 ^ Z.of_nat (S k)) with (16 ^ Z.of_nat (S (S k))); [lia|].
    rewrite (Nat2Z.inj_succ (S k)), Z.pow_succ_r by lia. reflexivity. }
  specialize (IH Hdiv). lia.
Qed.

Lemma hexDigits_allHex fuel : forall n,
  0 <= n -> allHex (hexDigits fuel n) = true.
Proof.
  induction fuel as [|fuel IH]; intros n Hn; simpl; [reflexivity|].
  destruct (Z.ltb_spec n 16) as [Hlt|Hge]; simpl.
  - rewrite hexDigit_value by lia. reflexivity.
  - rewrite allHex_append, IH by (apply Z.div_pos; lia). simpl.
    rewrite hexDigit_value by (apply Z.mod_pos_bound; lia). reflexivity.
Qed.

(** With enough fuel the digits read back as the number. *)
Lemma hexDigits_parse fuel : forall n acc,
  0 <= n < 16 ^ Z.of_nat fuel -> (1 <= fuel)%nat ->
  parseHexFrom acc (hexDigits fuel n)
  = Some (acc * 16 ^ Z.of_nat (String.length (hexDigits fuel n)) + n).
Proof.
  induction fuel as [|fuel IH]; intros n acc Hn Hfuel; [lia|]. simpl.
  destruct (Z.ltb_spec n 16) as [Hlt|Hge]; simpl.
  - rewrite hexDigit_value by lia. f_equal. lia.
  - assert (0 <= n / 16 < 16 ^ Z.of_nat fuel) as Hdiv.
    { split; [apply Z.div_pos; lia|].
      apply Z.div_lt_upper_bound; [lia|].
      rewrite Nat2Z.inj_succ, Z.pow_succ_r in Hn by lia. lia. }
    assert (1 <= fuel)%nat as Hfuel'.
    { destruct fuel; [|lia]. simpl in Hdiv.
      assert (1 <= n / 16) by (apply Z.div_le_lower_bound; lia). lia. }
    rewrite parseHexFrom_append, IH by assumption. simpl.
    rewrite hexDigit_value by (apply Z.mod_pos_bound; lia).
    rewrite length_append. simpl. f_equal.
    rewrite Nat2Z.inj_add, Z.pow_add_r by lia.
    change (16 ^ Z.of_nat 1) with 16.
    pose proof (Z.div_mod n 16 ltac:(lia)). lia.
Qed.

Lemma toString16_fuel n :
  0 <= n -> n < 16 ^ Z.of_nat (S (Z.to_nat (Z.log2 n))).
Proof.
  intros Hn. destruct (decide (n = 0)) as [->|Hne]; [reflexivity|].
  pose proof (Z.log2_spec n ltac:(lia)) as [_ Hlt].
  pose proof (Z.log2_nonneg n) as Hlog.
  rewrite Nat2Z.inj_succ, Z2Nat.id by lia.
  eapply Z.lt_le_trans; [exact Hlt|].
  apply Z.pow_le_mono_l. lia.
Qed.

Lemma parseHexFrom_zeros (k : nat) (s : string) :
  parseHexFrom 0 (repeatChar k "0" +:+ s) = parseHexFrom 0 s.
Proof. induction k as [|k IH]; simpl; [reflexivity|exact IH]. Qed.

Lemma repeatChar_length (k : nat) c : String.length (repeatChar k c) = k.
Proof. induction k as [|k IH]; simpl; [reflexivity|]. by rewrite IH. Qed.

Lemma allHex_zeros (k : nat) : allHex (repeatChar k "0") = true.
Proof. induction k as [|k IH]; simpl; [reflexivity|exact IH]. Qed.

Lemma djb2Hash_range str : 0 <= djb2Hash str < 2 ^ 32.
Proof.
  unfold djb2Hash, unsignedShiftRight, toUint32.
  change (0 mod 2 ^ 32 mod 32) with 0. rewrite Z.shiftr_0_r.
  apply Z.mod_pos_bound. lia.
Qed.

Lemma hashToHex_spec str :
  String.length (hashToHex str) = 8%nat /\
  allHex (hashToHex str) = true /\
  parseHex (hashToHex str) = Some (djb2Hash str).
Proof.
  pose proof (djb2Hash_range str) as Hrange.
  unfold hashToHex, padStart, toString16.
  set (n := djb2Hash str) in *.
  set (fuel := S (Z.to_nat (Z.log2 n))).
  assert (String.length (hexDigits fuel n) <= 8)%nat as Hlen.
  { apply hexDigits_length; [lia|]. change (16 ^ Z.of_nat 8) with (2 ^ 32). lia. }
  split; [|split].
  - rewrite length_append, repeatChar_length. lia.
  - rewrite allHex_append, allHex_zeros, hexDigits_allHex by lia. reflexivity.
  - unfold parseHex. rewrite parseHexFrom_zeros.
    assert (0 <= n < 16 ^ Z.of_nat fuel) as Hfuel
      by (split; [lia|apply toString16_fuel; lia]).
    rewrite hexDigits_parse by (first [exact Hfuel | unfold fuel; lia]).
    reflexivity.
Qed.

(** C10. For every GameState, [hashState(state)] is a string of exactly 8
    hexadecimal characters: the 32-bit unsigned djb2 hash of the canonical
    form, written in base 16 and left-padded with zeros (read back, the
    string is that number, which lies in [0, 2^32)); and the hash is a
    function of the state: equal states have equal hashes.  The collation
    used to sort the Quantar ids is a parameter. *)
Theorem hashState_hex (localeCompare : string -> string -> Z)
  (state : GameState) :
  String.length (hashState localeCompare state) = 8%nat /\
  allHex (hashState localeCompare state) = true /\
  parseHex (hashState localeCompare state)
  = Some (djb2Hash (canonicalizeState localeCompare state)) /\
  0 <= djb2Hash (canonicalizeState localeCompare state) < 2 ^ 32 /\
  forall state', state' = state ->
    hashState localeCompare state' = hashState localeCompare state.
Proof.
  unfold hashState.
  destruct (hashToHex_spec (canonicalizeState localeCompare state))
    as (Hlen & Hhex & Hparse).
  repeat split; auto; try apply djb2Hash_range.
  by intros state' ->.
Qed.

(* ====================================================================== *)
(** ** Phase 1: moves into an occupied cell (C3, C4) *)
(* ====================================================================== *)

(** The one case in which [finalReject] reports "blocked by stationary
    Quantar": an uncontested destination, a live occupant with another id
    on it, and no entry for that occupant among the moves that passed the
    Core check. *)
Lemma finalReject_stationary state destinationCounts movesByQuantar move e :
  finalReject state destinationCounts movesByQuantar move = Some e ->
  e = blockedEvent move "blocked by stationary Quantar" ->
  default 0 (destinationCounts !! destKey (im_to move)) <= 1 /\
  exists (ref : nat) occupant,
    rs_quantars state !! ref = Some occupant /\
    0 < mq_hp occupant /\ mq_id occupant <> im_id move /\
    mq_position occupant = im_to move /\
    movesByQuantar !! mq_id occupant = None.
Proof.
  unfold finalReject, blockedEvent.
  destruct (Z.gtb_spec (default 0 (destinationCounts !! destKey (im_to move))) 1)
    as [|Hcount]; [intros [= <-]; discriminate|].
  destruct (find _ _) as [[ref occupant]|] eqn:Hfind; [|discriminate].
  destruct (movesByQuantar !! mq_id occupant) as [occupantMove|] eqn:Hmove.
  { destruct (positionsEqual _ _); [|discriminate].
    intros [= <-]. discriminate. }
  intros _ _. split; [exact Hcount|].
  apply find_Some in Hfind as (Hl & Hp & _).
  apply andb_true_iff in Hp as [Hp Hpos].
  apply andb_true_iff in Hp as [Hhp Hid].
  apply Z.gtb_lt in Hhp. apply positionsEqual_eq in Hpos.
  apply negb_true_iff, bool_decide_eq_false in Hid.
  exists ref, occupant. auto.
Qed.

(** A move onto the cell of a Quantar that is itself moving to a third
    cell.  In the initial layout A1 (at (3,6)) moves east into (4,6), the
    cell of the live Quantar A2, while A2 moves north to (4,5):
    [resolveMoves] applies both moves and pushes no MoveBlocked event. *)
Example follow_move_not_blocked :
  let state := workingCopy createInitialState in
  let actions := followActions ++ allShieldB in
  getQuantarById state "A1"
  = Some (0%nat, mkMutableQuantar "A1" Player.A (mkPosition 3 6) 2 false 0) /\
  applyDirection (mkPosition 3 6) East = mkPosition 4 6 /\
  isInBounds (mkPosition 4 6) = true /\
  getEntityAtPosition state (mkPosition 4 6)
  = Some (EntityIsQuantar 1 (mkMutableQuantar "A2" Player.A (mkPosition 4 6)
                                              2 false 0)) /\
  applyDirection (mkPosition 4 6) North = mkPosition 4 5 /\
  rs_events (resolveMoves state actions)
  = [EvMove "A1" (mkPosition 3 6) (mkPosition 4 6);
     EvMove "A2" (mkPosition 4 6) (mkPosition 4 5)] /\
  mq_position <$> rs_quantars (resolveMoves state actions)
  = [mkPosition 4 6; mkPosition 4 5; mkPosition 5 6;
     mkPosition 3 2; mkPosition 4 2; mkPosition 5 2].
Proof. vm_compute. repeat split; reflexivity. Qed.

(** C4, the failing input.  The state [flankState] is reached from the
    initial layout by one validated turn; its Quantars stand on distinct
    cells, none on a Core.  A1 and A2 both head for (4,5) and are blocked
    by their collision, A3 steps west into A2's cell: A2 has an intended
    move, so A3's move is applied, and the returned state has A2 and A3 on
    the same cell (4,6). *)
Theorem shared_cell_after_blocked_follow :
  playTurns createInitialState [flankOpening] = Some flankState /\
  wellFormed flankState = true /\
  distinctCells flankState /\
  valid (validatePlayerActions flankState flankActions Player.A) = true /\
  valid (validatePlayerActions flankState allShieldB Player.B) = true /\
  log_events (res_log (resolveTurn flankState flankActions allShieldB))
  = [EvMoveBlocked "A1" (mkPosition 3 5) East "collision with another Quantar";
     EvMoveBlocked "A2" (mkPosition 4 6) North "collision with another Quantar";
     EvMove "A3" (mkPosition 5 6) (mkPosition 4 6);
     EvShieldActivated "B1"; EvShieldActivated "B2"; EvShieldActivated "B3"] /\
  getQuantar (res_state (resolveTurn flankState flankActions allShieldB)) "A2"
  = Some (mkQuantar "A2" Player.A (mkPosition 4 6) 2) /\
  getQuantar (res_state (resolveTurn flankState flankActions allShieldB)) "A3"
  = Some (mkQuantar "A3" Player.A (mkPosition 4 6) 2) /\
  ~ distinctCells (res_state (resolveTurn flankState flankActions allShieldB)).
Proof.
  split; [vm_compute; reflexivity|]. split; [vm_compute; reflexivity|].
  split.
  { split.
    - vm_compute. repeat (apply NoDup_cons; split; [set_solver|]).
      apply NoDup_nil_2.
    - vm_compute. repeat (constructor; [split; discriminate|]). constructor. }
  repeat (split; [vm_compute; reflexivity|]).
  intros [Hnodup _]. vm_compute in Hnodup.
  apply NoDup_cons in Hnodup as [_ Hnodup].
  apply NoDup_cons in Hnodup as [Hnotin _].
  apply Hnotin. set_solver.
Qed.

(* ---------------------------------------------------------------------- *)
(** *** The destination key determines the cell *)

Lemma numberToString_inj a b : numberToString a = numberToString b -> a = b.
Proof.
  unfold numberToString. intros H.
  assert (forall n, DecimalString.NilZero.int_of_string
                      (DecimalString.NilZero.string_of_int (Z.to_int n))
                    = Some (Z.to_int n)) as Hparse.
  { intros n. apply DecimalString.NilZero.isi; destruct n; simpl;
      try discriminate; intros [= Hnil];
      by apply DecimalPos.Unsigned.to_uint_nonnil in Hnil. }
  apply (f_equal DecimalString.NilZero.int_of_string) in H.
  rewrite !Hparse in H. injection H as H.
  apply (f_equal Z.of_int) in H. by rewrite !DecimalZ.of_to in H.
Qed.

Lemma string_of_uint_noComma d :
  hasComma (DecimalString.NilEmpty.string_of_uint d) = false.
Proof. induction d; simpl; auto. Qed.

Lemma numberToString_noComma n : hasComma (numberToString n) = false.
Proof.
  unfold numberToString, DecimalString.NilZero.string_of_int,
    DecimalString.NilZero.string_of_uint.
  destruct (Z.to_int n) as [d|d]; destruct d; simpl; auto;
    apply string_of_uint_noComma.
Qed.

Lemma comma_split a : forall a' b b',
  hasComma a = false -> hasComma a' = false ->
  a +:+ "," +:+ b = a' +:+ "," +:+ b' -> a = a' /\ b = b'.
Proof.
  induction a as [|c a IH]; intros [|c' a'] b b' Ha Ha' H; cbn in *.
  - injection H as H. by subst.
  - injection H as Hc _. subst c'. by rewrite bool_decide_eq_true_2 in Ha'.
  - injection H as Hc _. subst c. by rewrite bool_decide_eq_true_2 in Ha.
  - injection H as Hc H. subst c'.
    apply orb_false_iff in Ha as [_ Ha]. apply orb_false_iff in Ha' as [_ Ha'].
    destruct (IH a' b b' Ha Ha' H) as [-> ->]. auto.
Qed.

Lemma destKey_inj p p' : destKey p = destKey p' -> p = p'.
Proof.
  unfold destKey. intros H.
  apply comma_split in H as [Hx Hy]; try apply numberToString_noComma.
  apply numberToString_inj in Hx, Hy. destruct p, p'; simpl in *. congruence.
Qed.

(* ---------------------------------------------------------------------- *)
(** *** The two maps of [resolveMoves] *)

Lemma countDestinations_from (l : list IntendedMove) key :
  forall counts : gmap string Z,
  default 0 (foldl (fun counts move =>
                      let key := destKey (im_to move) in
                      <[ key := default 0 (counts !! key) + 1 ]> counts)
                   counts l !! key)
  = default 0 (counts !! key)
    + Z.of_nat (length (List.filter
                          (fun m => bool_decide (destKey (im_to m) = key)) l)).
Proof.
  induction l as [|m l IH]; intros counts; simpl; [lia|].
  rewrite IH. destruct (decide (destKey (im_to m) = key)) as [Heq|Hne].
  - rewrite bool_decide_eq_true_2 by exact Heq. subst key.
    rewrite lookup_insert_eq. simpl length. simpl default. lia.
  - rewrite bool_decide_eq_false_2 by exact Hne.
    by rewrite lookup_insert_ne.
Qed.

Lemma countDestinations_lookup validMoves move :
  default 0 (countDestinations validMoves !! destKey (im_to move))
  = Z.of_nat (length (List.filter
                        (fun m => bool_decide (im_to m = im_to move))
                        validMoves)).
Proof.
  unfold countDestinations. rewrite countDestinations_from, lookup_empty.
  cbn [default]. rewrite Z.add_0_l. f_equal. f_equal.
  apply List.filter_ext. intros m.
  apply bool_decide_ext. split; [apply destKey_inj|by intros ->].
Qed.

Lemma indexMoves_from (l : list IntendedMove) id :
  forall byId : gmap string IntendedMove,
  foldl (fun byId move => <[ im_id move := move ]> byId) byId l !! id = None
  <-> byId !! id = None /\ Forall (fun m => im_id m <> id) l.
Proof.
  induction l as [|m l IH]; intros byId; simpl.
  - split; [by split|tauto].
  - rewrite IH. rewrite lookup_insert_None. rewrite Forall_cons. tauto.
Qed.

Lemma indexMoves_lookup_None validMoves id :
  indexMoves validMoves !! id = None <-> Forall (fun m => im_id m <> id) validMoves.
Proof.
  unfold indexMoves. rewrite indexMoves_from, lookup_empty. tauto.
Qed.

(* ---------------------------------------------------------------------- *)
(** *** [resolveMoves], through its intermediate lists *)

Lemma filterEmit_kept {X : Type} (reject : X -> option TurnEvent) l events :
  (filterEmit reject l events).1 = (filterEmit reject l []).1.
Proof. by rewrite !filterEmit_spec. Qed.

Lemma resolveMoves_unfold state actions :
  exists events1,
    resolveMoves state actions
    = foldl applyMove
        {| rs_quantars := rs_quantars state;
           rs_cores_A := rs_cores_A state;
           rs_cores_B := rs_cores_B state;
           rs_events :=
             events1
             ++ omap (coreCollision state) (intendedMovesOf state actions)
             ++ omap (finalReject state
                        (countDestinations (validMovesOf state actions))
                        (indexMoves (validMovesOf state actions)))
                     (validMovesOf state actions) |}
        (finalMovesOf state actions).
Proof.
  unfold resolveMoves, finalMovesOf, validMovesOf, intendedMovesOf.
  destruct (foldl _ _ _) as [intendedMoves events1]. simpl.
  exists events1. rewrite !filterEmit_spec. simpl. by rewrite <- app_assoc.
Qed.

Lemma applyMoves_events moves : forall state,
  rs_events (foldl applyMove state moves)
  = rs_events state
    ++ ((fun m => EvMove (im_id m) (im_from m) (im_to m)) <$> moves).
Proof.
  induction moves as [|m moves IH]; intros state; simpl.
  - by rewrite app_nil_r.
  - rewrite IH. simpl. by rewrite <- app_assoc.
Qed.

Lemma applyMoves_untouched moves (ref : nat) : forall state,
  Forall (fun m => im_quantar m <> ref) moves ->
  rs_quantars (foldl applyMove state moves) !! ref = rs_quantars state !! ref.
Proof.
  induction moves as [|m moves IH]; intros state Hmoves; simpl; [reflexivity|].
  inversion Hmoves as [|? ? Hm Hrest]; subst.
  rewrite IH by exact Hrest. simpl. by apply list_lookup_alter_ne.
Qed.

Lemma intendedMoves_from state actions : forall intended events,
  (foldl (intendMove state) (intended, events) actions).1
  = intended ++ omap (intendOf state) actions.
Proof.
  induction actions as [|a actions IH]; intros intended events; simpl.
  - by rewrite app_nil_r.
  - destruct a as [id d]. unfold intendOf. cbn [fst snd].
    change (intendMove state (intended, events) (id, d))
      with (match getQuantarById state id with
            | None => (intended, events)
            | Some (ref, quantar) =>
                if mq_hp quantar <=? 0 then (intended, events)
                else
                  if negb (isInBounds (applyDirection (mq_position quantar) d))
                  then (intended,
                        events ++ [EvMoveBlocked (mq_id quantar)
                                     (mq_position quantar) d "out of bounds"])
                  else (intended
                        ++ [mkIntendedMove ref (mq_id quantar)
                              (mq_position quantar)
                              (applyDirection (mq_position quantar) d) d],
                        events)
            end).
    destruct (getQuantarById state id) as [[ref q]|]; [|apply IH].
    destruct (mq_hp q <=? 0); [apply IH|].
    destruct (isInBounds _); simpl; rewrite IH; [|reflexivity].
    by rewrite <- app_assoc.
Qed.

(** The valid moves are those of the Move actions, in order, whose
    Quantar is found alive, whose destination is on the board and is not
    the cell of a Core. *)
Lemma validMovesOf_spec state actions :
  validMovesOf state actions
  = List.filter
      (fun m => negb (positionsEqual (im_to m) (mc_position (rs_cores_A state))
                      || positionsEqual (im_to m)
                                        (mc_position (rs_cores_B state))))
      (omap (intendOf state) (omap asMove actions)).
Proof.
  unfold validMovesOf, intendedMovesOf.
  rewrite filterEmit_spec, intendedMoves_from. simpl.
  apply List.filter_ext. intros m. unfold coreCollision.
  destruct (_ || _); reflexivity.
Qed.

Lemma finalMovesOf_spec state actions :
  finalMovesOf state actions
  = List.filter
      (fun m => bool_decide
                  (finalReject state
                     (countDestinations (validMovesOf state actions))
                     (indexMoves (validMovesOf state actions)) m = None))
      (validMovesOf state actions).
Proof. unfold finalMovesOf. by rewrite filterEmit_spec. Qed.

Lemma finalReject_no_move state validMoves move occupant :
  uncontested validMoves move ->
  occupantOf state move = Some occupant ->
  Forall (fun m => im_id m <> mq_id occupant) validMoves ->
  finalReject state (countDestinations validMoves) (indexMoves validMoves) move
  = Some (blockedEvent move "blocked by stationary Quantar").
Proof.
  intros Hone Hocc Hnone. unfold finalReject, occupantOf in *.
  rewrite countDestinations_lookup, Hone. change (Z.of_nat 1 >? 1) with false.
  cbv iota.
  destruct (find _ _) as [[ref q]|]; [|discriminate].
  injection Hocc as ->.
  apply indexMoves_lookup_None in Hnone. by rewrite Hnone.
Qed.

Lemma loneOccupant_occupantOf state move occupant :
  loneOccupant state move occupant -> occupantOf state move = Some occupant.
Proof.
  intros (Hin & Hhp & Hid & Hpos & Honly). unfold occupantOf.
  destruct (find _ _) as [[ref q]|] eqn:Hfind; simpl.
  - apply find_Some in Hfind as (Hq & Hp & _).
    apply andb_true_iff in Hp as [Hp Hat].
    apply andb_true_iff in Hp as [Hlive Hother].
    apply Z.gtb_lt in Hlive. apply positionsEqual_eq in Hat.
    apply negb_true_iff, bool_decide_eq_false in Hother.
    f_equal. apply Honly; auto. apply list_elem_of_lookup. eauto.
  - apply find_None in Hfind. rewrite Forall_forall in Hfind.
    specialize (Hfind occupant Hin). simpl in Hfind.
    assert ((mq_hp occupant >? 0) = true) as Hlive by (by apply Z.gtb_lt).
    assert (positionsEqual (mq_position occupant) (im_to move) = true) as Hat
      by (by apply positionsEqual_eq).
    rewrite Hlive, Hat, bool_decide_eq_false_2 in Hfind by exact Hid.
    discriminate.
Qed.

(** C3, the failing input: the first turn of the test suite's
    win-condition scenario, on the initial layout.  Both submissions pass
    validation.  B2's move east is in bounds, hits no Core and is the only
    move into (5,2); the one live Quantar standing on (5,2) is B3, and
    B3's own move goes to (6,2), a third cell.  By the claim (and by the
    comments in the source and in the test) B2's move is dropped with
    "blocked by stationary Quantar"; [resolveMoves] applies it, the log
    holds no MoveBlocked event, and B2 is returned on (5,2). *)
Theorem moving_occupant_does_not_block :
  let state := createInitialState in
  let s0 := workingCopy state in
  let all := columnPulses ++ columnMoves in
  let r := resolveTurn state columnPulses columnMoves in
  let moveB2 := mkIntendedMove 4 "B2" (mkPosition 4 2) (mkPosition 5 2) East in
  let moveB3 := mkIntendedMove 5 "B3" (mkPosition 5 2) (mkPosition 6 2) East in
  let B3 := mkMutableQuantar "B3" Player.B (mkPosition 5 2) 2 false 0 in
  valid (validatePlayerActions state columnPulses Player.A) = true /\
  valid (validatePlayerActions state columnMoves Player.B) = true /\
  validMovesOf s0 all
  = [mkIntendedMove 3 "B1" (mkPosition 3 2) (mkPosition 2 2) West;
     moveB2; moveB3] /\
  uncontested (validMovesOf s0 all) moveB2 /\
  loneOccupant s0 moveB2 B3 /\
  im_to moveB3 <> im_from moveB2 /\ im_to moveB3 <> im_to moveB2 /\
  ~ stationaryClaim s0 all /\
  log_events (res_log r)
  = [EvMove "B1" (mkPosition 3 2) (mkPosition 2 2);
     EvMove "B2" (mkPosition 4 2) (mkPosition 5 2);
     EvMove "B3" (mkPosition 5 2) (mkPosition 6 2);
     EvPulseFired "A1" (mkPosition 3 6) PNorth; EvPulseMiss "A1";
     EvPulseFired "A2" (mkPosition 4 6) PNorth;
     EvPulseHit "core_B" EntityCore 1;
     EvPulseFired "A3" (mkPosition 5 6) PNorth;
     EvPulseHit "B2" EntityQuantar 1;
     EvDamageApplied "B2" 1 1; EvDamageApplied "core_B" 1 4] /\
  getQuantar (res_state r) "B2"
  = Some (mkQuantar "B2" Player.B (mkPosition 5 2) 1) /\
  getQuantar (res_state r) "B3"
  = Some (mkQuantar "B3" Player.B (mkPosition 6 2) 2).
Proof.
  intros state s0 all r moveB2 moveB3 B3.
  assert (loneOccupant s0 moveB2 B3) as Hlone.
  { split; [vm_compute; set_solver|]. split; [reflexivity|].
    split; [discriminate|]. split; [reflexivity|].
    intros q Hq Hhp Hid Hat. vm_compute in Hq.
    repeat (apply elem_of_cons in Hq as [->|Hq]);
      try discriminate; try reflexivity; try (by apply elem_of_nil in Hq). }
  split; [vm_compute; reflexivity|]. split; [vm_compute; reflexivity|].
  split; [vm_compute; reflexivity|]. split; [vm_compute; reflexivity|].
  split; [exact Hlone|]. split; [discriminate|]. split; [discriminate|].
  split; [|repeat split; vm_compute; reflexivity].
  intros Hclaim. destruct (Hclaim moveB2 B3) as [Hdropped _].
  - vm_compute. set_solver.
  - vm_compute. reflexivity.
  - by apply loneOccupant_occupantOf.
  - right. exists moveB3. split; [vm_compute; set_solver|].
    repeat split; discriminate.
  - apply Hdropped. vm_compute. set_solver.
Qed.

(** X21. A stationary occupant blocks.  In phase 1, when the destination
    of an intended in-bounds, non-Core-blocked, uncontested move holds
    exactly one live Quantar other than the mover,
    and that Quantar has no valid move of its own (none that is in bounds
    and off the Cores), the mover's move is dropped - it is not among the
    moves applied, and a Quantar with no other move stays where it is -
    and a MoveBlocked event with reason "blocked by stationary Quantar"
    is pushed for it. *)
Theorem lone_stationary_occupant_blocks state actions move occupant :
  move ∈ validMovesOf state actions ->
  uncontested (validMovesOf state actions) move ->
  loneOccupant state move occupant ->
  Forall (fun m => im_id m <> mq_id occupant) (validMovesOf state actions) ->
  (move ∉ finalMovesOf state actions) /\
  (EvMoveBlocked (im_id move) (im_from move) (im_direction move)
                 "blocked by stationary Quantar"
   ∈ rs_events (resolveMoves state actions)) /\
  ((forall m, m ∈ validMovesOf state actions ->
              im_quantar m = im_quantar move -> m = move) ->
   rs_quantars (resolveMoves state actions) !! im_quantar move
   = rs_quantars state !! im_quantar move).
Proof.
  intros Hin Hone Hlone Hnone.
  pose proof (loneOccupant_occupantOf _ _ _ Hlone) as Hocc.
  pose proof (finalReject_no_move _ _ _ _ Hone Hocc Hnone) as Hreject.
  assert (move ∉ finalMovesOf state actions) as Hdropped.
  { rewrite finalMovesOf_spec. intros Hfinal.
    apply list_elem_of_In, filter_In in Hfinal as [_ Hkept].
    apply bool_decide_eq_true in Hkept. congruence. }
  destruct (resolveMoves_unfold state actions) as [events1 Hunfold].
  split; [exact Hdropped|]. split.
  - rewrite Hunfold, applyMoves_events. simpl.
    apply elem_of_app. left. apply elem_of_app. right.
    apply elem_of_app. right. apply list_elem_of_omap.
    exists move. split; [exact Hin|exact Hreject].
  - intros Honly. rewrite Hunfold, applyMoves_untouched; [reflexivity|].
    rewrite Forall_forall. intros m Hm Href.
    assert (m ∈ validMovesOf state actions) as Hvalid.
    { rewrite finalMovesOf_spec in Hm.
      apply list_elem_of_In, filter_In in Hm as [Hm _].
      by apply list_elem_of_In. }
    apply Honly in Hvalid; [|exact Href]. by subst m.
Qed.

Lemma lone_stationary_occupant_blocks_witness :
  EvMoveBlocked "A1" (mkPosition 3 6) East "blocked by stationary Quantar"
  ∈ rs_events (resolveMoves (workingCopy createInitialState)
                            (bumpActions ++ allShieldB)).
Proof.
  refine (proj1 (proj2 (lone_stationary_occupant_blocks
            (workingCopy createInitialState) (bumpActions ++ allShieldB)
            (mkIntendedMove 0 "A1" (mkPosition 3 6) (mkPosition 4 6) East)
            (mkMutableQuantar "A2" Player.A (mkPosition 4 6) 2 false 0)
            _ _ _ _))).
  - vm_compute. constructor.
  - vm_compute. reflexivity.
  - split; [vm_compute; set_solver|]. split; [simpl; lia|].
    split; [discriminate|]. split; [reflexivity|].
    intros q Hq Hhp Hid Hat. vm_compute in Hq.
    repeat (apply elem_of_cons in Hq as [->|Hq]);
      try discriminate; try reflexivity; try (by apply elem_of_nil in Hq).
  - vm_compute. repeat constructor. discriminate.
Defined.

(* ====================================================================== *)
(** ** Instances *)
(* ====================================================================== *)

Ltac crunch :=
  vm_compute; repeat split; first [reflexivity | discriminate | congruence].

(** The five outcomes of C1 on concrete turns: both Cores destroyed; Core
    B destroyed while A loses its last Quantar; both sides lose their last
    Quantar; A alone loses its last Quantar; nothing decided. *)
Lemma win_draw_precedence_witness :
  log_events (res_log (resolveTurn (duel 1) [PulseAction "A1" PNorth]
                                            [PulseAction "B1" PSouth]))
  = rs_events (runPhases (duel 1) [PulseAction "A1" PNorth]
                                  [PulseAction "B1" PSouth])
    ++ [EvDraw "mutual_destruction"] /\
  (survivors (res_state (resolveTurn (duel 1) [PulseAction "A1" PNorth]
                                              [PulseAction "B1" PNorth]))
             Player.A = [] /\
   winner (res_state (resolveTurn (duel 1) [PulseAction "A1" PNorth]
                                           [PulseAction "B1" PNorth]))
   = Some Player.A) /\
  winner (res_state (resolveTurn (duel 5) [PulseAction "A1" PSouth]
                                          [PulseAction "B1" PNorth])) = None /\
  log_events (res_log (resolveTurn (duel 5) [PulseAction "A1" PEast]
                                            [PulseAction "B1" PNorth]))
  = rs_events (runPhases (duel 5) [PulseAction "A1" PEast]
                                  [PulseAction "B1" PNorth])
    ++ [EvTerminalLoss Player.A "no_quantars"; EvGameOver Player.B] /\
  winner (res_state (resolveTurn createInitialState allShieldA allShieldB))
  = None.
Proof.
  split; [|split; [|split; [|split]]].
  - refine (proj1 (proj2 (proj2
      (proj1 (win_draw_precedence (duel 1) [PulseAction "A1" PNorth]
                                  [PulseAction "B1" PSouth]) _)))).
    crunch.
  - split; [crunch|].
    refine (proj1
      (proj1 (proj2 (win_draw_precedence (duel 1) [PulseAction "A1" PNorth]
                                         [PulseAction "B1" PNorth]))
             Player.B _)).
    crunch.
  - refine (proj1
      (proj1 (proj2 (proj2 (win_draw_precedence (duel 5)
                              [PulseAction "A1" PSouth]
                              [PulseAction "B1" PNorth]))) _ _)); crunch.
  - refine (proj2 (proj2
      (proj1 (proj2 (proj2 (proj2 (win_draw_precedence (duel 5)
                                     [PulseAction "A1" PEast]
                                     [PulseAction "B1" PNorth]))))
             Player.A _ _))); crunch.
  - refine (proj1
      (proj2 (proj2 (proj2 (proj2 (win_draw_precedence createInitialState
                                     allShieldA allShieldB)))) _ _)); crunch.
Defined.


(* ====================================================================== *)
(** ** Scenarios of the test suite, run on the embedding *)
(* ====================================================================== *)

Example resolves_all_shields :
  let r := resolveTurn createInitialState allShieldA allShieldB in
  turn (res_state r) = 2 /\ phase (res_state r) = Playing /\
  winner (res_state r) = None /\
  log_events (res_log r) =
    [EvShieldActivated "A1"; EvShieldActivated "A2"; EvShieldActivated "A3";
     EvShieldActivated "B1"; EvShieldActivated "B2"; EvShieldActivated "B3"].
Proof. vm_compute. repeat split; reflexivity. Qed.

Example moves_quantars_correctly :
  let r := resolveTurn createInitialState
             [MoveAction "A1" North; ShieldAction "A2"; ShieldAction "A3"]
             allShieldB in
  q_position <$> getQuantar (res_state r) "A1" = Some (mkPosition 3 5).
Proof. vm_compute. reflexivity. Qed.

Example unshielded_pulse_through_movement :
  let r := resolveTurn createInitialState
             [ShieldAction "A1"; PulseAction "A2" PNorth; ShieldAction "A3"]
             [ShieldAction "B1"; MoveAction "B2" South; ShieldAction "B3"] in
  (fun q => (q_position q, q_hp q)) <$> getQuantar (res_state r) "B2"
  = Some (mkPosition 4 3, QUANTAR_HP - 1).
Proof. vm_compute. reflexivity. Qed.


Example canonical_initial_state :
  canonicalizeState compareCodeUnits createInitialState =
  "T:1|P:playing|W:null|C:A:4,8:5|C:B:4,0:5|Q:A1:A:3,6:2|Q:A2:A:4,6:2|Q:A3:A:5,6:2|Q:B1:B:3,2:2|Q:B2:B:4,2:2|Q:B3:B:5,2:2".
Proof. vm_compute. reflexivity. Qed.

Example djb2_small :
  djb2Hash "" = 5381 /\ djb2Hash "a" = 177604 /\
  hashToHex "a" = "0002b5c4" /\ toString16 0 = "0" /\
  toString16 4294967295 = "ffffffff".
Proof. vm_compute. repeat split; reflexivity. Qed.

(* ====================================================================== *)
(** ** Further properties: validation *)
(* ====================================================================== *)

Lemma getQuantar_Some state id q :
  getQuantar state id = Some q -> q ∈ quantars state /\ q_id q = id.
Proof.
  unfold getQuantar. destruct (find _ _) as [[i q']|] eqn:Hfind; [|discriminate].
  intros [= <-]. apply find_Some in Hfind as (Hl & Hp & _).
  apply bool_decide_eq_true in Hp. split; [|exact Hp].
  apply list_elem_of_lookup. eauto.
Qed.

Lemma getQuantar_None state id :
  getQuantar state id = None <-> id ∉ (q_id <$> quantars state).
Proof.
  unfold getQuantar. destruct (find _ _) as [[i q']|] eqn:Hfind; simpl.
  - apply find_Some in Hfind as (Hl & Hp & _).
    apply bool_decide_eq_true in Hp. split; [discriminate|].
    intros Hnot. exfalso. apply Hnot. apply list_elem_of_fmap.
    exists q'. split; [by rewrite Hp|]. apply list_elem_of_lookup. eauto.
  - apply find_None in Hfind. rewrite Forall_forall in Hfind.
    split; [intros _|reflexivity].
    intros Hin. apply list_elem_of_fmap in Hin as (q & -> & Hq).
    specialize (Hfind q Hq). by apply bool_decide_eq_false in Hfind.
Qed.

Lemma isValidDirection_true d : isValidDirection d = true.
Proof. by destruct d. Qed.

Lemma isValidPulseDirection_true d : isValidPulseDirection d = true.
Proof. by destruct d. Qed.

Lemma directionName_inj d d' : directionName d = directionName d' -> d = d'.
Proof. by destruct d, d'. Qed.

Lemma pulseDirectionName_inj d d' :
  pulseDirectionName d = pulseDirectionName d' -> d = d'.
Proof. by destruct d, d'. Qed.

Lemma asDirection_Some dir d :
  asDirection dir = Some d <-> dir = JsString (directionName d).
Proof.
  destruct dir as [s|r]; [|split; [discriminate|by destruct d]].
  unfold asDirection, asPulseDirection, ALL_DIRECTIONS, ALL_PULSE_DIRECTIONS.
  cbn [List.find]. split.
  - repeat match goal with
           | |- (if String.eqb ?name s then _ else _) = _ -> _ =>
               destruct (String.eqb_spec name s) as [<-|?];
                 [intros [= <-]; reflexivity|]
           end.
    discriminate.
  - intros [= ->]. by destruct d.
Qed.

Lemma asDirection_None dir :
  asDirection dir = None <-> forall d, dir <> JsString (directionName d).
Proof.
  split.
  - intros Hnone d Hd. apply asDirection_Some in Hd. congruence.
  - intros Hall. destruct (asDirection dir) as [d|] eqn:Hd; [|reflexivity].
    apply asDirection_Some in Hd. by destruct (Hall d).
Qed.

Lemma asPulseDirection_Some dir d :
  asPulseDirection dir = Some d <-> dir = JsString (pulseDirectionName d).
Proof.
  destruct dir as [s|r]; [|split; [discriminate|by destruct d]].
  unfold asDirection, asPulseDirection, ALL_DIRECTIONS, ALL_PULSE_DIRECTIONS.
  cbn [List.find]. split.
  - repeat match goal with
           | |- (if String.eqb ?name s then _ else _) = _ -> _ =>
               destruct (String.eqb_spec name s) as [<-|?];
                 [intros [= <-]; reflexivity|]
           end.
    discriminate.
  - intros [= ->]. by destruct d.
Qed.

Lemma asPulseDirection_None dir :
  asPulseDirection dir = None <->
  forall d, dir <> JsString (pulseDirectionName d).
Proof.
  split.
  - intros Hnone d Hd. apply asPulseDirection_Some in Hd. congruence.
  - intros Hall. destruct (asPulseDirection dir) as [d|] eqn:Hd; [|reflexivity].
    apply asPulseDirection_Some in Hd. by destruct (Hall d).
Qed.

(** On a value of type [Action] the run-time function is the typed one. *)
Lemma validateActionAtRuntime_typed state action playerId :
  validateActionAtRuntime state (toRaw action) playerId
  = validateAction state action playerId.
Proof.
  unfold validateActionAtRuntime, validateAction, toRaw, getQuantarOf.
  destruct action as [id d|id d|id]; cbn [quantarId render];
    rewrite ?(proj2 (asDirection_Some _ d) eq_refl),
      ?(proj2 (asPulseDirection_Some _ d) eq_refl),
      ?isValidDirection_true, ?isValidPulseDirection_true;
    destruct (getQuantar state id) as [q|]; try reflexivity;
    destruct (negb (bool_decide (q_owner q = playerId))); try reflexivity;
    destruct (q_hp q <=? 0); reflexivity.
Qed.

Ltac runtime_fact :=
  match goal with
  | H : ex _ |- _ => destruct H
  | H : _ /\ _ |- _ => destruct H
  | H : _ \/ _ |- _ => destruct H
  | H : passesQuantarChecks _ _ _ _ _ _ |- _ =>
      unfold passesQuantarChecks in H
  | H : forall id, JsString ?x = JsString id -> _ |- _ =>
      specialize (H _ eq_refl); apply getQuantar_None in H
  | H : directionName _ = directionName _ |- _ =>
      apply directionName_inj in H
  | H : pulseDirectionName _ = pulseDirectionName _ |- _ =>
      apply pulseDirectionName_inj in H
  | H : asDirection _ = None |- _ => rewrite asDirection_None in H
  | H : asPulseDirection _ = None |- _ => rewrite asPulseDirection_None in H
  | H : asDirection _ = Some _ |- _ => apply asDirection_Some in H
  | H : asPulseDirection _ = Some _ |- _ => apply asPulseDirection_Some in H
  end.

Ltac runtime_facts := repeat first [runtime_fact | progress simplify_eq/=].

Ltac runtime_cases :=
  repeat split; try discriminate; try done;
  try (intros; runtime_facts;
       first [lia | congruence | done
             | match goal with
               | H : forall d, _ <> _ |- _ =>
                   exfalso; eapply H; reflexivity
               end]);
  try (intros _; runtime_facts; unfold passesQuantarChecks;
       solve [eauto 12
             | do 3 eexists; split; [eexists; repeat split; eauto|];
               eauto 10]).

(** X1. [validateAction], on whatever it is handed at run time, checks
    in this order: that the value is an object with a [type]; that its
    [quantarId] names a Quantar of the state; that [playerId] owns it;
    that it is alive; then, by [type], that the direction of a MOVE is one
    of N, E, S, W and its destination is on the board, that the direction
    of a PULSE is one of the eight pulse directions, and that any other
    [type] is SHIELD.  Each error code is returned exactly when its check
    is the first to fail, and success exactly when all pass.  It never
    returns one of the three submission-level codes.  On a value of type
    [Action] it is the typed [validateAction]. *)
Theorem validateAction_codes state (action : RawAction) playerId :
  let r := validateActionAtRuntime state action playerId in
  let passes := passesQuantarChecks state playerId action in
  (r = ValidationSuccess <->
   exists type direction q,
     passes type direction q /\
     ((exists d, type = JsString "MOVE" /\
                 direction = JsString (directionName d) /\
                 isInBounds (applyDirection (q_position q) d) = true) \/
      (exists d, type = JsString "PULSE" /\
                 direction = JsString (pulseDirectionName d)) \/
      type = JsString "SHIELD")) /\
  (errorCode r = Some INVALID_ACTION_TYPE <->
   action = NotAnAction \/
   exists type direction q,
     passes type direction q /\
     type <> JsString "MOVE" /\ type <> JsString "PULSE" /\
     type <> JsString "SHIELD") /\
  (errorCode r = Some QUANTAR_NOT_FOUND <->
   exists type quantarId direction,
     action = RawObject type quantarId direction /\
     forall id, quantarId = JsString id -> id ∉ (q_id <$> quantars state)) /\
  (errorCode r = Some QUANTAR_NOT_OWNED <->
   exists type id direction q,
     action = RawObject type (JsString id) direction /\
     getQuantar state id = Some q /\ q_owner q <> playerId) /\
  (errorCode r = Some QUANTAR_DEAD <->
   exists type id direction q,
     action = RawObject type (JsString id) direction /\
     getQuantar state id = Some q /\ q_owner q = playerId /\ q_hp q <= 0) /\
  (errorCode r = Some INVALID_DIRECTION <->
   exists type direction q,
     passes type direction q /\
     ((type = JsString "MOVE" /\
       forall d, direction <> JsString (directionName d)) \/
      (type = JsString "PULSE" /\
       forall d, direction <> JsString (pulseDirectionName d)))) /\
  (errorCode r = Some MOVE_OUT_OF_BOUNDS <->
   exists direction q d,
     passes (JsString "MOVE") direction q /\
     direction = JsString (directionName d) /\
     isInBounds (applyDirection (q_position q) d) = false) /\
  errorCode r <> Some DUPLICATE_QUANTAR_ACTION /\
  errorCode r <> Some MISSING_QUANTAR_ACTION /\
  errorCode r <> Some GAME_NOT_IN_ACTION_PHASE /\
  (forall typed,
     validateActionAtRuntime state (toRaw typed) playerId
     = validateAction state typed playerId).
Proof.
  intros r passes. subst r passes.
  assert (forall typed,
            validateActionAtRuntime state (toRaw typed) playerId
            = validateAction state typed playerId) as Htyped
    by (intros; apply validateActionAtRuntime_typed).
  destruct action as [|type quantarId direction]; [simpl; runtime_cases|].
  unfold validateActionAtRuntime.
  destruct quantarId as [id|other]; cbn [getQuantarOf render].
  2:{ runtime_cases. intros _. do 3 eexists. split; [reflexivity|].
      discriminate. }
  destruct (getQuantar state id) as [q|] eqn:Hq.
  2:{ runtime_cases. intros _. do 3 eexists. split; [reflexivity|].
      intros ? [= <-]. by apply getQuantar_None. }
  destruct (decide (q_owner q = playerId)) as [Hown|Hown].
  2:{ rewrite bool_decide_eq_false_2 by exact Hown. simpl. runtime_cases. }
  rewrite bool_decide_eq_true_2 by exact Hown. cbn [negb].
  destruct (Z.leb_spec (q_hp q) 0) as [Hdead|Halive]; [runtime_cases|].
  destruct (decide (type = JsString "MOVE")) as [->|HnM].
  { rewrite bool_decide_eq_true_2 by reflexivity.
    destruct (asDirection direction) as [d|] eqn:Hd.
    - apply asDirection_Some in Hd. subst direction.
      destruct (isInBounds (applyDirection (q_position q) d)) eqn:Hin;
        cbn [negb]; runtime_cases.
    - runtime_cases. }
  rewrite (bool_decide_eq_false_2 _ HnM).
  destruct (decide (type = JsString "PULSE")) as [->|HnP].
  { rewrite bool_decide_eq_true_2 by reflexivity.
    destruct (asPulseDirection direction) as [d|] eqn:Hd; runtime_cases. }
  rewrite (bool_decide_eq_false_2 _ HnP).
  destruct (decide (type = JsString "SHIELD")) as [->|HnS].
  { rewrite bool_decide_eq_true_2 by reflexivity. runtime_cases. }
  rewrite (bool_decide_eq_false_2 _ HnS). runtime_cases.
Qed.

Lemma validateAction_codes_witness :
  errorCode (validateActionAtRuntime createInitialState
               (RawObject (JsString "MOVE") (JsString "A1") (JsString "NE"))
               Player.A)
  = Some INVALID_DIRECTION.
Proof.
  apply (proj1 (proj2 (proj2 (proj2 (proj2 (proj2
           (validateAction_codes createInitialState
              (RawObject (JsString "MOVE") (JsString "A1") (JsString "NE"))
              Player.A))))))).
  exists (JsString "MOVE"), (JsString "NE"),
    (mkQuantar "A1" Player.A (mkPosition 3 6) 2).
  split.
  - exists "A1". split; [reflexivity|]. split; [vm_compute; reflexivity|].
    split; [reflexivity|simpl; lia].
  - left. split; [reflexivity|]. intros []; discriminate.
Defined.

(** An action passes [validateAction] exactly when its Quantar is
    found, owned, alive and, for a Move, stays on the board. *)
Lemma validateAction_ok state action playerId :
  validateAction state action playerId = ValidationSuccess <->
  exists q, getQuantar state (quantarId action) = Some q /\
            q_owner q = playerId /\ 0 < q_hp q /\
            forall d, action = MoveAction (quantarId action) d ->
                      isInBounds (applyDirection (q_position q) d) = true.
Proof.
  unfold validateAction.
  destruct (getQuantar state (quantarId action)) as [q|] eqn:Hq;
    [|split; [discriminate|by intros (q & [=] & _)]].
  destruct (decide (q_owner q = playerId)) as [Hown|Hown].
  2:{ rewrite bool_decide_eq_false_2 by exact Hown. simpl.
      split; [discriminate|]. by intros (q' & [= <-] & Hown' & _). }
  rewrite bool_decide_eq_true_2 by exact Hown. simpl.
  destruct (Z.leb_spec (q_hp q) 0) as [Hdead|Halive].
  { split; [discriminate|]. intros (q' & [= <-] & _ & Hhp & _). lia. }
  destruct action as [i d|i d|i]; simpl in *;
    rewrite ?isValidDirection_true, ?isValidPulseDirection_true; simpl.
  - destruct (isInBounds (applyDirection (q_position q) d)) eqn:Hin; simpl.
    + split; [intros _|done]. exists q. repeat split; auto.
      by intros d' [= <-].
    + split; [discriminate|].
      intros (q' & [= <-] & _ & _ & Hall). specialize (Hall d eq_refl).
      congruence.
  - split; [intros _|done]. exists q. repeat split; auto. discriminate.
  - split; [intros _|done]. exists q. repeat split; auto. discriminate.
Qed.

Lemma validatePlayerActions_accepts state actions playerId :
  validatePlayerActions state actions playerId = ValidationSuccess ->
  phase state = Playing /\
  NoDup (quantarId <$> actions) /\
  Forall (fun a => validateAction state a playerId = ValidationSuccess) actions /\
  Forall (fun q => q_id q ∈ (quantarId <$> actions))
         (aliveQuantarsOf state playerId).
Proof.
  intros Hok.
  assert (phase state = Playing) as Hphase.
  { unfold validatePlayerActions in Hok.
    destruct (bool_decide (phase state = Playing)) eqn:E;
      [by apply bool_decide_eq_true in E|discriminate]. }
  rewrite validatePlayerActions_playing in Hok by exact Hphase.
  destruct (validateEach state playerId ∅ actions) as [[err|] seen] eqn:HE.
  { subst err. by apply validateEach_error in HE. }
  pose proof HE as HE'.
  apply validateEach_passed in HE as (Hvalid & Hnodup & _).
  rewrite validateEach_passes in HE'; [|assumption|assumption|set_solver].
  injection HE' as <-.
  apply (proj1 (checkMissing_spec _ _)) in Hok.
  repeat split; auto.
  eapply Forall_impl; [exact Hok|]. intros q Hq. simpl in Hq. set_solver.
Qed.

Lemma NoDup_fmap_filter {X Y : Type} (f : X -> Y) (P : X -> bool) l :
  NoDup (f <$> l) -> NoDup (f <$> List.filter P l).
Proof.
  induction l as [|v l IH]; simpl; [done|].
  rewrite NoDup_cons. intros [Hv Hl]. destruct (P v); [|auto].
  rewrite fmap_cons. apply NoDup_cons. split; [|auto].
  intros Hin. apply Hv. apply list_elem_of_fmap in Hin as (w & -> & Hw).
  apply list_elem_of_fmap_2. apply list_elem_of_In, filter_In in Hw as [Hw _].
  by apply list_elem_of_In.
Qed.

(** X2. When a submission is accepted and the state's Quantar ids are
    distinct, the submitted quantarIds are, up to order, exactly the ids
    of the player's alive Quantars: one action for each of them and no
    action for anything else. *)
Theorem accepted_actions_cover state actions playerId :
  NoDup (q_id <$> quantars state) ->
  validatePlayerActions state actions playerId = ValidationSuccess ->
  quantarId <$> actions ≡ₚ q_id <$> aliveQuantarsOf state playerId.
Proof.
  intros Hids Hok.
  apply validatePlayerActions_accepts in Hok as (_ & Hnodup & Hvalid & Hall).
  apply NoDup_Permutation; [exact Hnodup| |].
  { unfold aliveQuantarsOf, getPlayerQuantars.
    by do 2 apply NoDup_fmap_filter. }
  intros id. split.
  - intros Hin. apply list_elem_of_fmap in Hin as (a & -> & Ha).
    rewrite Forall_forall in Hvalid. specialize (Hvalid a Ha).
    apply (proj1 (validateAction_ok state a playerId)) in Hvalid
      as (q & Hq & Hown & Hhp & _).
    apply getQuantar_Some in Hq as [Hq Hid]. rewrite <- Hid.
    apply list_elem_of_fmap_2. unfold aliveQuantarsOf, getPlayerQuantars.
    apply list_elem_of_In, filter_In. split.
    + apply filter_In. split; [by apply list_elem_of_In|].
      by apply bool_decide_eq_true.
    + by apply Z.gtb_lt.
  - intros Hin. apply list_elem_of_fmap in Hin as (q & -> & Hq).
    rewrite Forall_forall in Hall. by apply Hall.
Qed.

Lemma accepted_actions_cover_witness :
  quantarId <$> [MoveAction "A1" North; PulseAction "A2" PNorth;
                 ShieldAction "A3"]
  ≡ₚ q_id <$> aliveQuantarsOf createInitialState Player.A.
Proof.
  apply accepted_actions_cover.
  - vm_compute. repeat (apply NoDup_cons; split; [set_solver|]).
    apply NoDup_nil_2.
  - vm_compute. reflexivity.
Defined.

(* ====================================================================== *)
(** ** Further properties: the event log *)
(* ====================================================================== *)

Lemma extendsBy_refl k base : extendsBy k base base.
Proof. exists []. by rewrite app_nil_r. Qed.

Lemma extendsBy_snoc k base events e :
  extendsBy k base events -> eventPhase e = k ->
  extendsBy k base (events ++ [e]).
Proof.
  intros (new & -> & Hnew) He. exists (new ++ [e]). split.
  - by rewrite app_assoc.
  - apply Forall_app. split; [exact Hnew|by constructor].
Qed.

Lemma extendsBy_app k base events more :
  extendsBy k base events -> Forall (fun e => eventPhase e = k) more ->
  extendsBy k base (events ++ more).
Proof.
  intros (new & -> & Hnew) Hmore. exists (new ++ more). split.
  - by rewrite app_assoc.
  - apply Forall_app. auto.
Qed.

Lemma Forall_omap_events {X : Type} (P : TurnEvent -> Prop)
  (f : X -> option TurnEvent) l :
  (forall v e, f v = Some e -> P e) -> Forall P (omap f l).
Proof.
  intros Hf. induction l as [|v l IH]; simpl; [constructor|].
  destruct (f v) eqn:Hv; auto. constructor; eauto.
Qed.

Lemma intendEvents_from state actions : forall intended events,
  (foldl (intendMove state) (intended, events) actions).2
  = events ++ omap (outOfBoundsEvent state) actions.
Proof.
  induction actions as [|a actions IH]; intros intended events; simpl.
  - by rewrite app_nil_r.
  - destruct a as [id d]. unfold outOfBoundsEvent at 1. cbn [fst snd].
    change (intendMove state (intended, events) (id, d))
      with (match getQuantarById state id with
            | None => (intended, events)
            | Some (ref, quantar) =>
                if mq_hp quantar <=? 0 then (intended, events)
                else
                  if negb (isInBounds (applyDirection (mq_position quantar) d))
                  then (intended,
                        events ++ [EvMoveBlocked (mq_id quantar)
                                     (mq_position quantar) d "out of bounds"])
                  else (intended
                        ++ [mkIntendedMove ref (mq_id quantar)
                              (mq_position quantar)
                              (applyDirection (mq_position quantar) d) d],
                        events)
            end).
    destruct (getQuantarById state id) as [[ref q]|]; [|apply IH].
    destruct (mq_hp q <=? 0); [apply IH|].
    destruct (isInBounds _); simpl; rewrite IH; [reflexivity|].
    by rewrite <- app_assoc.
Qed.

(** The events of phase 1, in the order they are pushed: out-of-bounds
    blocks, Core blocks, blocks of the last filter, then the moves. *)
Lemma resolveMoves_events state actions :
  rs_events (resolveMoves state actions)
  = rs_events state
    ++ omap (outOfBoundsEvent state) (omap asMove actions)
    ++ omap (coreCollision state) (intendedMovesOf state actions)
    ++ omap (finalReject state
               (countDestinations (validMovesOf state actions))
               (indexMoves (validMovesOf state actions)))
            (validMovesOf state actions)
    ++ ((fun m => EvMove (im_id m) (im_from m) (im_to m))
          <$> finalMovesOf state actions).
Proof.
  unfold resolveMoves, finalMovesOf, validMovesOf, intendedMovesOf.
  pose proof (intendEvents_from state (omap asMove actions) [] (rs_events state))
    as Hev.
  destruct (foldl _ _ _) as [intendedMoves events1]. simpl in *. subst events1.
  rewrite !filterEmit_spec. simpl. rewrite applyMoves_events. simpl.
  by rewrite <- !app_assoc.
Qed.

Lemma resolveMoves_extends state actions :
  extendsBy 1 (rs_events state) (rs_events (resolveMoves state actions)).
Proof.
  rewrite resolveMoves_events. exists
    (omap (outOfBoundsEvent state) (omap asMove actions)
     ++ omap (coreCollision state) (intendedMovesOf state actions)
     ++ omap (finalReject state
                (countDestinations (validMovesOf state actions))
                (indexMoves (validMovesOf state actions)))
             (validMovesOf state actions)
     ++ ((fun m => EvMove (im_id m) (im_from m) (im_to m))
           <$> finalMovesOf state actions)).
  split; [reflexivity|]. repeat apply Forall_app_2.
  - apply Forall_omap_events. intros [id d] e. unfold outOfBoundsEvent.
    repeat case_match; try discriminate. by intros [= <-].
  - apply Forall_omap_events. intros m e. unfold coreCollision.
    case_match; [|discriminate]. by intros [= <-].
  - apply Forall_omap_events. intros m e. unfold finalReject.
    repeat case_match; try discriminate; by intros [= <-].
  - apply Forall_fmap. by apply Forall_true.
Qed.

Lemma resolveShields_extends state actions :
  extendsBy 2 (rs_events state) (rs_events (resolveShields state actions)).
Proof.
  apply (foldl_preserves
           (fun s => extendsBy 2 (rs_events state) (rs_events s)));
    [|apply extendsBy_refl].
  intros s id Hs. unfold shieldStep. repeat case_match; simpl; auto.
  by apply extendsBy_snoc.
Qed.

Lemma resolvePulses_extends state actions :
  extendsBy 3 (rs_events state) (rs_events (resolvePulses state actions)).
Proof.
  apply (foldl_preserves
           (fun s => extendsBy 3 (rs_events state) (rs_events s)));
    [|apply extendsBy_refl].
  intros s id Hs. unfold pulseStep, applyHit.
  repeat case_match; simpl; auto; repeat apply extendsBy_snoc; auto.
Qed.

Lemma applyDamage_extends state :
  extendsBy 4 (rs_events state) (rs_events (applyDamage state)).
Proof.
  unfold applyDamage. rewrite damageQuantars_spec.
  assert (extendsBy 4 (rs_events state)
            (rs_events state
             ++ omap (fun q => if mq_pendingDamage q >? 0
                               then Some (EvDamageApplied (mq_id q)
                                            (actualDamageOf q)
                                            (mq_hp q - actualDamageOf q))
                               else None) (rs_quantars state))) as H1.
  { apply extendsBy_app; [apply extendsBy_refl|].
    apply Forall_omap_events. intros q e. case_match; [|discriminate].
    by intros [= <-]. }
  unfold damageCore.
  destruct (mc_pendingDamage (rs_cores_A state) >? 0),
           (mc_pendingDamage (rs_cores_B state) >? 0); simpl;
    repeat apply extendsBy_snoc; auto.
Qed.

Lemma removeDeadEntities_extends state :
  extendsBy 5 (rs_events state) (rs_events (removeDeadEntities state)).
Proof.
  simpl. rewrite !app_assoc.
  repeat apply extendsBy_app; [apply extendsBy_refl| | |].
  - apply Forall_omap_events. intros q e. case_match; [|discriminate].
    by intros [= <-].
  - unfold destroyedCoreEvents. case_match; repeat constructor.
  - unfold destroyedCoreEvents. case_match; repeat constructor.
Qed.

Lemma closingEvents_phase turn0 wc :
  Forall (fun e => eventPhase e = 6%nat) (closingEvents turn0 wc).
Proof.
  unfold closingEvents. repeat apply Forall_app_2;
    repeat case_match; repeat constructor.
Qed.

(** X3. The log of a turn lists the events phase by phase: first those
    of the move phase, then the shield activations, then the pulse
    events, then the damage, then the destructions, and last the closing
    events (TerminalLoss, GameOver, Draw); no event of an earlier phase
    ever follows one of a later phase. *)
Theorem log_follows_phases state actionsA actionsB :
  exists moves shields pulses damage destroyed closing,
    log_events (res_log (resolveTurn state actionsA actionsB))
    = moves ++ shields ++ pulses ++ damage ++ destroyed ++ closing /\
    Forall (fun e => eventPhase e = 1%nat) moves /\
    Forall (fun e => eventPhase e = 2%nat) shields /\
    Forall (fun e => eventPhase e = 3%nat) pulses /\
    Forall (fun e => eventPhase e = 4%nat) damage /\
    Forall (fun e => eventPhase e = 5%nat) destroyed /\
    Forall (fun e => eventPhase e = 6%nat) closing /\
    rs_events (afterMoves state actionsA actionsB) = moves /\
    rs_events (afterPulses state actionsA actionsB)
    = moves ++ shields ++ pulses.
Proof.
  set (all := actionsA ++ actionsB).
  set (s0 := workingCopy state).
  destruct (resolveMoves_extends s0 all) as (moves & H1 & Hm).
  set (s1 := resolveMoves s0 all) in *.
  destruct (resolveShields_extends s1 all) as (shields & H2 & Hs).
  set (s2 := resolveShields s1 all) in *.
  destruct (resolvePulses_extends s2 all) as (pulses & H3 & Hp).
  set (s3 := resolvePulses s2 all) in *.
  destruct (applyDamage_extends s3) as (damage & H4 & Hd).
  set (s4 := applyDamage s3) in *.
  destruct (removeDeadEntities_extends s4) as (destroyed & H5 & Hx).
  exists moves, shields, pulses, damage, destroyed,
    (closingEvents (turn state) (checkWinCondition (removeDeadEntities s4))).
  assert (rs_events (afterMoves state actionsA actionsB) = moves) as HM
    by (exact H1).
  assert (rs_events (afterPulses state actionsA actionsB)
          = moves ++ shields ++ pulses) as HP.
  { change (rs_events s3 = moves ++ shields ++ pulses).
    rewrite H3, H2, H1. simpl. by rewrite <- app_assoc. }
  split; [|by auto 10 using closingEvents_phase].
  change (rs_events (removeDeadEntities s4)
          ++ closingEvents (turn state) (checkWinCondition (removeDeadEntities s4))
          = moves ++ shields ++ pulses ++ damage ++ destroyed
            ++ closingEvents (turn state)
                 (checkWinCondition (removeDeadEntities s4))).
  rewrite H5, H4. change (rs_events s3) with
    (rs_events (afterPulses state actionsA actionsB)). rewrite HP.
  by rewrite <- !app_assoc.
Qed.

(* ====================================================================== *)
(** ** Further properties: validation and resolution together *)
(* ====================================================================== *)

Lemma findFrom_fmap {X Y : Type} (f : X -> Y) (p : Y -> bool) l : forall i,
  findFrom p i (f <$> l)
  = (fun r => (r.1, f r.2)) <$> findFrom (fun v => p (f v)) i l.
Proof.
  induction l as [|v l IH]; intros i; simpl; [reflexivity|].
  destruct (p (f v)); [reflexivity|apply IH].
Qed.

(** Looking a Quantar up in the fresh working copy finds the Quantar
    [getQuantar] finds in the state. *)
Lemma getQuantarById_workingCopy state id :
  snd <$> getQuantarById (workingCopy state) id
  = toMutableQuantar <$> getQuantar state id.
Proof.
  unfold getQuantarById, getQuantar, find, workingCopy. simpl.
  rewrite findFrom_fmap. simpl. by destruct (findFrom _ 0 (quantars state)).
Qed.

Lemma asMove_elem (actions : list Action) id d :
  (id, d) ∈ omap asMove actions <-> MoveAction id d ∈ actions.
Proof.
  rewrite list_elem_of_omap. split.
  - intros (a & Ha & Hmove). destruct a; simpl in Hmove; try discriminate.
    by injection Hmove as -> ->.
  - intros Ha. by exists (MoveAction id d).
Qed.

Lemma filter_outOfBounds_extends (k : nat) base events :
  extendsBy k base events -> k <> 1%nat ->
  List.filter isOutOfBoundsBlock events = List.filter isOutOfBoundsBlock base.
Proof.
  intros (new & -> & Hnew) Hk. rewrite List.filter_app.
  assert (List.filter isOutOfBoundsBlock new = []) as ->;
    [|by rewrite app_nil_r].
  induction Hnew as [|e new He _ IH]; simpl; [reflexivity|].
  destruct e; simpl in *; try exact IH. congruence.
Qed.

Lemma filter_outOfBounds_omap {X : Type} (f : X -> option TurnEvent) l :
  (forall v e, f v = Some e -> isOutOfBoundsBlock e = false) ->
  List.filter isOutOfBoundsBlock (omap f l) = [].
Proof.
  intros Hf. induction l as [|v l IH]; simpl; [reflexivity|].
  destruct (f v) as [e|] eqn:Hv; [|exact IH]. simpl.
  by rewrite (Hf v e Hv).
Qed.

(** X4. Validation and resolution agree on the board's bounds: when both
    submissions are accepted by [validatePlayerActions], the log of the
    turn holds no MoveBlocked event with reason "out of bounds". *)
Theorem accepted_moves_stay_on_board state actionsA actionsB :
  validatePlayerActions state actionsA Player.A = ValidationSuccess ->
  validatePlayerActions state actionsB Player.B = ValidationSuccess ->
  List.filter isOutOfBoundsBlock
              (log_events (res_log (resolveTurn state actionsA actionsB)))
  = [].
Proof.
  intros HA HB.
  apply validatePlayerActions_accepts in HA as (_ & _ & HA & _).
  apply validatePlayerActions_accepts in HB as (_ & _ & HB & _).
  rewrite Forall_forall in HA, HB.
  change (log_events (res_log (resolveTurn state actionsA actionsB)))
    with (rs_events (runPhases state actionsA actionsB)
          ++ closingEvents (turn state)
               (checkWinCondition (runPhases state actionsA actionsB))).
  rewrite List.filter_app.
  assert (List.filter isOutOfBoundsBlock
            (closingEvents (turn state)
               (checkWinCondition (runPhases state actionsA actionsB))) = [])
    as ->.
  { unfold closingEvents. rewrite !List.filter_app.
    by repeat case_match. }
  rewrite app_nil_r. unfold runPhases, afterPulses, afterMoves.
  rewrite (filter_outOfBounds_extends _ _ _ (removeDeadEntities_extends _))
    by lia.
  rewrite (filter_outOfBounds_extends _ _ _ (applyDamage_extends _)) by lia.
  rewrite (filter_outOfBounds_extends _ _ _ (resolvePulses_extends _ _)) by lia.
  rewrite (filter_outOfBounds_extends _ _ _ (resolveShields_extends _ _)) by lia.
  rewrite resolveMoves_events. simpl. rewrite !List.filter_app.
  rewrite (filter_outOfBounds_omap (coreCollision _)).
  2:{ intros m e. unfold coreCollision. case_match; [|discriminate].
      by intros [= <-]. }
  rewrite (filter_outOfBounds_omap (finalReject _ _ _)).
  2:{ intros m e. unfold finalReject.
      repeat case_match; try discriminate; by intros [= <-]. }
  assert (forall l : list IntendedMove,
            List.filter isOutOfBoundsBlock
              ((fun m => EvMove (im_id m) (im_from m) (im_to m)) <$> l) = [])
    as -> by (induction l; simpl; auto).
  rewrite !app_nil_r.
  assert (omap (outOfBoundsEvent (workingCopy state))
               (omap asMove (actionsA ++ actionsB)) = []) as ->; [|reflexivity].
  assert (forall l, (forall a, a ∈ l ->
                       outOfBoundsEvent (workingCopy state) a = None) ->
                    omap (outOfBoundsEvent (workingCopy state)) l = []) as Hnil.
  { induction l as [|a l IH]; intros Hl; simpl; [reflexivity|].
    rewrite (Hl a) by constructor. apply IH. intros b Hb. apply Hl.
    by constructor. }
  apply Hnil. intros [id d] Hmove. apply asMove_elem in Hmove.
  assert (exists p, validateAction state (MoveAction id d) p
                    = ValidationSuccess) as [p Hok].
  { apply elem_of_app in Hmove as [Hin|Hin]; eauto. }
  apply validateAction_ok in Hok as (q & Hq & _ & Hhp & Hin).
  specialize (Hin d eq_refl). simpl in Hq.
  pose proof (getQuantarById_workingCopy state id) as Hfind.
  rewrite Hq in Hfind. unfold outOfBoundsEvent. cbn [fst snd].
  destruct (getQuantarById (workingCopy state) id) as [[ref mq]|];
    [|reflexivity].
  injection Hfind as ->. simpl.
  destruct (Z.leb_spec (q_hp q) 0); [lia|]. by rewrite Hin.
Qed.

Lemma accepted_moves_stay_on_board_witness :
  List.filter isOutOfBoundsBlock
    (log_events (res_log (resolveTurn createInitialState
                            [MoveAction "A1" West; MoveAction "A2" North;
                             ShieldAction "A3"] allShieldB)))
  = [].
Proof.
  apply accepted_moves_stay_on_board; vm_compute; reflexivity.
Defined.

(* ====================================================================== *)
(** ** Further properties: what a turn does to the pieces *)
(* ====================================================================== *)

Lemma setPosition_setPosition p p' q :
  setPosition p (setPosition p' q) = setPosition p q.
Proof. reflexivity. Qed.

Lemma applyMoves_lookup moves : forall state (i : nat) q',
  rs_quantars (foldl applyMove state moves) !! i = Some q' ->
  exists q, rs_quantars state !! i = Some q /\
            (q' = q \/
             exists m, m ∈ moves /\ im_quantar m = i /\
                       q' = setPosition (im_to m) q).
Proof.
  induction moves as [|m moves IH]; intros state i q' Hq'; simpl in *.
  - eauto.
  - apply IH in Hq' as (q1 & Hq1 & Hcase). simpl in Hq1.
    destruct (decide (i = im_quantar m)) as [->|Hne].
    + rewrite list_lookup_alter_eq in Hq1.
      destruct (rs_quantars state !! im_quantar m) as [q|] eqn:Hq;
        [|discriminate].
      injection Hq1 as <-. exists q. split; [reflexivity|]. right.
      destruct Hcase as [->|(m' & Hm' & Hi & ->)].
      * exists m. split; [constructor|auto].
      * exists m'. split; [by constructor|]. split; [exact Hi|].
        apply setPosition_setPosition.
    + rewrite list_lookup_alter_ne in Hq1 by congruence.
      exists q1. split; [exact Hq1|].
      destruct Hcase as [->|(m' & Hm' & Hi & ->)]; [by left|right].
      exists m'. split; [by constructor|auto].
Qed.

Lemma applyMoves_length moves : forall state,
  length (rs_quantars (foldl applyMove state moves))
  = length (rs_quantars state).
Proof.
  induction moves as [|m moves IH]; intros state; simpl; [reflexivity|].
  rewrite IH. simpl. apply length_alter.
Qed.

(** A move that is applied comes from a Move action of a live Quantar
    and leads to a cell of the board that is not a Core's. *)
Lemma finalMovesOf_elem state actions m :
  m ∈ finalMovesOf state actions ->
  exists q d,
    rs_quantars state !! im_quantar m = Some q /\ 0 < mq_hp q /\
    im_from m = mq_position q /\
    im_to m = applyDirection (mq_position q) d /\
    isInBounds (im_to m) = true /\
    im_to m <> mc_position (rs_cores_A state) /\
    im_to m <> mc_position (rs_cores_B state).
Proof.
  rewrite finalMovesOf_spec. intros Hm.
  apply list_elem_of_In, filter_In in Hm as [Hm _].
  rewrite validMovesOf_spec in Hm. apply filter_In in Hm as [Hm Hcore].
  apply list_elem_of_In, list_elem_of_omap in Hm as ([id d] & _ & Hintend).
  unfold intendOf in Hintend. cbn [fst snd] in Hintend.
  destruct (getQuantarById state id) as [[ref q]|] eqn:Hfind; [|discriminate].
  destruct (Z.leb_spec (mq_hp q) 0) as [|Hhp]; [discriminate|].
  destruct (isInBounds (applyDirection (mq_position q) d)) eqn:Hin;
    [|discriminate].
  injection Hintend as <-. simpl in *.
  apply find_Some in Hfind as (Hl & _).
  apply negb_true_iff, orb_false_iff in Hcore as [HA HB].
  apply positionsEqual_neq in HA, HB.
  exists q, d. auto 10.
Qed.

Lemma resolveMoves_lookup state actions (i : nat) q' :
  rs_quantars (resolveMoves state actions) !! i = Some q' ->
  exists q, rs_quantars state !! i = Some q /\
    (q' = q \/
     exists d, q' = setPosition (applyDirection (mq_position q) d) q /\
               isInBounds (applyDirection (mq_position q) d) = true /\
               applyDirection (mq_position q) d
               <> mc_position (rs_cores_A state) /\
               applyDirection (mq_position q) d
               <> mc_position (rs_cores_B state)).
Proof.
  destruct (resolveMoves_unfold state actions) as [events1 ->]. intros Hq'.
  apply applyMoves_lookup in Hq' as (q & Hq & Hcase). simpl in Hq.
  exists q. split; [exact Hq|].
  destruct Hcase as [->|(m & Hm & Hi & ->)]; [by left|right].
  apply finalMovesOf_elem in Hm as (q0 & d & Hq0 & _ & _ & Hto & Hin & HA & HB).
  rewrite Hi, Hq in Hq0. injection Hq0 as <-. rewrite Hto in *.
  exists d. auto.
Qed.

Lemma resolveMoves_length state actions :
  length (rs_quantars (resolveMoves state actions))
  = length (rs_quantars state).
Proof.
  destruct (resolveMoves_unfold state actions) as [events1 ->].
  by rewrite applyMoves_length.
Qed.

Lemma resolveMoves_pending state actions :
  Forall (fun q => 0 <= mq_pendingDamage q) (rs_quantars state) ->
  Forall (fun q => 0 <= mq_pendingDamage q)
         (rs_quantars (resolveMoves state actions)).
Proof.
  intros Hstate. rewrite Forall_lookup in Hstate |- *. intros i q' Hq'.
  apply resolveMoves_lookup in Hq' as (q & Hq & [->|(d & -> & _)]);
    simpl; exact (Hstate i q Hq).
Qed.

Lemma Forall_alter_pending (f : MutableQuantar -> MutableQuantar) (i : nat)
  (l : list MutableQuantar) :
  (forall q, mq_pendingDamage q <= mq_pendingDamage (f q)) ->
  Forall (fun q => 0 <= mq_pendingDamage q) l ->
  Forall (fun q => 0 <= mq_pendingDamage q) (alter f i l).
Proof.
  intros Hf Hl. rewrite Forall_lookup in Hl |- *. intros j q' Hq'.
  destruct (decide (j = i)) as [->|Hne].
  - rewrite list_lookup_alter_eq in Hq'.
    destruct (l !! i) as [q|] eqn:Hq; [|discriminate].
    injection Hq' as <-. specialize (Hl i q Hq). specialize (Hf q). lia.
  - rewrite list_lookup_alter_ne in Hq' by congruence. by eapply Hl.
Qed.

Lemma afterPulses_pending state actionsA actionsB :
  Forall (fun q => 0 <= mq_pendingDamage q)
         (rs_quantars (afterPulses state actionsA actionsB)).
Proof.
  unfold afterPulses, afterMoves, resolvePulses, resolveShields.
  apply (foldl_preserves
           (fun s => Forall (fun q => 0 <= mq_pendingDamage q) (rs_quantars s))).
  { intros s a Hs. unfold pulseStep.
    destruct (getQuantarById s a.1) as [[ref q]|]; [|exact Hs].
    destruct (mq_hp q <=? 0); [exact Hs|].
    unfold applyHit. destruct (findHitTarget _ _ _) as [[i e|slot e]|]; simpl;
      try exact Hs; [|by destruct slot].
    apply Forall_alter_pending; [|exact Hs].
    intros q0. simpl. unfold PULSE_DAMAGE. lia. }
  apply (foldl_preserves
           (fun s => Forall (fun q => 0 <= mq_pendingDamage q) (rs_quantars s))).
  { intros s id Hs. unfold shieldStep.
    destruct (getQuantarById s id) as [[ref q]|]; [|exact Hs].
    destruct (mq_hp q <=? 0); [exact Hs|]. simpl.
    apply Forall_alter_pending; [|exact Hs]. intros q0. simpl. lia. }
  apply resolveMoves_pending. simpl. apply Forall_fmap.
  apply Forall_true. intros q. simpl. lia.
Qed.

Lemma actualDamageOf_nonneg q : 0 <= mq_pendingDamage q -> 0 <= actualDamageOf q.
Proof. unfold actualDamageOf. destruct (mq_shielded q); lia. Qed.

(** Every Quantar of the input state, after phases 1 to 4 and before the
    dead are removed. *)
Lemma damaged_quantars state actionsA actionsB :
  Forall2 (turnStep (c_position (cores_A state)) (c_position (cores_B state)))
          (quantars state)
          (toImmutableQuantar
             <$> rs_quantars (applyDamage (afterPulses state actionsA actionsB))).
Proof.
  set (moved := afterMoves state actionsA actionsB).
  assert (quantarView (afterPulses state actionsA actionsB) = quantarView moved)
    as Hview.
  { unfold afterPulses, resolvePulses.
    rewrite (proj1 (pulseSteps_view _ _)).
    by rewrite (proj1 (resolveShields_view _ _)). }
  pose proof (afterPulses_pending state actionsA actionsB) as Hpending.
  apply Forall2_same_length_lookup. split.
  { rewrite length_fmap, applyDamage_quantars, length_fmap.
    apply (f_equal length) in Hview. unfold quantarView in Hview.
    rewrite !length_fmap in Hview. rewrite Hview. unfold moved, afterMoves.
    rewrite resolveMoves_length. simpl. by rewrite length_fmap. }
  intros i qi qf Hqi Hqf.
  rewrite applyDamage_quantars, !list_lookup_fmap in Hqf.
  destruct (rs_quantars (afterPulses state actionsA actionsB) !! i)
    as [q3|] eqn:Hq3; [|discriminate].
  simpl in Hqf. injection Hqf as <-.
  rewrite Forall_lookup in Hpending. specialize (Hpending i q3 Hq3).
  pose proof (actualDamageOf_nonneg q3 Hpending) as Hdamage.
  apply (f_equal (fun l => l !! i)) in Hview. unfold quantarView in Hview.
  rewrite !list_lookup_fmap, Hq3 in Hview. simpl in Hview.
  destruct (rs_quantars moved !! i) as [q1|] eqn:Hq1; [|discriminate].
  injection Hview as Hid Hown Hpos Hhp3.
  apply resolveMoves_lookup in Hq1 as (q0 & Hq0 & Hcase). simpl in Hq0, Hcase.
  rewrite list_lookup_fmap, Hqi in Hq0. injection Hq0 as <-.
  assert (toImmutableQuantar
            (if mq_pendingDamage q3 >? 0 then damagedQuantar q3 else q3)
          = mkQuantar (mq_id q1) (mq_owner q1) (mq_position q1)
              (if mq_pendingDamage q3 >? 0
               then mq_hp q1 - actualDamageOf q3 else mq_hp q1)) as ->.
  { destruct (mq_pendingDamage q3 >? 0);
      unfold toImmutableQuantar, damagedQuantar; simpl;
      by rewrite Hid, Hown, Hpos, Hhp3. }
  assert ((if mq_pendingDamage q3 >? 0
           then mq_hp q1 - actualDamageOf q3 else mq_hp q1) <= mq_hp q1) as Hhp
    by (destruct (mq_pendingDamage q3 >? 0); lia).
  unfold turnStep. simpl.
  destruct Hcase as [->|(d & -> & Hin & HA & HB)]; simpl.
  - repeat split; auto.
  - repeat split; auto. right. exists d. auto.
Qed.

Lemma Forall2_filter_sublist {X Y : Type} (R : X -> Y -> Prop)
  (P : Y -> bool) l k :
  Forall2 R l k ->
  exists kept, kept `sublist_of` l /\ Forall2 R kept (List.filter P k).
Proof.
  induction 1 as [|x y l k Hxy _ (kept & Hsub & Hkept)]; simpl.
  - exists []. split; constructor.
  - destruct (P y).
    + exists (x :: kept). split; [by apply sublist_skip|by constructor].
    + exists kept. split; [by apply sublist_cons|exact Hkept].
Qed.

Lemma filter_fmap_alive (l : list MutableQuantar) :
  toImmutableQuantar <$> List.filter (fun q => mq_hp q >? 0) l
  = List.filter (fun q => q_hp q >? 0) (toImmutableQuantar <$> l).
Proof.
  induction l as [|q l IH]; [reflexivity|].
  rewrite fmap_cons. cbn [List.filter].
  change (q_hp (toImmutableQuantar q)) with (mq_hp q).
  destruct (mq_hp q >? 0); rewrite ?fmap_cons, IH; reflexivity.
Qed.

(** Every Quantar of a returned state comes from one of the input state. *)
Lemma returned_quantar_origin state actionsA actionsB qf :
  qf ∈ quantars (res_state (resolveTurn state actionsA actionsB)) ->
  0 < q_hp qf /\
  exists qi, qi ∈ quantars state /\
             turnStep (c_position (cores_A state))
                      (c_position (cores_B state)) qi qf.
Proof.
  change (quantars (res_state (resolveTurn state actionsA actionsB)))
    with (toImmutableQuantar
            <$> List.filter (fun q => mq_hp q >? 0)
                  (rs_quantars (applyDamage
                                  (afterPulses state actionsA actionsB)))).
  rewrite filter_fmap_alive. intros Hqf.
  apply list_elem_of_In, filter_In in Hqf as [Hqf Hhp]. split; [lia|].
  apply list_elem_of_In, list_elem_of_lookup in Hqf as [i Hqf].
  pose proof (damaged_quantars state actionsA actionsB) as Hall.
  destruct (Forall2_lookup_r _ _ _ _ _ Hall Hqf) as (qi & Hqi & Hstep).
  exists qi. split; [|exact Hstep]. apply list_elem_of_lookup. eauto.
Qed.

Lemma returned_core state actionsA actionsB p :
  let before := getPlayerCore state p in
  let after := getPlayerCore (res_state (resolveTurn state actionsA actionsB)) p in
  c_owner after = c_owner before /\
  c_position after = c_position before /\
  c_hp after <= c_hp before.
Proof.
  intros before after.
  destruct (afterPulses_core state actionsA actionsB p) as [Hview Hpending].
  assert (after = toImmutableCore
                    (rsCore (applyDamage (afterPulses state actionsA actionsB)) p))
    as -> by (by destruct p).
  rewrite applyDamage_core. fold before in Hview. rewrite <- Hview.
  unfold coreView, damageCore.
  destruct (mc_pendingDamage _ >? 0); simpl; repeat split; lia.
Qed.

(** X5. The Quantars of a returned state are Quantars of the input
    state, in the same order, none added and none twice: each keeps its
    id and owner, has at most the hp it had, and stands on the cell it
    stood on or one step away from it, on a cell of the board that is not
    a Core's. *)
Theorem roster_only_shrinks state actionsA actionsB :
  exists kept,
    kept `sublist_of` quantars state /\
    Forall2 (turnStep (c_position (cores_A state)) (c_position (cores_B state)))
            kept
            (quantars (res_state (resolveTurn state actionsA actionsB))).
Proof.
  change (quantars (res_state (resolveTurn state actionsA actionsB)))
    with (toImmutableQuantar
            <$> List.filter (fun q => mq_hp q >? 0)
                  (rs_quantars (applyDamage
                                  (afterPulses state actionsA actionsB)))).
  rewrite filter_fmap_alive. apply Forall2_filter_sublist.
  apply damaged_quantars.
Qed.

(** X6. A turn keeps the Quantars on the board and off the Cores: if
    every Quantar of the input state is in bounds, so is every Quantar of
    the returned state, and if none stands on a Core's cell, none does
    afterwards. *)
Theorem quantars_stay_on_board state actionsA actionsB :
  let final := res_state (resolveTurn state actionsA actionsB) in
  (Forall (fun q => isInBounds (q_position q) = true) (quantars state) ->
   Forall (fun q => isInBounds (q_position q) = true) (quantars final)) /\
  (Forall (fun q => q_position q <> c_position (cores_A state) /\
                    q_position q <> c_position (cores_B state))
          (quantars state) ->
   Forall (fun q => q_position q <> c_position (cores_A final) /\
                    q_position q <> c_position (cores_B final))
          (quantars final)).
Proof.
  intros final.
  assert (c_position (cores_A final) = c_position (cores_A state) /\
          c_position (cores_B final) = c_position (cores_B state))
    as [HcA HcB].
  { pose proof (afterPulses_core state actionsA actionsB Player.A) as [HA _].
    pose proof (afterPulses_core state actionsA actionsB Player.B) as [HB _].
    unfold coreView in HA, HB. simpl in HA, HB.
    apply (f_equal c_position) in HA, HB. simpl in HA, HB.
    unfold final. simpl. rewrite <- HA, <- HB.
    pose proof (applyDamage_core (afterPulses state actionsA actionsB) Player.A)
      as HdA.
    pose proof (applyDamage_core (afterPulses state actionsA actionsB) Player.B)
      as HdB.
    simpl in HdA, HdB. rewrite HdA, HdB. unfold damageCore.
    split; by repeat case_match. }
  rewrite HcA, HcB.
  assert (forall qf, qf ∈ quantars final ->
            exists qi, qi ∈ quantars state /\
              turnStep (c_position (cores_A state))
                       (c_position (cores_B state)) qi qf) as Hfrom.
  { intros qf Hqf. by apply returned_quantar_origin in Hqf as [_ Hqf]. }
  split; intros Hstate; rewrite Forall_forall in Hstate |- *; intros qf Hqf.
  - destruct (Hfrom qf Hqf) as (qi & Hqi & _ & _ & _ & [->|(d & _ & Hin & _)]);
      auto.
  - destruct (Hfrom qf Hqf)
      as (qi & Hqi & _ & _ & _ & [->|(d & _ & _ & HA & HB)]); auto.
Qed.

Lemma quantars_stay_on_board_witness :
  Forall (fun q => isInBounds (q_position q) = true)
         (quantars (res_state (resolveTurn createInitialState
                                 [MoveAction "A1" West; MoveAction "A2" North;
                                  ShieldAction "A3"] allShieldB))).
Proof.
  apply (proj1 (quantars_stay_on_board createInitialState
                  [MoveAction "A1" West; MoveAction "A2" North;
                   ShieldAction "A3"] allShieldB)).
  vm_compute. repeat constructor.
Defined.

(** X7. A turn never moves a Core, never changes its owner and never
    raises its hp. *)
Theorem cores_stay_put state actionsA actionsB p :
  let before := getPlayerCore state p in
  let after := getPlayerCore (res_state (resolveTurn state actionsA actionsB)) p in
  c_owner after = c_owner before /\
  c_position after = c_position before /\
  c_hp after <= c_hp before.
Proof. exact (returned_core state actionsA actionsB p). Qed.

(* ====================================================================== *)
(** ** Further properties: the rules of the move phase *)
(* ====================================================================== *)

Lemma elem_of_finalMovesOf state actions m :
  m ∈ finalMovesOf state actions <->
  m ∈ validMovesOf state actions /\
  finalReject state (countDestinations (validMovesOf state actions))
              (indexMoves (validMovesOf state actions)) m = None.
Proof.
  rewrite finalMovesOf_spec, !list_elem_of_In, filter_In.
  by rewrite bool_decide_eq_true.
Qed.

Lemma finalReject_logged state actions m e :
  m ∈ validMovesOf state actions ->
  finalReject state (countDestinations (validMovesOf state actions))
              (indexMoves (validMovesOf state actions)) m = Some e ->
  (m ∉ finalMovesOf state actions) /\
  (e ∈ rs_events (resolveMoves state actions)).
Proof.
  intros Hm Hreject. split.
  - rewrite elem_of_finalMovesOf. intros [_ Hnone]. congruence.
  - rewrite resolveMoves_events.
    apply elem_of_app. right. apply elem_of_app. right.
    apply elem_of_app. right. apply elem_of_app. left.
    apply list_elem_of_omap. eauto.
Qed.

(** X8. Head-on collisions: when two or more valid moves (in bounds, not
    onto a Core) lead to the same cell, every one of them is dropped and
    a MoveBlocked event with reason "collision with another Quantar" is
    logged for it. *)
Theorem contested_moves_blocked state actions move :
  move ∈ validMovesOf state actions ->
  (2 <= length (List.filter (fun m => bool_decide (im_to m = im_to move))
                            (validMovesOf state actions)))%nat ->
  (move ∉ finalMovesOf state actions) /\
  (EvMoveBlocked (im_id move) (im_from move) (im_direction move)
                 "collision with another Quantar"
   ∈ rs_events (resolveMoves state actions)).
Proof.
  intros Hm Hcount. apply finalReject_logged; [exact Hm|].
  unfold finalReject. rewrite countDestinations_lookup.
  destruct (Z.gtb_spec (Z.of_nat (length (List.filter
              (fun m => bool_decide (im_to m = im_to move))
              (validMovesOf state actions)))) 1); [reflexivity|lia].
Qed.

Lemma contested_moves_blocked_witness :
  EvMoveBlocked "A1" (mkPosition 3 5) East "collision with another Quantar"
  ∈ rs_events (resolveMoves (workingCopy flankState)
                            (flankActions ++ allShieldB)).
Proof.
  refine (proj2 (contested_moves_blocked (workingCopy flankState)
                   (flankActions ++ allShieldB)
                   (mkIntendedMove 0 "A1" (mkPosition 3 5) (mkPosition 4 5) East)
                   _ _)).
  - vm_compute. constructor.
  - vm_compute. lia.
Defined.

Lemma indexMoves_from_last (l : list IntendedMove) id m :
  forall byId : gmap string IntendedMove,
  Forall (fun m' => im_id m' <> id) l ->
  byId !! id = Some m ->
  foldl (fun byId move => <[ im_id move := move ]> byId) byId l !! id = Some m.
Proof.
  induction l as [|m' l IH]; intros byId Hl Hm; simpl; [exact Hm|].
  inversion Hl as [|? ? Hm' Hrest]; subst.
  apply IH; [exact Hrest|]. by rewrite lookup_insert_ne.
Qed.

(** [movesByQuantar.get(id)] is the last valid move of that Quantar. *)
Lemma indexMoves_lookup_last before m after :
  Forall (fun m' => im_id m' <> im_id m) after ->
  indexMoves (before ++ m :: after) !! im_id m = Some m.
Proof.
  intros Hafter. unfold indexMoves. rewrite foldl_app. simpl.
  apply indexMoves_from_last; [exact Hafter|]. apply lookup_insert_eq.
Qed.

(** X9. Swaps: when the destination of an uncontested valid move holds
    exactly one live Quantar other than the mover, and that Quantar's own
    (last) valid move leads to the mover's origin, the mover's move is
    dropped and a MoveBlocked event with reason "swap collision" is
    logged for it.  (The occupant's move meets the same check from its
    side.) *)
Theorem swapping_moves_blocked state actions move occupant
  before occupantMove after :
  move ∈ validMovesOf state actions ->
  uncontested (validMovesOf state actions) move ->
  loneOccupant state move occupant ->
  validMovesOf state actions = before ++ occupantMove :: after ->
  im_id occupantMove = mq_id occupant ->
  Forall (fun m => im_id m <> mq_id occupant) after ->
  im_to occupantMove = im_from move ->
  (move ∉ finalMovesOf state actions) /\
  (EvMoveBlocked (im_id move) (im_from move) (im_direction move)
                 "swap collision"
   ∈ rs_events (resolveMoves state actions)).
Proof.
  intros Hm Hone Hlone Hsplit Hid Hafter Hswap.
  pose proof (loneOccupant_occupantOf _ _ _ Hlone) as Hocc.
  apply finalReject_logged; [exact Hm|].
  unfold finalReject, occupantOf in *.
  rewrite countDestinations_lookup, Hone. change (Z.of_nat 1 >? 1) with false.
  cbv iota.
  destruct (find _ _) as [[ref q]|]; [|discriminate].
  injection Hocc as ->. rewrite Hsplit, <- Hid.
  rewrite indexMoves_lookup_last by (by rewrite Hid).
  rewrite Hswap.
  assert (positionsEqual (im_from move) (im_from move) = true) as ->
    by (by apply positionsEqual_eq).
  reflexivity.
Qed.

Lemma swapping_moves_blocked_witness :
  EvMoveBlocked "A1" (mkPosition 3 6) East "swap collision"
  ∈ rs_events (resolveMoves (workingCopy createInitialState)
                 [MoveAction "A1" East; MoveAction "A2" West]).
Proof.
  refine (proj2 (swapping_moves_blocked (workingCopy createInitialState)
                   [MoveAction "A1" East; MoveAction "A2" West]
                   (mkIntendedMove 0 "A1" (mkPosition 3 6) (mkPosition 4 6) East)
                   (mkMutableQuantar "A2" Player.A (mkPosition 4 6) 2 false 0)
                   [mkIntendedMove 0 "A1" (mkPosition 3 6) (mkPosition 4 6) East]
                   (mkIntendedMove 1 "A2" (mkPosition 4 6) (mkPosition 3 6) West)
                   [] _ _ _ _ _ _ _)).
  - vm_compute. constructor.
  - vm_compute. reflexivity.
  - split; [vm_compute; set_solver|]. split; [simpl; lia|].
    split; [discriminate|]. split; [reflexivity|].
    intros q Hq Hhp Hid Hat. vm_compute in Hq.
    repeat (apply elem_of_cons in Hq as [->|Hq]);
      try discriminate; try reflexivity; try (by apply elem_of_nil in Hq).
  - vm_compute. reflexivity.
  - reflexivity.
  - constructor.
  - reflexivity.
Defined.

(** X10. A Move of a live Quantar towards a cell off the board logs
    MoveBlocked "out of bounds", and an in-bounds Move onto a Core's cell
    logs MoveBlocked "blocked by Core"; neither is applied: every move
    that is applied leads to a cell of the board that is not a Core's. *)
Theorem moves_off_board_or_onto_core state actions :
  (forall id d (ref : nat) q,
     MoveAction id d ∈ actions ->
     getQuantarById state id = Some (ref, q) -> 0 < mq_hp q ->
     isInBounds (applyDirection (mq_position q) d) = false ->
     EvMoveBlocked (mq_id q) (mq_position q) d "out of bounds"
     ∈ rs_events (resolveMoves state actions)) /\
  (forall id d (ref : nat) q,
     MoveAction id d ∈ actions ->
     getQuantarById state id = Some (ref, q) -> 0 < mq_hp q ->
     isInBounds (applyDirection (mq_position q) d) = true ->
     applyDirection (mq_position q) d = mc_position (rs_cores_A state) \/
     applyDirection (mq_position q) d = mc_position (rs_cores_B state) ->
     EvMoveBlocked (mq_id q) (mq_position q) d "blocked by Core"
     ∈ rs_events (resolveMoves state actions)) /\
  Forall (fun m => isInBounds (im_to m) = true /\
                   im_to m <> mc_position (rs_cores_A state) /\
                   im_to m <> mc_position (rs_cores_B state))
         (finalMovesOf state actions).
Proof.
  split; [|split].
  - intros id d ref q Hin Hfind Hhp Hout. rewrite resolveMoves_events.
    apply elem_of_app. right. apply elem_of_app. left.
    apply list_elem_of_omap. exists (id, d). split; [by apply asMove_elem|].
    unfold outOfBoundsEvent. cbn [fst snd]. rewrite Hfind.
    destruct (Z.leb_spec (mq_hp q) 0); [lia|]. by rewrite Hout.
  - intros id d ref q Hin Hfind Hhp Hon Hcore. rewrite resolveMoves_events.
    apply elem_of_app. right. apply elem_of_app. right.
    apply elem_of_app. left. apply list_elem_of_omap.
    exists (mkIntendedMove ref (mq_id q) (mq_position q)
              (applyDirection (mq_position q) d) d). split.
    + unfold intendedMovesOf. rewrite intendedMoves_from. simpl.
      apply list_elem_of_omap. exists (id, d).
      split; [by apply asMove_elem|].
      unfold intendOf. cbn [fst snd]. rewrite Hfind.
      destruct (Z.leb_spec (mq_hp q) 0); [lia|]. by rewrite Hon.
    + unfold coreCollision. simpl.
      assert (positionsEqual (applyDirection (mq_position q) d)
                             (mc_position (rs_cores_A state))
              || positionsEqual (applyDirection (mq_position q) d)
                                (mc_position (rs_cores_B state)) = true) as ->;
        [|reflexivity].
      apply orb_true_iff.
      destruct Hcore as [H|H]; [left|right]; by apply positionsEqual_eq.
  - rewrite Forall_forall. intros m Hm.
    apply finalMovesOf_elem in Hm as (q & d & _ & _ & _ & _ & Hin & HA & HB).
    auto.
Qed.

Lemma moves_off_board_or_onto_core_witness :
  EvMoveBlocked "A1" (mkPosition 4 1) North "blocked by Core"
  ∈ rs_events (resolveMoves (workingCopy (duel 5)) [MoveAction "A1" North]).
Proof.
  refine (proj1 (proj2 (moves_off_board_or_onto_core (workingCopy (duel 5))
                          [MoveAction "A1" North]))
                "A1" North 0%nat
                (mkMutableQuantar "A1" Player.A (mkPosition 4 1) 1 false 0)
                _ _ _ _ _).
  - constructor.
  - vm_compute. reflexivity.
  - simpl. lia.
  - vm_compute. reflexivity.
  - right. vm_compute. reflexivity.
Defined.

(** X11. [destinationCounts] holds, under the key of a cell, the number
    of valid moves that lead to that cell, and has no entry for a cell no
    valid move leads to: the string key ["x,y"] identifies the cell. *)
Theorem destinationCounts_per_cell (validMoves : list IntendedMove) cell :
  countDestinations validMoves !! destKey cell
  = (let n := length (List.filter (fun m => bool_decide (im_to m = cell))
                                  validMoves) in
     if Nat.eqb n 0 then None else Some (Z.of_nat n)).
Proof.
  unfold countDestinations.
  assert (forall (l : list IntendedMove) (counts : gmap string Z),
            foldl (fun counts move =>
                     let key := destKey (im_to move) in
                     <[ key := default 0 (counts !! key) + 1 ]> counts)
                  counts l !! destKey cell
            = (let n := length (List.filter
                                  (fun m => bool_decide (im_to m = cell)) l) in
               if Nat.eqb n 0 then counts !! destKey cell
               else Some (default 0 (counts !! destKey cell) + Z.of_nat n)))
    as Hfrom.
  { induction l as [|m l IH]; intros counts; [reflexivity|].
    cbn [foldl List.filter]. rewrite IH. clear IH.
    destruct (decide (im_to m = cell)) as [Heq|Hne].
    - rewrite bool_decide_eq_true_2 by exact Heq. subst cell.
      rewrite lookup_insert_eq. cbn zeta. cbn [length default Nat.eqb].
      destruct (length _) as [|n]; cbn [Nat.eqb default]; unfold id;
        f_equal; lia.
    - rewrite bool_decide_eq_false_2 by exact Hne.
      rewrite lookup_insert_ne; [reflexivity|].
      intros Hkey. by apply destKey_inj in Hkey. }
  rewrite Hfrom, lookup_empty. cbn zeta. cbn [default].
  destruct (length _); cbn [Nat.eqb]; [reflexivity|]. f_equal.
Qed.

(* ====================================================================== *)
(** ** Further properties: removal of the dead *)
(* ====================================================================== *)

Lemma extendsBy_below (k n : nat) base events :
  extendsBy k base events -> (k < n)%nat ->
  Forall (fun e => (eventPhase e < n)%nat) base ->
  Forall (fun e => (eventPhase e < n)%nat) events.
Proof.
  intros (new & -> & Hnew) Hk Hbase. apply Forall_app. split; [exact Hbase|].
  eapply Forall_impl; [exact Hnew|]. simpl. intros e ->. exact Hk.
Qed.

(** Nothing is reported destroyed before phase 5. *)
Lemma damaged_events_phases state actionsA actionsB :
  Forall (fun e => (eventPhase e < 5)%nat)
         (rs_events (applyDamage (afterPulses state actionsA actionsB))).
Proof.
  eapply extendsBy_below; [apply applyDamage_extends|lia|].
  eapply extendsBy_below; [apply resolvePulses_extends|lia|].
  eapply extendsBy_below; [apply resolveShields_extends|lia|].
  eapply extendsBy_below; [apply resolveMoves_extends|lia|].
  constructor.
Qed.

Lemma damaged_ids state actionsA actionsB :
  mq_id <$> rs_quantars (applyDamage (afterPulses state actionsA actionsB))
  = q_id <$> quantars state.
Proof.
  pose proof (damaged_quantars state actionsA actionsB) as Hstep.
  revert Hstep.
  generalize (rs_quantars (applyDamage (afterPulses state actionsA actionsB))).
  generalize (quantars state).
  intros before after. revert after.
  induction before as [|q before IH]; intros [|q' after] Hstep;
    inversion Hstep as [|? ? ? ? Hq Hrest]; subst; [reflexivity|].
  rewrite !fmap_cons. f_equal; [apply Hq|by apply IH].
Qed.

Lemma damaged_core state actionsA actionsB p :
  let core := rsCore (applyDamage (afterPulses state actionsA actionsB)) p in
  mc_owner core = c_owner (getPlayerCore state p).
Proof.
  intros core. unfold core.
  destruct (afterPulses_core state actionsA actionsB p) as [Hview _].
  rewrite applyDamage_core, <- Hview. unfold coreView, damageCore.
  by destruct (mc_pendingDamage _ >? 0).
Qed.

Lemma destroyed_in_log state actionsA actionsB id kind :
  let damaged := applyDamage (afterPulses state actionsA actionsB) in
  EvEntityDestroyed id kind
  ∈ log_events (res_log (resolveTurn state actionsA actionsB)) <->
  EvEntityDestroyed id kind
  ∈ destroyedQuantarEvents (rs_quantars damaged)
    ++ destroyedCoreEvents (rs_cores_A damaged)
    ++ destroyedCoreEvents (rs_cores_B damaged).
Proof.
  intros damaged.
  change (log_events (res_log (resolveTurn state actionsA actionsB)))
    with ((rs_events damaged
           ++ destroyedQuantarEvents (rs_quantars damaged)
           ++ destroyedCoreEvents (rs_cores_A damaged)
           ++ destroyedCoreEvents (rs_cores_B damaged))
          ++ closingEvents (turn state)
               (checkWinCondition (removeDeadEntities damaged))).
  rewrite !elem_of_app. split; [|tauto].
  intros [[Hearly|H]|Hclosing]; [|tauto|].
  - pose proof (damaged_events_phases state actionsA actionsB) as Hphases.
    rewrite Forall_forall in Hphases. apply Hphases in Hearly.
    simpl in Hearly. lia.
  - pose proof (closingEvents_phase (turn state)
                  (checkWinCondition (removeDeadEntities damaged))) as Hphases.
    rewrite Forall_forall in Hphases. apply Hphases in Hclosing.
    discriminate.
Qed.

Lemma elem_of_destroyedQuantarEvents (qs : list MutableQuantar) id kind :
  EvEntityDestroyed id kind ∈ destroyedQuantarEvents qs <->
  kind = EntityQuantar /\ exists q, q ∈ qs /\ mq_id q = id /\ mq_hp q <= 0.
Proof.
  unfold destroyedQuantarEvents. rewrite list_elem_of_omap. split.
  - intros (q & Hq & Hev). destruct (Z.leb_spec (mq_hp q) 0); [|discriminate].
    injection Hev as <- <-. eauto.
  - intros (-> & q & Hq & <- & Hhp). exists q. split; [exact Hq|].
    by destruct (Z.leb_spec (mq_hp q) 0); [|lia].
Qed.

Lemma elem_of_destroyedCoreEvents core id kind :
  EvEntityDestroyed id kind ∈ destroyedCoreEvents core <->
  kind = EntityCore /\ id = "core_" +:+ playerName (mc_owner core) /\
  mc_hp core <= 0.
Proof.
  unfold destroyedCoreEvents.
  destruct (Z.leb_spec (mc_hp core) 0).
  - rewrite list_elem_of_singleton. split.
    + by intros [= -> ->].
    + by intros (-> & -> & _).
  - rewrite elem_of_nil. split; [tauto|]. intros (_ & _ & ?). lia.
Qed.

Lemma NoDup_fmap_elem {X Y : Type} (f : X -> Y) (l : list X) x y :
  NoDup (f <$> l) -> x ∈ l -> y ∈ l -> f x = f y -> x = y.
Proof.
  intros Hnd Hx Hy Hf.
  apply list_elem_of_lookup in Hx as [i Hi], Hy as [j Hj].
  assert (i = j) as ->; [|congruence].
  apply (NoDup_lookup (f <$> l) i j (f x)); [exact Hnd| |];
    rewrite list_lookup_fmap; [by rewrite Hi|by rewrite Hj, Hf].
Qed.

(** X12. Every Quantar of the input state is either in the returned state
    or reported by an EntityDestroyed event of the log, and the log
    reports no other Quantar; with distinct ids, never both.  A Core is
    reported destroyed exactly when it is returned with hp <= 0 (it stays
    in the state). *)
Theorem quantars_returned_or_destroyed state actionsA actionsB :
  let r := resolveTurn state actionsA actionsB in
  (forall id,
     id ∈ q_id <$> quantars state <->
     id ∈ q_id <$> quantars (res_state r) \/
     EvEntityDestroyed id EntityQuantar ∈ log_events (res_log r)) /\
  (NoDup (q_id <$> quantars state) ->
   forall id,
     id ∈ q_id <$> quantars (res_state r) ->
     EvEntityDestroyed id EntityQuantar ∉ log_events (res_log r)) /\
  (forall id,
     EvEntityDestroyed id EntityCore ∈ log_events (res_log r) <->
     (id = "core_" +:+ playerName (c_owner (cores_A state)) /\
      c_hp (cores_A (res_state r)) <= 0) \/
     (id = "core_" +:+ playerName (c_owner (cores_B state)) /\
      c_hp (cores_B (res_state r)) <= 0)).
Proof.
  intros r.
  set (damaged := applyDamage (afterPulses state actionsA actionsB)).
  assert (forall id,
            id ∈ q_id <$> quantars (res_state r) <->
            exists q, q ∈ rs_quantars damaged /\ mq_id q = id /\ 0 < mq_hp q)
    as Hreturned.
  { intros id.
    change (quantars (res_state r))
      with (toImmutableQuantar
              <$> List.filter (fun q => mq_hp q >? 0) (rs_quantars damaged)).
    rewrite <- list_fmap_compose, list_elem_of_fmap. split.
    - intros (q & -> & Hq). apply list_elem_of_In, filter_In in Hq as [Hq Hhp].
      exists q. rewrite list_elem_of_In. repeat split; [exact Hq|lia].
    - intros (q & Hq & <- & Hhp). exists q. split; [reflexivity|].
      apply list_elem_of_In, filter_In. rewrite <- list_elem_of_In.
      split; [exact Hq|lia]. }
  assert (forall id,
            EvEntityDestroyed id EntityQuantar ∈ log_events (res_log r) <->
            exists q, q ∈ rs_quantars damaged /\ mq_id q = id /\ mq_hp q <= 0)
    as Hdestroyed.
  { intros id. unfold r. rewrite destroyed_in_log. fold damaged.
    rewrite !elem_of_app, elem_of_destroyedQuantarEvents,
      !elem_of_destroyedCoreEvents. split.
    - intros [[_ H]|[[? _]|[? _]]]; [exact H|discriminate|discriminate].
    - intros H. left. by split. }
  split; [|split].
  - intros id. rewrite Hreturned, Hdestroyed.
    rewrite <- (damaged_ids state actionsA actionsB). fold damaged.
    rewrite list_elem_of_fmap. split.
    + intros (q & -> & Hq). destruct (Z.le_gt_cases (mq_hp q) 0);
        [right|left]; exists q; repeat split; (exact Hq || lia).
    + intros [(q & Hq & <- & _)|(q & Hq & <- & _)]; by exists q.
  - intros Hnd id. rewrite Hreturned, Hdestroyed.
    intros (q & Hq & <- & Halive) (q' & Hq' & Hid & Hdead).
    rewrite <- (damaged_ids state actionsA actionsB) in Hnd. fold damaged in Hnd.
    assert (q' = q) as -> by (by eapply NoDup_fmap_elem). lia.
  - intros id. unfold r. rewrite destroyed_in_log. fold damaged.
    rewrite !elem_of_app, elem_of_destroyedQuantarEvents,
      !elem_of_destroyedCoreEvents.
    pose proof (damaged_core state actionsA actionsB Player.A) as HA.
    pose proof (damaged_core state actionsA actionsB Player.B) as HB.
    simpl in HA, HB. fold damaged in HA, HB. rewrite HA, HB.
    change (c_hp (cores_A (res_state (resolveTurn state actionsA actionsB))))
      with (mc_hp (rs_cores_A damaged)).
    change (c_hp (cores_B (res_state (resolveTurn state actionsA actionsB))))
      with (mc_hp (rs_cores_B damaged)).
    split.
    + intros [[? _]|[(_ & ? & ?)|(_ & ? & ?)]]; [discriminate|by left|by right].
    + intros [[? ?]|[? ?]]; [right; left|right; right]; by repeat split.
Qed.

Lemma quantars_returned_or_destroyed_witness :
  EvEntityDestroyed "A1" EntityQuantar
  ∉ log_events (res_log (resolveTurn createInitialState allShieldA allShieldB)).
Proof.
  refine (proj1 (proj2 (quantars_returned_or_destroyed createInitialState
                          allShieldA allShieldB)) _ "A1" _).
  - vm_compute. repeat constructor; set_solver.
  - vm_compute. constructor.
Defined.

(* ====================================================================== *)
(** ** Further properties: the canonical form *)
(* ====================================================================== *)

Section Sorting.

Context {X : Type} (key : X -> string) (compare : string -> string -> Z).

#[local] Abbreviation before := (comesBefore key compare).
#[local] Abbreviation byKey := (compareBy key compare).

Lemma insertSorted_perm v (l : list X) : insertSorted byKey v l ≡ₚ v :: l.
Proof.
  induction l as [|w l IH]; simpl; [reflexivity|].
  destruct (byKey v w <? 0); [reflexivity|].
  rewrite IH. apply perm_swap.
Qed.

Lemma sort_snoc (l : list X) v :
  sort byKey (l ++ [v]) = insertSorted byKey v (sort byKey l).
Proof. unfold sort. by rewrite foldl_app. Qed.

Lemma sort_perm (l : list X) : sort byKey l ≡ₚ l.
Proof.
  induction l as [|v l IH] using rev_ind; [reflexivity|].
  rewrite sort_snoc, insertSorted_perm, IH.
  by rewrite Permutation_app_comm.
Qed.

Lemma insertSorted_sorted v (l : list X) :
  (forall a b c, a ∈ v :: l -> b ∈ v :: l -> c ∈ v :: l ->
                 before a b -> before b c -> before a c) ->
  (forall a b, a ∈ v :: l -> b ∈ v :: l -> key a <> key b ->
               before a b \/ before b a) ->
  Forall (fun w => key w <> key v) l ->
  StronglySorted before l -> StronglySorted before (insertSorted byKey v l).
Proof.
  intros Htrans Htotal Hfresh Hsorted.
  induction Hsorted as [|w l Hsorted IH Hw]; simpl.
  - repeat constructor.
  - inversion Hfresh as [|? ? Hwv Hfresh']; subst.
    destruct (Z.ltb_spec (byKey v w) 0) as [Hlt|Hge].
    + constructor; [by constructor|]. constructor; [exact Hlt|].
      rewrite Forall_forall in Hw |- *. intros r Hr.
      apply (Htrans v w r); [set_solver..|exact Hlt|by apply Hw].
    + constructor.
      * apply IH; [| |exact Hfresh'].
        -- intros a b c Ha Hb Hc. apply Htrans; set_solver.
        -- intros a b Ha Hb. apply Htotal; set_solver.
      * rewrite insertSorted_perm. constructor; [|exact Hw].
        destruct (Htotal w v) as [H|H]; [set_solver..|exact Hwv|exact H|].
        unfold before, byKey in *. lia.
Qed.

Lemma sort_sorted (l : list X) :
  (forall a b c, a ∈ l -> b ∈ l -> c ∈ l ->
                 before a b -> before b c -> before a c) ->
  (forall a b, a ∈ l -> b ∈ l -> key a <> key b -> before a b \/ before b a) ->
  NoDup (key <$> l) ->
  StronglySorted before (sort byKey l).
Proof.
  induction l as [|v l IH] using rev_ind; intros Htrans Htotal Hnd.
  - constructor.
  - rewrite sort_snoc. rewrite fmap_app in Hnd.
    apply NoDup_app in Hnd as (Hnd & Hfresh & _).
    apply insertSorted_sorted.
    + intros a b c Ha Hb Hc. rewrite sort_perm in Ha, Hb, Hc.
      apply Htrans; set_solver.
    + intros a b Ha Hb. rewrite sort_perm in Ha, Hb. apply Htotal; set_solver.
    + rewrite sort_perm, Forall_forall. intros w Hw Hkey.
      apply (Hfresh (key w)); [by apply list_elem_of_fmap_2|].
      rewrite Hkey. set_solver.
    + apply IH; [| |exact Hnd].
      * intros a b c Ha Hb Hc. apply Htrans; set_solver.
      * intros a b Ha Hb. apply Htotal; set_solver.
Qed.

Lemma sorted_unique (l1 l2 : list X) :
  (forall a b, a ∈ l1 -> b ∈ l1 -> before a b -> ~ before b a) ->
  StronglySorted before l1 -> StronglySorted before l2 -> l1 ≡ₚ l2 ->
  l1 = l2.
Proof.
  intros Hasym Hs1. revert l2.
  induction Hs1 as [|x l1 Hs1 IH Hx]; intros l2 Hs2 Hperm.
  - by apply Permutation_nil_l in Hperm.
  - destruct Hs2 as [|y l2 Hs2 Hy].
    { by apply Permutation_nil_r in Hperm. }
    assert (x = y) as ->.
    { assert (x ∈ y :: l2) as Hxy by (rewrite <- Hperm; set_solver).
      assert (y ∈ x :: l1) as Hyx by (rewrite Hperm; set_solver).
      apply elem_of_cons in Hxy as [->|Hxy]; [reflexivity|].
      apply elem_of_cons in Hyx as [->|Hyx]; [reflexivity|].
      rewrite Forall_forall in Hx, Hy.
      destruct (Hasym x y); [set_solver..|by apply Hx|by apply Hy]. }
    f_equal. apply IH; [|exact Hs2|by apply Permutation_cons_inv in Hperm].
    intros a b Ha Hb. apply Hasym; set_solver.
Qed.

(** Sorting by key does not depend on the order of the input, when the
    keys are distinct and strictly ordered by the comparison. *)
Lemma sort_permutation (l1 l2 : list X) :
  l1 ≡ₚ l2 ->
  NoDup (key <$> l1) ->
  strictOrderOn compare (key <$> l1) ->
  sort byKey l1 = sort byKey l2.
Proof.
  intros Hperm Hnd Horder.
  assert (forall a b, a ∈ l1 -> b ∈ l1 ->
            (before a b -> ~ before b a) /\
            (key a <> key b -> before a b \/ before b a) /\
            forall c, c ∈ l1 -> before a b -> before b c -> before a c)
    as Hord.
  { intros a b Ha Hb. unfold strictOrderOn in Horder.
    rewrite Forall_forall in Horder.
    specialize (Horder (key a) (list_elem_of_fmap_2 key _ _ Ha)).
    rewrite Forall_forall in Horder.
    destruct (Horder (key b) (list_elem_of_fmap_2 key _ _ Hb))
      as (Hasym & Htotal & Htrans).
    repeat split; [exact Hasym|exact Htotal|].
    intros c Hc. rewrite Forall_forall in Htrans.
    apply (Htrans (key c)). by apply list_elem_of_fmap_2. }
  apply sorted_unique.
  - intros a b Ha Hb. rewrite sort_perm in Ha, Hb. by apply Hord.
  - apply sort_sorted; [| |exact Hnd].
    + intros a b c Ha Hb Hc. by apply Hord.
    + intros a b Ha Hb. by apply Hord.
  - apply sort_sorted; [| |by rewrite <- Hperm].
    + intros a b c Ha Hb Hc. rewrite <- Hperm in Ha, Hb, Hc. by apply Hord.
    + intros a b Ha Hb. rewrite <- Hperm in Ha, Hb. by apply Hord.
  - by rewrite !sort_perm.
Qed.

End Sorting.

(** X13. The canonical form of a state, and with it [hashState] and
    [statesEqual], does not depend on the order of [state.quantars]:
    when the ids are distinct and [localeCompare] orders them strictly,
    reordering the Quantars leaves all three unchanged. *)
Theorem canonical_form_ignores_roster_order localeCompare state roster :
  roster ≡ₚ quantars state ->
  NoDup (q_id <$> quantars state) ->
  strictOrderOn localeCompare (q_id <$> quantars state) ->
  canonicalizeState localeCompare (withRoster roster state)
  = canonicalizeState localeCompare state /\
  hashState localeCompare (withRoster roster state)
  = hashState localeCompare state /\
  statesEqual localeCompare (withRoster roster state) state = true.
Proof.
  intros Hperm Hnd Horder.
  assert (canonicalizeState localeCompare (withRoster roster state)
          = canonicalizeState localeCompare state) as Hcanon.
  { unfold canonicalizeState, withRoster. cbn [turn phase winner cores_A cores_B
      quantars]. cbv zeta. do 3 f_equal. symmetry.
    by apply (sort_permutation q_id localeCompare). }
  unfold hashState, statesEqual. rewrite Hcanon.
  repeat split. by apply bool_decide_eq_true_2.
Qed.

Lemma canonical_form_ignores_roster_order_witness :
  hashState compareCodeUnits
    (withRoster (rev (quantars createInitialState)) createInitialState)
  = hashState compareCodeUnits createInitialState.
Proof.
  refine (proj1 (proj2 (canonical_form_ignores_roster_order compareCodeUnits
                          createInitialState
                          (rev (quantars createInitialState)) _ _ _))).
  - symmetry. apply Permutation_rev.
  - vm_compute. repeat constructor; set_solver.
  - unfold strictOrderOn. refine (bool_decide_unpack _ _). vm_compute. exact I.
Defined.

(** X14. The canonical form of a submission, and with it [hashActions]
    and [hashTurn], does not depend on the order of the actions: when the
    actions name distinct Quantars and [localeCompare] orders these ids
    strictly, reordering either player's actions leaves them unchanged. *)
Theorem canonical_form_ignores_action_order localeCompare
  (actions reordered : list Action) :
  reordered ≡ₚ actions ->
  NoDup (quantarId <$> actions) ->
  strictOrderOn localeCompare (quantarId <$> actions) ->
  canonicalizeActions localeCompare reordered
  = canonicalizeActions localeCompare actions /\
  hashActions localeCompare reordered = hashActions localeCompare actions /\
  forall state others,
    hashTurn localeCompare state reordered others
    = hashTurn localeCompare state actions others /\
    hashTurn localeCompare state others reordered
    = hashTurn localeCompare state others actions.
Proof.
  intros Hperm Hnd Horder.
  assert (canonicalizeActions localeCompare reordered
          = canonicalizeActions localeCompare actions) as Hcanon.
  { unfold canonicalizeActions. cbv zeta. do 2 f_equal. symmetry.
    by apply (sort_permutation quantarId localeCompare). }
  unfold hashActions, hashTurn. cbv zeta. rewrite Hcanon. auto.
Qed.

Lemma canonical_form_ignores_action_order_witness :
  hashActions compareCodeUnits (rev allShieldA)
  = hashActions compareCodeUnits allShieldA.
Proof.
  refine (proj1 (proj2 (canonical_form_ignores_action_order compareCodeUnits
                          allShieldA (rev allShieldA) _ _ _))).
  - symmetry. apply Permutation_rev.
  - vm_compute. repeat constructor; set_solver.
  - unfold strictOrderOn. refine (bool_decide_unpack _ _). vm_compute. exact I.
Defined.

(* ====================================================================== *)
(** ** Further properties: actions that name no live Quantar *)
(* ====================================================================== *)

Lemma foldl_skip {S X : Type} (f : S -> X -> S) (p : X -> bool)
  (I : S -> Prop) l :
  (forall s v, I s -> I (f s v)) ->
  (forall s v, I s -> p v = false -> f s v = s) ->
  forall s, I s -> foldl f s (List.filter p l) = foldl f s l.
Proof.
  intros Hstep Hskip. induction l as [|v l IH]; intros s Hs; [reflexivity|].
  cbn [List.filter foldl]. destruct (p v) eqn:Hv.
  - cbn [foldl]. apply IH. by apply Hstep.
  - rewrite (Hskip s v Hs Hv). by apply IH.
Qed.

Lemma omap_filter_key {X Y : Type} (f : X -> option Y) (p : X -> bool)
  (p' : Y -> bool) l :
  (forall v w, f v = Some w -> p v = p' w) ->
  omap f (List.filter p l) = List.filter p' (omap f l).
Proof.
  intros Hp. induction l as [|v l IH]; [reflexivity|].
  assert (forall k, omap f (v :: k)
                    = match f v with Some w => w :: omap f k | None => omap f k end)
    as Hcons by reflexivity.
  cbn [List.filter]. rewrite Hcons. destruct (f v) as [w|] eqn:Hv.
  - cbn [List.filter]. rewrite <- (Hp v w Hv).
    destruct (p v); rewrite ?Hcons, ?Hv, IH; reflexivity.
  - destruct (p v); rewrite ?Hcons, ?Hv, IH; reflexivity.
Qed.

Lemma liveIn_vitals state state' id :
  vitals state = vitals state' -> liveIn state id = liveIn state' id.
Proof.
  unfold vitals, liveIn, getQuantarById, find.
  generalize (rs_quantars state) (rs_quantars state') 0%nat.
  induction l as [|q l IH]; intros [|q' l'] i Heq; try discriminate;
    [reflexivity|].
  rewrite !fmap_cons in Heq. injection Heq as Hid Hhp Hrest.
  cbn [findFrom]. rewrite Hid.
  destruct (bool_decide (mq_id q' = id)); [by rewrite Hhp|by apply IH].
Qed.

Lemma vitals_alter (f : MutableQuantar -> MutableQuantar) (i : nat) state :
  (forall q, mq_id (f q) = mq_id q /\ mq_hp (f q) = mq_hp q) ->
  vitals (withQuantars (alter f i (rs_quantars state)) state) = vitals state.
Proof.
  intros Hf. unfold vitals. simpl. generalize (rs_quantars state).
  intros l. revert i. induction l as [|q l IH]; intros [|i]; simpl; auto.
  - destruct (Hf q) as [-> ->]. reflexivity.
  - f_equal. apply IH.
Qed.

Lemma resolveMoves_vitals state actions :
  vitals (resolveMoves state actions) = vitals state.
Proof.
  destruct (resolveMoves_unfold state actions) as [events1 ->].
  match goal with |- vitals (foldl applyMove ?s0 ?l) = _ =>
    change (vitals state) with (vitals s0);
    apply (foldl_preserves (fun s => vitals s = vitals s0)); [|reflexivity]
  end.
  intros s m <-. unfold applyMove.
  change (vitals (push ?e ?s')) with (vitals s'). by apply vitals_alter.
Qed.

Lemma vitals_view state state' :
  quantarView state = quantarView state' -> vitals state = vitals state'.
Proof.
  unfold quantarView, vitals. intros Hview.
  apply (f_equal (fmap (fun q => (q_id q, q_hp q)))) in Hview.
  by rewrite <- !list_fmap_compose in Hview.
Qed.

Lemma liveIn_workingCopy state action :
  liveIn (workingCopy state) (quantarId action)
  = namesLiveQuantar state action.
Proof.
  unfold liveIn, namesLiveQuantar.
  pose proof (getQuantarById_workingCopy state (quantarId action)) as Hfind.
  destruct (getQuantarById _ _) as [[ref q]|], (getQuantar _ _) as [q0|];
    try discriminate; [|reflexivity].
  simpl in Hfind. by injection Hfind as ->.
Qed.

Lemma resolveMoves_skip state (live : string -> bool) actions :
  (forall id, live id = liveIn state id) ->
  resolveMoves state (List.filter (fun a => live (quantarId a)) actions)
  = resolveMoves state actions.
Proof.
  intros Hlive. unfold resolveMoves.
  rewrite (omap_filter_key asMove _ (fun a => live a.1));
    [|by intros [] [id d]; intros [= <- <-]].
  rewrite (foldl_skip (intendMove state) _ (fun _ => True)); auto.
  intros [intended events] [id d] _ Hdead. cbn [fst] in Hdead.
  rewrite Hlive in Hdead. unfold liveIn in Hdead. unfold intendMove.
  cbn [fst snd]. destruct (getQuantarById state id) as [[ref q]|]; [|reflexivity].
  by destruct (mq_hp q <=? 0).
Qed.

Lemma resolveShields_skip state (live : string -> bool) actions :
  (forall id, live id = liveIn state id) ->
  resolveShields state (List.filter (fun a => live (quantarId a)) actions)
  = resolveShields state actions.
Proof.
  intros Hlive. unfold resolveShields.
  rewrite (omap_filter_key asShield _ live);
    [|by intros [] id; intros [= <-]].
  apply (foldl_skip shieldStep _ (fun s => vitals s = vitals state));
    [| |reflexivity].
  - intros s id <-. apply vitals_view, shieldStep_view.
  - intros s id Hs Hdead. rewrite Hlive, <- (liveIn_vitals _ _ _ Hs) in Hdead.
    unfold liveIn in Hdead. unfold shieldStep.
    destruct (getQuantarById s id) as [[ref q]|]; [|reflexivity].
    by destruct (mq_hp q <=? 0).
Qed.

Lemma resolvePulses_skip state (live : string -> bool) actions :
  (forall id, live id = liveIn state id) ->
  resolvePulses state (List.filter (fun a => live (quantarId a)) actions)
  = resolvePulses state actions.
Proof.
  intros Hlive. unfold resolvePulses.
  rewrite (omap_filter_key asPulse _ (fun a => live a.1));
    [|by intros [] [id d]; intros [= <- <-]].
  apply (foldl_skip pulseStep _ (fun s => vitals s = vitals state));
    [| |reflexivity].
  - intros s a <-. apply vitals_view, pulseStep_view.
  - intros s [id d] Hs Hdead. cbn [fst] in Hdead.
    rewrite Hlive, <- (liveIn_vitals _ _ _ Hs) in Hdead.
    unfold liveIn in Hdead. unfold pulseStep. cbn [fst snd].
    destruct (getQuantarById s id) as [[ref q]|]; [|reflexivity].
    by destruct (mq_hp q <=? 0).
Qed.

(** X15. [resolveTurn] ignores every action that names no Quantar of the
    state or a Quantar with hp <= 0: with or without such actions in the
    two submissions, the returned state and the log are the same. *)
Theorem actions_without_live_quantar_ignored state actionsA actionsB :
  resolveTurn state actionsA actionsB
  = resolveTurn state (List.filter (namesLiveQuantar state) actionsA)
                      (List.filter (namesLiveQuantar state) actionsB).
Proof.
  assert (runPhases state (List.filter (namesLiveQuantar state) actionsA)
                          (List.filter (namesLiveQuantar state) actionsB)
          = runPhases state actionsA actionsB) as Hphases.
  { unfold runPhases, afterPulses, afterMoves. cbv zeta.
    rewrite <- List.filter_app.
    set (all := actionsA ++ actionsB).
    set (live := fun id =>
           match getQuantar state id with
           | Some quantar => negb (q_hp quantar <=? 0)
           | None => false
           end).
    change (namesLiveQuantar state) with (fun a => live (quantarId a)).
    assert (forall id, live id = liveIn (workingCopy state) id) as Hlive.
    { intros id. symmetry.
      exact (liveIn_workingCopy state (ShieldAction id)). }
    rewrite (resolveMoves_skip _ live) by exact Hlive.
    set (moved := resolveMoves (workingCopy state) all).
    assert (forall id, live id = liveIn moved id) as Hmoved.
    { intros id. rewrite Hlive. apply liveIn_vitals. symmetry.
      apply resolveMoves_vitals. }
    rewrite (resolveShields_skip _ live) by exact Hmoved.
    rewrite (resolvePulses_skip _ live); [reflexivity|].
    intros id. rewrite Hmoved. apply liveIn_vitals. symmetry.
    apply vitals_view, resolveShields_view. }
  unfold resolveTurn. cbv zeta. by rewrite Hphases.
Qed.

(* ====================================================================== *)
(** ** Further properties: looking a cell up *)
(* ====================================================================== *)

Lemma findFrom_ext {X : Type} (p p' : X -> bool) l :
  Forall (fun v => p v = p' v) l -> forall i, findFrom p i l = findFrom p' i l.
Proof.
  induction 1 as [|v l Hv _ IH]; intros i; simpl; [reflexivity|].
  rewrite Hv. destruct (p' v); [reflexivity|apply IH].
Qed.

Lemma getEntityAt_workingCopy state position :
  Forall (fun q => 0 < q_hp q) (quantars state) ->
  getEntityAt state position
  = entityView <$> getEntityAtPosition (workingCopy state) position.
Proof.
  intros Halive. unfold getEntityAt, getEntityAtPosition, find, workingCopy.
  cbn [rs_quantars rs_cores_A rs_cores_B]. rewrite findFrom_fmap.
  rewrite (findFrom_ext
             (fun v => (mq_hp (toMutableQuantar v) >? 0)
                       && positionsEqual (mq_position (toMutableQuantar v))
                                         position)
             (fun q => positionsEqual (q_position q) position)).
  - destruct (findFrom _ 0 (quantars state)) as [[i q]|]; simpl.
    + by destruct q.
    + destruct (cores_A state) as [oA pA hA], (cores_B state) as [oB pB hB].
      simpl. by repeat case_match.
  - eapply Forall_impl; [exact Halive|]. simpl. intros q Hq.
    by destruct (Z.gtb_spec (q_hp q) 0); [|lia].
Qed.

(** X16. On a state whose Quantars all have hp above 0, the public
    [getEntityAt] finds at every cell what the resolution's own
    [getEntityAtPosition] finds on the working copy: the first Quantar
    standing there, else the Core standing there, else nothing.  The
    states [resolveTurn] returns are such states. *)
Theorem getEntityAt_agrees state position :
  (Forall (fun q => 0 < q_hp q) (quantars state) ->
   getEntityAt state position
   = entityView <$> getEntityAtPosition (workingCopy state) position) /\
  (forall actionsA actionsB,
     let next := res_state (resolveTurn state actionsA actionsB) in
     getEntityAt next position
     = entityView <$> getEntityAtPosition (workingCopy next) position).
Proof.
  split; [apply getEntityAt_workingCopy|].
  intros actionsA actionsB next. apply getEntityAt_workingCopy.
  change (quantars next)
    with (toImmutableQuantar
            <$> List.filter (fun q => mq_hp q >? 0)
                  (rs_quantars (applyDamage
                                  (afterPulses state actionsA actionsB)))).
  rewrite Forall_fmap, Forall_forall. intros q Hq.
  apply list_elem_of_In, filter_In in Hq as [_ Hhp]. simpl. lia.
Qed.

Lemma getEntityAt_agrees_witness :
  getEntityAt createInitialState (mkPosition 4 6)
  = entityView
      <$> getEntityAtPosition (workingCopy createInitialState) (mkPosition 4 6).
Proof.
  apply (proj1 (getEntityAt_agrees createInitialState (mkPosition 4 6))).
  vm_compute. repeat constructor.
Defined.

(* ====================================================================== *)
(** ** Further properties: actions and their events *)
(* ====================================================================== *)

Lemma getQuantarById_id state id (ref : nat) q :
  getQuantarById state id = Some (ref, q) -> mq_id q = id.
Proof.
  intros Hfind. apply find_Some in Hfind as (_ & Hid & _).
  by apply bool_decide_eq_true in Hid.
Qed.

Lemma liveIn_true state id :
  liveIn state id = true <->
  exists (ref : nat) q, getQuantarById state id = Some (ref, q) /\ 0 < mq_hp q.
Proof.
  unfold liveIn. destruct (getQuantarById state id) as [[ref q]|].
  - destruct (Z.leb_spec (mq_hp q) 0); simpl.
    + split; [discriminate|]. intros (? & ? & [= <- <-] & ?). lia.
    + split; eauto.
  - split; [discriminate|]. by intros (? & ? & [=] & _).
Qed.

(** Where an intended move comes from. *)
Lemma intended_origin state (actions : list Action) m :
  m ∈ intendedMovesOf state actions <->
  exists (ref : nat) q,
    MoveAction (im_id m) (im_direction m) ∈ actions /\
    getQuantarById state (im_id m) = Some (ref, q) /\ 0 < mq_hp q /\
    isInBounds (applyDirection (mq_position q) (im_direction m)) = true /\
    m = mkIntendedMove ref (im_id m) (mq_position q)
          (applyDirection (mq_position q) (im_direction m)) (im_direction m).
Proof.
  unfold intendedMovesOf. rewrite intendedMoves_from. simpl.
  rewrite list_elem_of_omap. split.
  - intros ([id d] & Hin & Hintend). apply asMove_elem in Hin.
    unfold intendOf in Hintend. cbn [fst snd] in Hintend.
    destruct (getQuantarById state id) as [[ref q]|] eqn:Hfind; [|discriminate].
    pose proof (getQuantarById_id _ _ _ _ Hfind) as Hid.
    destruct (Z.leb_spec (mq_hp q) 0); [discriminate|].
    destruct (isInBounds _) eqn:Hon; [|discriminate].
    injection Hintend as <-. simpl. rewrite Hid. exists ref, q. auto 10.
  - intros (ref & q & Hin & Hfind & Hhp & Hon & Hm).
    exists (im_id m, im_direction m). split; [by apply asMove_elem|].
    unfold intendOf. cbn [fst snd]. rewrite Hfind.
    destruct (Z.leb_spec (mq_hp q) 0); [lia|]. rewrite Hon.
    rewrite (getQuantarById_id _ _ _ _ Hfind). by rewrite <- Hm.
Qed.

Lemma validMovesOf_intended state actions m :
  m ∈ validMovesOf state actions <->
  m ∈ intendedMovesOf state actions /\ coreCollision state m = None.
Proof.
  rewrite validMovesOf_spec. unfold intendedMovesOf.
  rewrite intendedMoves_from. simpl.
  rewrite !list_elem_of_In, filter_In. unfold coreCollision.
  destruct (_ || _); simpl; split; intros [? ?]; (split; [assumption|]);
    congruence.
Qed.

Lemma blocked_answers m reason :
  answers (MoveAction (im_id m) (im_direction m)) (blockedEvent m reason) = true.
Proof. unfold blockedEvent. simpl. by rewrite !bool_decide_eq_true_2. Qed.

Lemma finalReject_blocked state counts byId m e :
  finalReject state counts byId m = Some e ->
  exists reason, e = blockedEvent m reason.
Proof.
  unfold finalReject. repeat case_match; try discriminate;
    intros [= <-]; eauto.
Qed.

Lemma coreCollision_blocked state m e :
  coreCollision state m = Some e -> e = blockedEvent m "blocked by Core".
Proof. unfold coreCollision. case_match; [|discriminate]. by intros [= <-]. Qed.

(** Phase 1: every Move action of a live Quantar leaves a Move or a
    MoveBlocked event. *)
Lemma move_answered state (actions : list Action) id d :
  MoveAction id d ∈ actions -> liveIn state id = true ->
  exists e, e ∈ rs_events (resolveMoves state actions) /\
            answers (MoveAction id d) e = true.
Proof.
  intros Hin Hlive. apply liveIn_true in Hlive as (ref & q & Hfind & Hhp).
  pose proof (getQuantarById_id _ _ _ _ Hfind) as Hid.
  rewrite resolveMoves_events.
  destruct (isInBounds (applyDirection (mq_position q) d)) eqn:Hon.
  - set (m := mkIntendedMove ref id (mq_position q)
                (applyDirection (mq_position q) d) d).
    assert (m ∈ intendedMovesOf state actions) as Hm.
    { apply intended_origin. exists ref, q. simpl. auto 10. }
    destruct (coreCollision state m) as [e|] eqn:Hcore.
    { exists e. split.
      - apply elem_of_app. right. apply elem_of_app. right.
        apply elem_of_app. left. apply list_elem_of_omap. eauto.
      - apply coreCollision_blocked in Hcore as ->.
        apply (blocked_answers m). }
    assert (m ∈ validMovesOf state actions) as Hvalid
      by (by apply validMovesOf_intended).
    destruct (finalReject state (countDestinations (validMovesOf state actions))
                (indexMoves (validMovesOf state actions)) m) as [e|] eqn:Hfinal.
    { exists e. split.
      - apply elem_of_app. right. apply elem_of_app. right.
        apply elem_of_app. right. apply elem_of_app. left.
        apply list_elem_of_omap. eauto.
      - apply finalReject_blocked in Hfinal as [reason ->].
        apply (blocked_answers m). }
    exists (EvMove (im_id m) (im_from m) (im_to m)). split.
    + apply elem_of_app. right. apply elem_of_app. right.
      apply elem_of_app. right. apply elem_of_app. right.
      apply list_elem_of_fmap. exists m. split; [reflexivity|].
      by apply elem_of_finalMovesOf.
    + simpl. by rewrite bool_decide_eq_true_2.
  - exists (EvMoveBlocked (mq_id q) (mq_position q) d "out of bounds"). split.
    + apply elem_of_app. right. apply elem_of_app. left.
      apply list_elem_of_omap. exists (id, d). split; [by apply asMove_elem|].
      unfold outOfBoundsEvent. cbn [fst snd]. rewrite Hfind.
      destruct (Z.leb_spec (mq_hp q) 0); [lia|]. by rewrite Hon.
    + simpl. by rewrite !bool_decide_eq_true_2.
Qed.

(** Phase 1: every event pushed answers a Move action of a live Quantar. *)
Lemma move_event_origin state (actions : list Action) e :
  e ∈ rs_events (resolveMoves state actions) ->
  e ∈ rs_events state \/
  exists id d, MoveAction id d ∈ actions /\ liveIn state id = true /\
               answers (MoveAction id d) e = true.
Proof.
  assert (forall m, m ∈ intendedMovesOf state actions ->
            MoveAction (im_id m) (im_direction m) ∈ actions /\
            liveIn state (im_id m) = true) as Hintended.
  { intros m Hm. apply intended_origin in Hm
      as (ref & q & Hin & Hfind & Hhp & _).
    split; [exact Hin|]. apply liveIn_true. eauto. }
  rewrite resolveMoves_events, !elem_of_app.
  intros [Hbase|[Hout|[Hcore|[Hfinal|Hmove]]]]; [by left|right..].
  - apply list_elem_of_omap in Hout as ([id d] & Hin & Hev).
    apply asMove_elem in Hin. unfold outOfBoundsEvent in Hev.
    cbn [fst snd] in Hev.
    destruct (getQuantarById state id) as [[ref q]|] eqn:Hfind; [|discriminate].
    destruct (Z.leb_spec (mq_hp q) 0); [discriminate|].
    destruct (isInBounds _); [discriminate|]. injection Hev as <-.
    exists id, d. split; [exact Hin|]. split; [apply liveIn_true; eauto|].
    simpl. rewrite (getQuantarById_id _ _ _ _ Hfind).
    by rewrite !bool_decide_eq_true_2.
  - apply list_elem_of_omap in Hcore as (m & Hm & Hev).
    apply coreCollision_blocked in Hev as ->.
    destruct (Hintended m Hm). exists (im_id m), (im_direction m).
    auto using blocked_answers.
  - apply list_elem_of_omap in Hfinal as (m & Hm & Hev).
    apply finalReject_blocked in Hev as [reason ->].
    apply validMovesOf_intended in Hm as [Hm _].
    destruct (Hintended m Hm). exists (im_id m), (im_direction m).
    auto using blocked_answers.
  - apply list_elem_of_fmap in Hmove as (m & -> & Hm).
    apply elem_of_finalMovesOf in Hm as [Hm _].
    apply validMovesOf_intended in Hm as [Hm _].
    destruct (Hintended m Hm). exists (im_id m), (im_direction m).
    repeat split; auto. simpl. by rewrite bool_decide_eq_true_2.
Qed.

Lemma shieldStep_events state id :
  rs_events (shieldStep state id)
  = rs_events state
    ++ (if liveIn state id then [EvShieldActivated id] else []).
Proof.
  unfold shieldStep, liveIn.
  destruct (getQuantarById state id) as [[ref q]|] eqn:Hfind;
    [|by rewrite app_nil_r].
  rewrite (getQuantarById_id _ _ _ _ Hfind).
  destruct (mq_hp q <=? 0); simpl; [by rewrite app_nil_r|reflexivity].
Qed.

(** Phase 2 pushes ShieldActivated for exactly the Shield actions of
    live Quantars. *)
Lemma shieldSteps_events ids : forall state e,
  e ∈ rs_events (foldl shieldStep state ids) <->
  e ∈ rs_events state \/
  exists id, id ∈ ids /\ liveIn state id = true /\ e = EvShieldActivated id.
Proof.
  induction ids as [|x ids IH]; intros state e; simpl.
  - split; [by left|]. intros [H|(id & Hid & _)]; [exact H|].
    by apply elem_of_nil in Hid.
  - rewrite IH, shieldStep_events, elem_of_app.
    assert (forall id, liveIn (shieldStep state x) id = liveIn state id)
      as Hlive.
    { intros id. apply liveIn_vitals, vitals_view, shieldStep_view. }
    split.
    + intros [[H|H]|(id & Hid & Hl & ->)]; [by left| |].
      * right. destruct (liveIn state x) eqn:Hx;
          [|by apply elem_of_nil in H].
        apply list_elem_of_singleton in H as ->. exists x.
        split; [constructor|auto].
      * right. exists id. rewrite Hlive in Hl.
        split; [by constructor|auto].
    + intros [H|(id & Hid & Hl & ->)]; [by left; left|].
      apply elem_of_cons in Hid as [->|Hid].
      * left. right. rewrite Hl. constructor.
      * right. exists id. by rewrite Hlive.
Qed.

Lemma asShield_elem (actions : list Action) id :
  id ∈ omap asShield actions <-> ShieldAction id ∈ actions.
Proof.
  rewrite list_elem_of_omap. split.
  - intros (a & Ha & Hs). destruct a; simpl in Hs; try discriminate.
    by injection Hs as ->.
  - intros Ha. by exists (ShieldAction id).
Qed.

Lemma asPulse_elem (actions : list Action) id d :
  (id, d) ∈ omap asPulse actions <-> PulseAction id d ∈ actions.
Proof.
  rewrite list_elem_of_omap. split.
  - intros (a & Ha & Hp). destruct a; simpl in Hp; try discriminate.
    by injection Hp as -> ->.
  - intros Ha. by exists (PulseAction id d).
Qed.

(** One round of phase 3 pushes nothing for a Pulse of a Quantar that
    is not live, and PulseFired followed by a hit or a miss otherwise. *)
Lemma pulseStep_events state id d :
  exists from outcome,
    rs_events (pulseStep state (id, d))
    = rs_events state
      ++ (if liveIn state id then [EvPulseFired id from d; outcome] else [])
    /\ isActionEvent outcome = false.
Proof.
  unfold pulseStep, liveIn. cbn [fst snd].
  destruct (getQuantarById state id) as [[ref q]|] eqn:Hfind.
  2:{ exists (mkPosition 0 0), (EvPulseMiss id). by rewrite app_nil_r. }
  rewrite (getQuantarById_id _ _ _ _ Hfind).
  destruct (mq_hp q <=? 0); simpl.
  { exists (mkPosition 0 0), (EvPulseMiss id). by rewrite app_nil_r. }
  unfold applyHit. destruct (findHitTarget _ _ _) as [[ref' t|[] t]|]; simpl;
    eexists _, _; (split; [by rewrite <- app_assoc|reflexivity]).
Qed.

Lemma pulseSteps_events (pulses : list (string * PulseDirection)) :
  forall state,
  (forall id d, (id, d) ∈ pulses -> liveIn state id = true ->
     exists from, EvPulseFired id from d
                  ∈ rs_events (foldl pulseStep state pulses)) /\
  (forall e, e ∈ rs_events (foldl pulseStep state pulses) ->
     isActionEvent e = true ->
     e ∈ rs_events state \/
     exists id d from, (id, d) ∈ pulses /\ liveIn state id = true /\
                       e = EvPulseFired id from d) /\
  (forall e, e ∈ rs_events state ->
             e ∈ rs_events (foldl pulseStep state pulses)).
Proof.
  induction pulses as [|[x dx] pulses IH]; intros state.
  { simpl. repeat split; auto.
    intros id d Hin. by apply elem_of_nil in Hin. }
  cbn [foldl]. destruct (IH (pulseStep state (x, dx))) as (IHfired & IHorigin & IHkeep).
  destruct (pulseStep_events state x dx) as (from & outcome & Hev & Hout).
  assert (forall id, liveIn (pulseStep state (x, dx)) id = liveIn state id)
    as Hlive.
  { intros id. apply liveIn_vitals, vitals_view, pulseStep_view. }
  split; [|split].
  - intros id d Hin Hl. apply elem_of_cons in Hin as [[= -> ->]|Hin].
    + exists from. apply IHkeep. rewrite Hev, Hl. set_solver.
    + apply IHfired; [exact Hin|by rewrite Hlive].
  - intros e He Haction.
    destruct (IHorigin e He Haction) as [Hstep|(id & d & from' & Hin & Hl & ->)].
    + rewrite Hev in Hstep. apply elem_of_app in Hstep as [Hbase|Hnew];
        [by left|right].
      destruct (liveIn state x) eqn:Hx; [|by apply elem_of_nil in Hnew].
      apply elem_of_cons in Hnew as [->|Hnew].
      * exists x, dx, from. split; [constructor|auto].
      * apply list_elem_of_singleton in Hnew as ->. congruence.
    + right. exists id, d, from'. rewrite Hlive in Hl.
      split; [by constructor|auto].
  - intros e He. apply IHkeep. rewrite Hev. set_solver.
Qed.

Lemma extendsBy_elem k base events e :
  extendsBy k base events -> e ∈ base -> e ∈ events.
Proof. intros (new & -> & _) He. set_solver. Qed.

Lemma extendsBy_elem_inv k base events e :
  extendsBy k base events -> e ∈ events -> e ∈ base \/ eventPhase e = k.
Proof.
  intros (new & -> & Hnew) He. apply elem_of_app in He as [He|He]; [by left|].
  right. rewrite Forall_forall in Hnew. by apply Hnew.
Qed.

(** X17. No action of a live Quantar is dropped silently, and no action
    event appears by itself: every submitted action that names a Quantar
    of the state with hp above 0 leaves its event in the log (Move or
    MoveBlocked for a Move, ShieldActivated for a Shield, PulseFired for
    a Pulse, with the action's id and direction), and every Move,
    MoveBlocked, ShieldActivated and PulseFired event of the log is the
    event of such an action. *)
Theorem actions_and_their_events state actionsA actionsB :
  let events := log_events (res_log (resolveTurn state actionsA actionsB)) in
  (forall action,
     action ∈ actionsA ++ actionsB -> namesLiveQuantar state action = true ->
     exists e, e ∈ events /\ answers action e = true) /\
  (forall e,
     e ∈ events -> isActionEvent e = true ->
     exists action,
       action ∈ actionsA ++ actionsB /\
       namesLiveQuantar state action = true /\ answers action e = true).
Proof.
  intros events.
  set (all := actionsA ++ actionsB).
  set (s0 := workingCopy state).
  set (s1 := resolveMoves s0 all).
  set (s2 := resolveShields s1 all).
  set (s3 := resolvePulses s2 all).
  assert (events = rs_events (removeDeadEntities (applyDamage s3))
                   ++ closingEvents (turn state)
                        (checkWinCondition
                           (removeDeadEntities (applyDamage s3))))
    as Hevents by reflexivity.
  assert (forall id, liveIn s1 id = liveIn s0 id) as Hlive1.
  { intros id. apply liveIn_vitals, resolveMoves_vitals. }
  assert (forall id, liveIn s2 id = liveIn s0 id) as Hlive2.
  { intros id. rewrite <- Hlive1. apply liveIn_vitals, vitals_view.
    apply resolveShields_view. }
  assert (forall a, liveIn s0 (quantarId a) = namesLiveQuantar state a)
    as Hnames by (intros a; apply liveIn_workingCopy).
  assert (forall e, e ∈ rs_events s3 -> e ∈ events) as Hkeep3.
  { intros e He. rewrite Hevents. apply elem_of_app. left.
    eapply extendsBy_elem; [apply removeDeadEntities_extends|].
    eapply extendsBy_elem; [apply applyDamage_extends|exact He]. }
  assert (forall e, e ∈ rs_events s2 -> e ∈ events) as Hkeep2.
  { intros e He. apply Hkeep3.
    eapply extendsBy_elem; [apply resolvePulses_extends|exact He]. }
  assert (forall e, e ∈ rs_events s1 -> e ∈ events) as Hkeep1.
  { intros e He. apply Hkeep2.
    eapply extendsBy_elem; [apply resolveShields_extends|exact He]. }
  split.
  - intros action Hin Hlive. rewrite <- Hnames in Hlive.
    destruct action as [id d|id d|id]; simpl in Hlive.
    + destruct (move_answered s0 all id d Hin Hlive) as (e & He & Hans).
      exists e. auto.
    + apply asPulse_elem in Hin. rewrite <- Hlive2 in Hlive.
      destruct (proj1 (pulseSteps_events (omap asPulse all) s2) id d Hin Hlive)
        as [from Hfired].
      exists (EvPulseFired id from d). split; [by apply Hkeep3|].
      simpl. by rewrite !bool_decide_eq_true_2.
    + apply asShield_elem in Hin. rewrite <- Hlive1 in Hlive.
      exists (EvShieldActivated id). split.
      * apply Hkeep2. apply shieldSteps_events. right. eauto.
      * simpl. by rewrite bool_decide_eq_true_2.
  - intros e He Haction. rewrite Hevents in He.
    apply elem_of_app in He as [He|He].
    2:{ pose proof (closingEvents_phase (turn state)
                      (checkWinCondition (removeDeadEntities (applyDamage s3))))
          as Hphases.
        rewrite Forall_forall in Hphases. apply Hphases in He.
        by destruct e. }
    destruct (extendsBy_elem_inv _ _ _ _ (removeDeadEntities_extends _) He)
      as [He4|Hphase]; [|by destruct e].
    destruct (extendsBy_elem_inv _ _ _ _ (applyDamage_extends _) He4)
      as [He3|Hphase]; [|by destruct e].
    clear He He4. rename He3 into He.
    destruct (proj1 (proj2 (pulseSteps_events (omap asPulse all) s2))
                e He Haction)
      as [He2|(id & d & from & Hin & Hlive & ->)].
    2:{ exists (PulseAction id d). apply asPulse_elem in Hin.
        rewrite <- Hnames. simpl. rewrite <- Hlive2, Hlive.
        by rewrite !bool_decide_eq_true_2. }
    apply shieldSteps_events in He2 as [He1|(id & Hin & Hlive & ->)].
    2:{ exists (ShieldAction id). apply asShield_elem in Hin.
        rewrite <- Hnames. simpl. rewrite <- Hlive1, Hlive.
        by rewrite bool_decide_eq_true_2. }
    apply move_event_origin in He1 as [He0|(id & d & Hin & Hlive & Hans)].
    { by apply elem_of_nil in He0. }
    exists (MoveAction id d). rewrite <- Hnames. auto.
Qed.

Lemma actions_and_their_events_witness :
  exists e,
    e ∈ log_events (res_log (resolveTurn createInitialState
                               [MoveAction "A1" North] [])) /\
    answers (MoveAction "A1" North) e = true.
Proof.
  refine (proj1 (actions_and_their_events createInitialState
                   [MoveAction "A1" North] [])
                (MoveAction "A1" North) _ _).
  - constructor.
  - vm_compute. reflexivity.
Defined.

(* ====================================================================== *)
(** ** Further properties: the damage of a turn *)
(* ====================================================================== *)

Lemma sumOf_app {X : Type} (f : X -> Z) l1 l2 :
  sumOf f (l1 ++ l2) = sumOf f l1 + sumOf f l2.
Proof. induction l1 as [|v l1 IH]; simpl; [reflexivity|]. rewrite IH. lia. Qed.

Lemma sumOf_zero {X : Type} (f : X -> Z) l :
  Forall (fun v => f v = 0) l -> sumOf f l = 0.
Proof. induction 1 as [|v l Hv _ IH]; simpl; [reflexivity|]. lia. Qed.

Lemma sumOf_alter (g : MutableQuantar -> MutableQuantar) (i : nat)
  (l : list MutableQuantar) q :
  l !! i = Some q ->
  sumOf mq_pendingDamage (alter g i l)
  = sumOf mq_pendingDamage l - mq_pendingDamage q + mq_pendingDamage (g q).
Proof.
  revert i. induction l as [|v l IH]; intros [|i] Hq; try discriminate; simpl.
  - injection Hq as ->. lia.
  - simpl in Hq. change (list_alter g i l) with (alter g i l).
    rewrite (IH i Hq). lia.
Qed.

Lemma sumOf_alter_same (g : MutableQuantar -> MutableQuantar) (i : nat)
  (l : list MutableQuantar) :
  (forall q, mq_pendingDamage (g q) = mq_pendingDamage q) ->
  sumOf mq_pendingDamage (alter g i l) = sumOf mq_pendingDamage l.
Proof.
  intros Hg. revert i. induction l as [|v l IH]; intros [|i]; simpl; auto.
  - by rewrite Hg.
  - change (list_alter g i l) with (alter g i l). by rewrite IH.
Qed.

Lemma sumOf_phase (f : TurnEvent -> Z) (P : nat -> Prop) events :
  (forall e, P (eventPhase e) -> f e = 0) ->
  Forall (fun e => P (eventPhase e)) events -> sumOf f events = 0.
Proof.
  intros Hf Hevents. apply sumOf_zero.
  eapply Forall_impl; [exact Hevents|]. exact Hf.
Qed.

(** Phases 1 and 2 leave the pending damage alone. *)
Lemma resolveMoves_totalPending state actions :
  totalPending (resolveMoves state actions) = totalPending state.
Proof.
  destruct (resolveMoves_unfold state actions) as [events1 ->].
  match goal with |- totalPending (foldl applyMove ?s0 ?l) = _ =>
    change (totalPending state) with (totalPending s0);
    apply (foldl_preserves (fun s => totalPending s = totalPending s0));
      [|reflexivity]
  end.
  intros s m <-. unfold applyMove, totalPending. simpl.
  by rewrite sumOf_alter_same.
Qed.

Lemma resolveShields_totalPending state actions :
  totalPending (resolveShields state actions) = totalPending state.
Proof.
  unfold resolveShields.
  apply (foldl_preserves (fun s => totalPending s = totalPending state));
    [|reflexivity].
  intros s id <-. unfold shieldStep.
  destruct (getQuantarById s id) as [[ref q]|]; [|reflexivity].
  destruct (mq_hp q <=? 0); [reflexivity|].
  unfold totalPending. simpl. by rewrite sumOf_alter_same.
Qed.

Lemma workingCopy_totalPending state : totalPending (workingCopy state) = 0.
Proof.
  unfold totalPending, workingCopy. simpl.
  rewrite sumOf_zero; [reflexivity|]. apply Forall_fmap. by apply Forall_true.
Qed.

(** Each round of phase 3 adds to the pending damage exactly what its
    PulseHit event announces, and announces at most one hit. *)
Lemma pulseStep_totalPending state action :
  totalPending (pulseStep state action) - sumOf hitOf (rs_events (pulseStep state action))
  = totalPending state - sumOf hitOf (rs_events state) /\
  sumOf hitOf (rs_events state)
  <= sumOf hitOf (rs_events (pulseStep state action))
  <= sumOf hitOf (rs_events state) + PULSE_DAMAGE.
Proof.
  unfold pulseStep.
  destruct (getQuantarById state action.1) as [[ref q]|];
    [|unfold PULSE_DAMAGE; lia].
  destruct (mq_hp q <=? 0); [unfold PULSE_DAMAGE; lia|].
  set (state1 := push _ state).
  pose proof (beamTrace_ref state1 (mq_position q) action.2 _
                (findHitTarget_spec state1 (mq_position q) action.2)) as Href.
  unfold applyHit.
  destruct (findHitTarget state1 (mq_position q) action.2)
    as [[ref' target|[] target]|]; unfold totalPending; simpl;
    rewrite !sumOf_app; simpl; unfold PULSE_DAMAGE.
  - simpl in Href. rewrite (sumOf_alter _ _ _ _ Href). simpl. lia.
  - lia.
  - lia.
  - lia.
Qed.

Lemma pulseSteps_totalPending pulses : forall state,
  totalPending (foldl pulseStep state pulses)
  - sumOf hitOf (rs_events (foldl pulseStep state pulses))
  = totalPending state - sumOf hitOf (rs_events state) /\
  sumOf hitOf (rs_events state)
  <= sumOf hitOf (rs_events (foldl pulseStep state pulses))
  <= sumOf hitOf (rs_events state) + PULSE_DAMAGE * Z.of_nat (length pulses).
Proof.
  induction pulses as [|a pulses IH]; intros state.
  - simpl. unfold PULSE_DAMAGE. lia.
  - cbn [foldl length]. destruct (IH (pulseStep state a)) as [Heq Hle].
    destruct (pulseStep_totalPending state a) as [Heq1 Hle1].
    unfold PULSE_DAMAGE in *. lia.
Qed.

(** What phase 4 reports for the Quantars. *)
Lemma quantar_damage_reported (qs : list MutableQuantar) :
  Forall (fun q => 0 <= mq_pendingDamage q) qs ->
  let reported :=
    sumOf damageOf
      (omap (fun q => if mq_pendingDamage q >? 0
                      then Some (EvDamageApplied (mq_id q) (actualDamageOf q)
                                   (mq_hp q - actualDamageOf q))
                      else None) qs) in
  0 <= reported <= sumOf mq_pendingDamage qs /\
  (Forall (fun q => mq_shielded q = false) qs ->
   reported = sumOf mq_pendingDamage qs).
Proof.
  induction 1 as [|q qs Hq _ IH]; simpl; [split; [lia|reflexivity]|].
  destruct IH as [Hle Heq].
  assert (0 <= actualDamageOf q <= mq_pendingDamage q) as Hactual.
  { unfold actualDamageOf, SHIELD_REDUCTION. destruct (mq_shielded q); lia. }
  destruct (Z.gtb_spec (mq_pendingDamage q) 0); simpl;
    repeat match goal with
           | |- context [list_omap ?A ?B ?f ?l] =>
               change (list_omap A B f l) with (omap f l)
           end.
  - split; [lia|]. intros Hsh. inversion Hsh as [|? ? Hq0 Hrest]; subst.
    rewrite (Heq Hrest). unfold actualDamageOf. by rewrite Hq0.
  - split; [lia|]. intros Hsh. inversion Hsh as [|? ? Hq0 Hrest]; subst.
    rewrite (Heq Hrest). lia.
Qed.

Lemma applyDamage_reported state :
  Forall (fun q => 0 <= mq_pendingDamage q) (rs_quantars state) ->
  0 <= mc_pendingDamage (rs_cores_A state) ->
  0 <= mc_pendingDamage (rs_cores_B state) ->
  let reported :=
    sumOf damageOf (rs_events (applyDamage state))
    - sumOf damageOf (rs_events state) in
  0 <= reported <= totalPending state /\
  (Forall (fun q => mq_shielded q = false) (rs_quantars state) ->
   reported = totalPending state).
Proof.
  intros Hqs HA HB.
  destruct (quantar_damage_reported (rs_quantars state) Hqs) as [Hle Heq].
  unfold applyDamage. rewrite damageQuantars_spec. unfold damageCore, totalPending.
  destruct (Z.gtb_spec (mc_pendingDamage (rs_cores_A state)) 0),
           (Z.gtb_spec (mc_pendingDamage (rs_cores_B state)) 0);
    simpl; rewrite !sumOf_app; simpl;
    (split; [lia|intros Hsh; rewrite <- (Heq Hsh); lia]).
Qed.

(** X18. The damage the DamageApplied events of a turn report adds up to
    at most the damage its PulseHit events announce (shields take the
    difference: with no Shield action the two are equal), and the
    PulseHit events announce at most PULSE_DAMAGE for each Pulse action. *)
Theorem damage_comes_from_hits state actionsA actionsB :
  let events := log_events (res_log (resolveTurn state actionsA actionsB)) in
  let pulses := omap asPulse (actionsA ++ actionsB) in
  0 <= sumOf damageOf events <= sumOf hitOf events /\
  sumOf hitOf events <= PULSE_DAMAGE * Z.of_nat (length pulses) /\
  (omap asShield (actionsA ++ actionsB) = [] ->
   sumOf damageOf events = sumOf hitOf events).
Proof.
  intros events pulses.
  set (all := actionsA ++ actionsB) in *.
  set (s0 := workingCopy state).
  set (s1 := resolveMoves s0 all).
  set (s2 := resolveShields s1 all).
  set (s3 := resolvePulses s2 all).
  pose proof (afterPulses_pending state actionsA actionsB) as Hpending.
  destruct (afterPulses_core state actionsA actionsB Player.A) as [_ HA].
  destruct (afterPulses_core state actionsA actionsB Player.B) as [_ HB].
  change (afterPulses state actionsA actionsB) with s3 in Hpending, HA, HB.
  simpl in HA, HB.
  destruct (applyDamage_reported s3 Hpending HA HB) as [Hle Heq].
  (* events before phase 3 *)
  assert (Forall (fun e => (eventPhase e < 3)%nat) (rs_events s2)) as Hearly.
  { eapply extendsBy_below; [apply resolveShields_extends|lia|].
    eapply extendsBy_below; [apply resolveMoves_extends|lia|]. constructor. }
  assert (sumOf hitOf (rs_events s2) = 0) as Hhits2.
  { apply (sumOf_phase hitOf (fun k => (k < 3)%nat)); [|exact Hearly].
    intros []; simpl; lia. }
  assert (totalPending s2 = 0) as Hpending2.
  { unfold s2, s1, s0.
    by rewrite resolveShields_totalPending, resolveMoves_totalPending,
      workingCopy_totalPending. }
  destruct (pulseSteps_totalPending pulses s2) as [Hsum Hbound].
  change (foldl pulseStep s2 pulses) with s3 in Hsum, Hbound.
  (* events up to phase 3 report no damage *)
  assert (sumOf damageOf (rs_events s3) = 0) as Hdamage3.
  { apply (sumOf_phase damageOf (fun k => (k < 4)%nat));
      [intros []; simpl; lia|].
    eapply extendsBy_below; [apply resolvePulses_extends|lia|].
    eapply Forall_impl; [exact Hearly|]. simpl. lia. }
  (* phases 4 to 6 announce no hit, phases 5 and 6 report no damage *)
  destruct (applyDamage_extends s3) as (damage & Hev4 & Hphase4).
  destruct (removeDeadEntities_extends (applyDamage s3))
    as (destroyed & Hev5 & Hphase5).
  pose proof (closingEvents_phase (turn state)
                (checkWinCondition (removeDeadEntities (applyDamage s3))))
    as Hphase6.
  assert (events = (rs_events s3 ++ damage) ++ destroyed
                   ++ closingEvents (turn state)
                        (checkWinCondition
                           (removeDeadEntities (applyDamage s3)))) as ->.
  { unfold events. rewrite <- Hev4, app_assoc, <- Hev5. reflexivity. }
  rewrite Hev4, sumOf_app in Hle, Heq.
  rewrite !sumOf_app.
  rewrite (sumOf_phase hitOf (fun k => k = 4%nat) damage)
    by (exact Hphase4 || (intros []; simpl; intros; lia || reflexivity)).
  rewrite (sumOf_phase hitOf (fun k => k = 5%nat) destroyed)
    by (exact Hphase5 || (intros []; simpl; intros; lia || reflexivity)).
  rewrite (sumOf_phase hitOf (fun k => k = 6%nat) (closingEvents _ _))
    by (exact Hphase6 || (intros []; simpl; intros; lia || reflexivity)).
  rewrite (sumOf_phase damageOf (fun k => k = 5%nat) destroyed)
    by (exact Hphase5 || (intros []; simpl; intros; lia || reflexivity)).
  rewrite (sumOf_phase damageOf (fun k => k = 6%nat) (closingEvents _ _))
    by (exact Hphase6 || (intros []; simpl; intros; lia || reflexivity)).
  split; [lia|]. split; [lia|].
  intros Hnone.
  assert (Forall (fun q => mq_shielded q = false) (rs_quantars s3)) as Hun.
  { assert (Forall (fun q => mq_shielded q = false) (rs_quantars s1)) as Hun1.
    { apply resolveMoves_unshielded. simpl. apply Forall_fmap.
      by apply Forall_true. }
    assert (s2 = s1) as Hs2 by (unfold s2, resolveShields; by rewrite Hnone).
    pose proof (pulseSteps_shielded pulses s2) as Hflags.
    change (foldl pulseStep s2 pulses) with s3 in Hflags. rewrite Hs2 in Hflags.
    rewrite Forall_lookup in Hun1 |- *. intros i q Hq.
    apply (f_equal (fun l => l !! i)) in Hflags.
    rewrite !list_lookup_fmap, Hq in Hflags. simpl in Hflags.
    destruct (rs_quantars s1 !! i) as [q1|] eqn:Hq1; [|discriminate].
    injection Hflags as ->. by eapply Hun1. }
  specialize (Heq Hun). lia.
Qed.

Lemma damage_comes_from_hits_witness :
  sumOf damageOf
    (log_events (res_log (resolveTurn (duel 5)
                            [PulseAction "A1" PNorth] [])))
  = sumOf hitOf
      (log_events (res_log (resolveTurn (duel 5)
                              [PulseAction "A1" PNorth] []))).
Proof.
  apply (proj2 (proj2 (damage_comes_from_hits (duel 5)
                         [PulseAction "A1" PNorth] []))).
  reflexivity.
Defined.

(* ====================================================================== *)
(** ** Further properties: a whole game *)
(* ====================================================================== *)

Lemma resolveTurn_boardInvariant state actionsA actionsB :
  boardInvariant state ->
  boardInvariant (res_state (resolveTurn state actionsA actionsB)).
Proof.
  intros (Hids & Hqs & HoA & HoB & HhA & HhB).
  destruct (returned_core state actionsA actionsB Player.A) as (HA1 & HA2 & HA3).
  destruct (returned_core state actionsA actionsB Player.B) as (HB1 & HB2 & HB3).
  cbn [getPlayerCore] in HA1, HA2, HA3, HB1, HB2, HB3.
  unfold boardInvariant. rewrite HA1, HA2, HB1, HB2.
  split; [|split; [|repeat split; (assumption || lia)]].
  - change (quantars (res_state (resolveTurn state actionsA actionsB)))
      with (toImmutableQuantar
              <$> List.filter (fun q => mq_hp q >? 0)
                    (rs_quantars (applyDamage
                                    (afterPulses state actionsA actionsB)))).
    rewrite <- list_fmap_compose. apply NoDup_fmap_filter.
    change (q_id ∘ toImmutableQuantar) with mq_id.
    by rewrite damaged_ids.
  - rewrite Forall_forall in Hqs |- *. intros qf Hqf.
    apply returned_quantar_origin in Hqf
      as (Hhp & qi & Hqi & _ & _ & Hle & Hpos).
    destruct (Hqs qi Hqi) as (Hhpi & Hin & HcA & HcB).
    split; [lia|].
    destruct Hpos as [->|(d & _ & Hon & HnA & HnB)]; auto.
Qed.

Lemma valid_success r : valid r = true -> r = ValidationSuccess.
Proof. by destruct r. Qed.

(** A turn that reaches MAX_TURNS ends the game. *)
Lemma resolveTurn_ended state actionsA actionsB :
  MAX_TURNS <= turn state + 1 ->
  phase (res_state (resolveTurn state actionsA actionsB)) = Ended.
Proof.
  intros Hmax.
  destruct (resolveTurn_outcome state actionsA actionsB _ eq_refl)
    as (_ & _ & ->).
  destruct (Z.geb_spec (turn state + 1) MAX_TURNS); [|lia].
  by destruct (bool_decide _), (wc_isDraw _).
Qed.

Lemma playTurns_turn plays : forall state final,
  playTurns state plays = Some final ->
  turn final = turn state + Z.of_nat (length plays) /\
  (turn state < MAX_TURNS -> turn final <= MAX_TURNS).
Proof.
  induction plays as [|[actionsA actionsB] plays IH]; intros state final Hplay.
  - injection Hplay as <-. simpl. lia.
  - cbn [playTurns] in Hplay.
    destruct (valid (validatePlayerActions state actionsA Player.A)
              && valid (validatePlayerActions state actionsB Player.B));
      [|discriminate].
    set (next := res_state (resolveTurn state actionsA actionsB)) in *.
    assert (turn next = turn state + 1) as Hturn by reflexivity.
    destruct (IH next final Hplay) as [Hfinal Hbound].
    split; [rewrite Hfinal, Hturn; cbn [length]; lia|].
    intros Hlt. destruct plays as [|[nextA nextB] plays].
    + injection Hplay as <-. lia.
    + apply Hbound.
      destruct (Z.lt_ge_cases (turn next) MAX_TURNS) as [|Hge]; [assumption|].
      exfalso. cbn [playTurns] in Hplay.
      destruct (valid (validatePlayerActions next nextA Player.A)) eqn:HvA;
        [|discriminate].
      apply valid_success, validatePlayerActions_accepts in HvA as [Hphase _].
      unfold next in Hphase. rewrite resolveTurn_ended in Hphase; [discriminate|].
      lia.
Qed.

(** X19. A game played turn by turn, each submission validated and then
    resolved, keeps the board in order whatever the players submit:
    Quantar ids stay distinct, every Quantar is alive with at most the
    initial hp and stands on the board off the Cores' cells, and each
    Core keeps its owner and has at most the initial hp.  The turn
    counter advances by one per turn, and never passes MAX_TURNS. *)
Theorem validated_play_invariant state plays final :
  boardInvariant state ->
  playTurns state plays = Some final ->
  boardInvariant final /\
  turn final = turn state + Z.of_nat (length plays) /\
  (turn state < MAX_TURNS -> turn final <= MAX_TURNS).
Proof.
  intros Hstate Hplay. split; [|by apply playTurns_turn].
  revert state Hstate Hplay.
  induction plays as [|[actionsA actionsB] plays IH]; intros state Hstate Hplay.
  - by injection Hplay as <-.
  - cbn [playTurns] in Hplay.
    destruct (valid (validatePlayerActions state actionsA Player.A)
              && valid (validatePlayerActions state actionsB Player.B));
      [|discriminate].
    apply (IH (res_state (resolveTurn state actionsA actionsB)));
      [|exact Hplay].
    by apply resolveTurn_boardInvariant.
Qed.

Lemma validated_play_invariant_witness :
  boardInvariant (res_state (resolveTurn createInitialState
                               allShieldA allShieldB)).
Proof.
  refine (proj1 (validated_play_invariant createInitialState
                   [(allShieldA, allShieldB)] _ _ _)).
  - unfold boardInvariant. split; [vm_compute; repeat constructor; set_solver|].
    split; [|vm_compute; repeat split; discriminate].
    repeat constructor; vm_compute; congruence.
  - vm_compute. reflexivity.
Defined.

(* ====================================================================== *)
(** ** Further properties: the other hashes *)
(* ====================================================================== *)

(** X20. [hashActions] and [hashTurn] return 8 hexadecimal digits that
    read back as the djb2 hash of what they hash: the canonical form of
    the actions, and the canonical forms of the state and of the two
    submissions joined by ["||"]; the [stateHash] of a replay entry is
    such a string too. *)
Theorem action_hashes_hex (localeCompare : string -> string -> Z)
  (state : GameState) (actionsA actionsB : list Action) (log : TurnLog) :
  let ofActions := hashActions localeCompare actionsA in
  let ofTurn := hashTurn localeCompare state actionsA actionsB in
  let entry := createReplayTurn localeCompare state actionsA actionsB log in
  (String.length ofActions = 8%nat /\ allHex ofActions = true /\
   parseHex ofActions
   = Some (djb2Hash (canonicalizeActions localeCompare actionsA))) /\
  (String.length ofTurn = 8%nat /\ allHex ofTurn = true /\
   parseHex ofTurn
   = Some (djb2Hash (canonicalizeState localeCompare state +:+ "||" +:+
                     canonicalizeActions localeCompare actionsA +:+ "||" +:+
                     canonicalizeActions localeCompare actionsB))) /\
  (String.length (rt_stateHash entry) = 8%nat /\
   allHex (rt_stateHash entry) = true /\
   rt_turn entry = turn state).
Proof.
  intros ofActions ofTurn entry. split; [apply hashToHex_spec|].
  split; [apply hashToHex_spec|].
  destruct (hashToHex_spec (canonicalizeState localeCompare state))
    as (Hlen & Hhex & _).
  by repeat split.
Qed.
